(** * Pyro: SEIR compartmental models, the funsor [Trace_ELBO] and the HMM
      examples

    A shallow embedding of
    - [pyro/contrib/epidemiology/seir.py],
    - [pyro/contrib/funsor/infer/trace_elbo.py],
    - [examples/contrib/funsor/hmm.py],
    and the properties of these programs that the specification states. *)

From Stdlib Require Import ZArith SpecFloat.
From stdpp Require Import base gmap strings list pretty.

Local Open Scope Z_scope.

(** ** Exceptions and the state-and-error monad

    Python code that threads a mutable store through calls that may raise is
    modelled by [M St A]: a computation reads a store, and either raises or
    returns a value with the updated store. *)

Inductive exn : Type :=
| AssertionError
| KeyError (key : string)
| IndexError
| TypeError
| RuntimeError.

Inductive result (A : Type) : Type :=
| Ok (a : A)
| Raise (e : exn).
Arguments Ok {A} a.
Arguments Raise {A} e.

Definition M (St A : Type) : Type := St → result (A * St).

Definition ret {St A} (a : A) : M St A := λ s, Ok (a, s).

Definition bind {St A B} (c : M St A) (k : A → M St B) : M St B :=
  λ s, match c s with
       | Ok (a, s') => k a s'
       | Raise e => Raise e
       end.

Definition raise {St A} (e : exn) : M St A := λ _, Raise e.

Definition get {St} : M St St := λ s, Ok (s, s).
Definition put {St} (s : St) : M St unit := λ _, Ok (tt, s).
Definition modify {St} (f : St → St) : M St unit := λ s, Ok (tt, f s).

(** [assert c] is Python's [assert c]. *)
Definition assert {St} (c : bool) : M St unit :=
  if c then ret tt else raise AssertionError.

(** [d[k]] on a Python dict with string keys. *)
Definition getitem {St V} (d : gmap string V) (k : string) : M St V :=
  match d !! k with
  | Some v => ret v
  | None => raise (KeyError k)
  end.

Declare Scope py_scope.
Delimit Scope py_scope with py.
Notation "x <- c ;; k" := (bind c (λ x, k))
  (at level 100, c at next level, right associativity) : py_scope.
Notation "c ;;; k" := (bind c (λ _, k))
  (at level 100, right associativity) : py_scope.

(** [for x in l: body x], threading an accumulator. *)
Fixpoint for_each {St A B} (l : list A) (body : B → A → M St B) (acc : B)
  : M St B :=
  match l with
  | [] => ret acc
  | x :: l' => (acc' <- body acc x ;; for_each l' body acc')%py
  end.

(** The computation raises nothing but [KeyError]. *)
Definition only_KeyError {St A} (c : M St A) : Prop :=
  ∀ s e, c s = Raise e → ∃ k, e = KeyError k.

(** ** Python objects

    Arguments and dictionary entries whose dynamic type the code inspects.
    Floats are binary64 values. *)
Inductive pyobj : Type :=
| PyInt (z : Z)
| PyBool (b : bool)
| PyFloat (f : spec_float)
| PyStr (s : string)
| PyNone.

(** The binary64 value [1.0]. *)
Definition float_one : spec_float := S754_finite false 4503599627370496 (-52).

(** Python's truth value of an object. *)
Definition truthy (x : pyobj) : bool :=
  match x with
  | PyInt z => negb (z =? 0)
  | PyBool b => b
  | PyFloat f => negb (SFeqb f (S754_zero false))
  | PyStr s => negb (String.eqb s "")
  | PyNone => false
  end.

(** ** [pyro/contrib/epidemiology/seir.py] *)

Module Seir.

(** *** Tensors

    The compartments, the flows and the data are tensors of torch's default
    dtype, [torch.float32]: binary32 floating-point numbers, with the
    arithmetic of IEEE 754 (round to nearest, ties to even). *)
Definition prec : Z := 24.
Definition emax : Z := 128.

Definition tensor : Type := spec_float.

(** A Python number that meets a tensor is converted to the tensor's dtype,
    rounded to the nearest binary32 number. *)
Definition as_tensor (z : Z) : tensor := binary_normalize prec emax z 0 false.

(** [a + b] and [a - b] on tensors. *)
Definition add (a b : tensor) : tensor := SFadd prec emax a b.
Definition sub (a b : tensor) : tensor := SFsub prec emax a b.

(** The whole number a tensor holds, if it holds one. *)
Definition count_of (x : tensor) : option Z :=
  match x with
  | S754_zero _ => Some 0
  | S754_finite s m e =>
      if bool_decide (0 ≤ e) then Some (cond_Zopp s (Zpos m * 2 ^ e))
      else if bool_decide (Zpos m mod 2 ^ (- e) = 0)
           then Some (cond_Zopp s (Zpos m / 2 ^ (- e)))
           else None
  | _ => None
  end.

(** The whole numbers up to [2 ^ 24] in magnitude, all of which binary32
    represents. *)
Definition representable (z : Z) : Prop := Z.abs z ≤ 2 ^ 24.

(** Rates and probabilities are real-valued tensors; only the way the code
    combines them matters here, so they are kept symbolic. *)
Inductive real : Type :=
| RParam (name : string)
| RInt (z : Z)
| RDiv (a b : real).

(** The distributions the two models sample from. *)
Inductive dist : Type :=
| infection_dist (individual_rate : real)
    (num_susceptible num_infectious : tensor) (population : Z)
    (concentration : option real)
| Binomial (total_count : tensor) (probs : real)
| ExtendedBinomial (total_count : tensor) (probs : real)
| LogNormal (loc scale : real)
| Uniform (low high : real)
| Exponential (rate : real).

(** One [pyro.sample] statement as it is issued. *)
Record site : Type := Site {
  site_name : string;
  site_fn : dist;
  site_obs : option tensor
}.

(** [pyro.sample(name, fn, obs=obs)]: the statement is recorded; an observed
    site returns its observation, an unobserved one the value [draw] gives
    for it. *)
Definition sample (draw : string → dist → tensor)
    (name : string) (fn : dist) (obs : option tensor)
  : M (list site) tensor :=
  (modify (λ tr, tr ++ [Site name fn obs]) ;;;
   ret (match obs with Some v => v | None => draw name fn end))%py.

(** ["S2E_{}".format(t)] *)
Definition format (prefix : string) (t : nat) : string :=
  prefix +:+ pretty t.

(** [isinstance(x, float)] *)
Definition isinstance_float (x : pyobj) : bool :=
  match x with PyFloat _ => true | _ => false end.

(** [x > 1] for a Python object [x] that passed [isinstance(x, float)];
    comparing any other object is not needed by the code below, where the
    [isinstance] assertion comes first. *)
Definition gt_one (x : pyobj) : bool :=
  match x with
  | PyFloat f => SFltb float_one f
  | PyInt z => 1 <? z
  | PyBool _ => false
  | _ => false
  end.

(** The attributes of a model instance. *)
Record model : Type := Model {
  compartments : list string;
  duration : nat;
  population : Z;
  incubation_time : pyobj;
  recovery_time : pyobj;
  data : list tensor
}.

(** Modelled from the spec: [CompartmentalModel.__init__] (the base class in
    [compartmental.py], absent from the sources) validates its arguments with
    assertions and stores [compartments], [duration] and [population] on the
    instance; [base_valid] stands for its validation, which is not known. *)
Definition CompartmentalModel_init
    (base_valid : list string → nat → Z → bool)
    (compartments : list string) (duration : nat) (population : Z)
  : M unit (list string * nat * Z) :=
  (assert (base_valid compartments duration population) ;;;
   ret (compartments, duration, population))%py.

(** The implicit compartment: [R = population - S - E - I]. *)
Definition implicit_R (population : Z) (state : gmap string Z) : option Z :=
  s ← state !! "S"; e ← state !! "E"; i ← state !! "I";
  Some (population - s - e - i).

(** The explicit compartments together: [S + E + I]. *)
Definition total (state : gmap string Z) : option Z :=
  s ← state !! "S"; e ← state !! "E"; i ← state !! "I";
  Some (s + e + i).

(** The whole numbers that the tensors of a state hold. *)
Definition counts (state : gmap string tensor) : gmap string Z :=
  omap count_of state.

(** What the specification asks of one forward step from [state] to [state']
    with flows [S2E], [E2I], [I2R]: the three compartments move by the
    flows, [S + E + I] drops by [I2R], and with the implicit [R] the four
    compartments still add up to the population. *)
Definition conserving_step (pop : Z) (state state' : gmap string Z)
    (S2E E2I I2R : Z) : Prop :=
  ∃ s e i r',
    state !! "S" = Some s ∧ state !! "E" = Some e ∧ state !! "I" = Some i
    ∧ state' !! "S" = Some (s - S2E)
    ∧ state' !! "E" = Some (e + S2E - E2I)
    ∧ state' !! "I" = Some (i + E2I - I2R)
    ∧ total state = Some (s + e + i)
    ∧ total state' = Some (s + e + i - I2R)
    ∧ implicit_R pop state' = Some r'
    ∧ (s - S2E) + (e + S2E - E2I) + (i + E2I - I2R) + r' = pop.

(** [draw] samples the whole numbers [S2E], [E2I], [I2R] as the flows at
    time [t]. *)
Definition draws_flows (draw : string → dist → tensor) (t : nat)
    (S2E E2I I2R : Z) : Prop :=
  (∀ d, draw (format "S2E_" t) d = as_tensor S2E)
  ∧ (∀ d, draw (format "E2I_" t) d = as_tensor E2I)
  ∧ (∀ d, draw (format "I2R_" t) d = as_tensor I2R).

(** The state holds the whole numbers [s], [e], [i]. *)
Definition holds (state : gmap string tensor) (s e i : Z) : Prop :=
  state !! "S" = Some (as_tensor s) ∧ state !! "E" = Some (as_tensor e)
  ∧ state !! "I" = Some (as_tensor i).

(** The numbers that one forward step from the compartments [s], [e], [i]
    with the flows [S2E], [E2I], [I2R] handles: the compartments, the
    flows, and every sum and difference that the update forms. *)
Definition fwd_values (s e i S2E E2I I2R : Z) : list Z :=
  [s; e; i; S2E; E2I; I2R;
   s - S2E; e + S2E; e + S2E - E2I; i + E2I; i + E2I - I2R].

(** The differences that the backward step forms on top of them when it
    recomputes the flows. *)
Definition bwd_values (S2E E2I I2R : Z) : list Z :=
  [E2I - S2E; I2R - E2I].

(** The flows lie in the supports of the distributions they are sampled
    from, and the three compartments are counts that add up to at most
    [2 ^ 24]. *)
Definition sampled_within (s e i S2E E2I I2R : Z) : Prop :=
  0 ≤ S2E ≤ s ∧ 0 ≤ E2I ≤ e ∧ 0 ≤ I2R ≤ i ∧ s + e + i ≤ 2 ^ 24.

(** The name and the observed value of each statement of a trace. *)
Definition observations (tr : list site)
  : list (string * option tensor) :=
  (λ x, (site_name x, site_obs x)) <$> tr.

(** "A float strictly greater than 1". *)
Definition float_gt_one (x : pyobj) : Prop :=
  ∃ f, x = PyFloat f ∧ SFcompare float_one f = Some Lt.

Module SimpleSEIRModel.

(** [__init__]: the base class is initialised first, then the four
    assertions run in the order of the source. *)
Definition init (base_valid : list string → nat → Z → bool)
    (population : Z) (incubation_time recovery_time : pyobj)
    (data : list tensor) : M unit model :=
  (let compartments := ["S"; "E"; "I"] in
   let duration := length data in
   base <- CompartmentalModel_init base_valid compartments duration
             population ;;
   let '(c, d, p) := base in
   assert (isinstance_float incubation_time) ;;;
   assert (gt_one incubation_time) ;;;
   assert (isinstance_float recovery_time) ;;;
   assert (gt_one recovery_time) ;;;
   ret (Model c d p incubation_time recovery_time data))%py.

Definition initialize (self : model) : gmap string Z :=
  {[ "S" := population self - 1; "E" := 0; "I" := 1 ]}.

(** [transition_fwd] updates the dict [state] in place and returns nothing;
    here the updated dict is the returned value.  The flows are tensors,
    and so is every compartment once it has been updated.  [self.data[t]]
    raises [IndexError] when [t] is past the end of the series. *)
Definition transition_fwd (draw : string → dist → tensor) (self : model)
    (params : real * real * real * real) (state : gmap string tensor)
    (t : nat) : M (list site) (gmap string tensor) :=
  (let '(R0, tau_e, tau_i, rho) := params in
   s <- getitem state "S" ;;
   i <- getitem state "I" ;;
   S2E <- sample draw (format "S2E_" t)
            (infection_dist (RDiv R0 tau_i) s i (population self) None)
            None ;;
   e <- getitem state "E" ;;
   E2I <- sample draw (format "E2I_" t)
            (Binomial e (RDiv (RInt 1) tau_e)) None ;;
   i <- getitem state "I" ;;
   I2R <- sample draw (format "I2R_" t)
            (Binomial i (RDiv (RInt 1) tau_i)) None ;;
   s <- getitem state "S" ;;
   let state := <["S" := sub s S2E]> state in
   e <- getitem state "E" ;;
   let state := <["E" := sub (add e S2E) E2I]> state in
   i <- getitem state "I" ;;
   let state := <["I" := sub (add i E2I) I2R]> state in
   obs <- (if bool_decide (t < duration self)%nat
           then match data self !! t with
                | Some d => ret (Some d)
                | None => raise IndexError
                end
           else ret None) ;;
   sample draw (format "obs_" t) (ExtendedBinomial E2I rho) obs ;;;
   ret state)%py.

(** [transition_bwd] recomputes the flows from two states and conditions
    the flow sites on them. *)
Definition transition_bwd (draw : string → dist → tensor) (self : model)
    (params : real * real * real * real)
    (prev curr : gmap string tensor) (t : nat) : M (list site) unit :=
  (let '(R0, tau_e, tau_i, rho) := params in
   ps <- getitem prev "S" ;;
   cs <- getitem curr "S" ;;
   let S2E := sub ps cs in
   pe <- getitem prev "E" ;;
   ce <- getitem curr "E" ;;
   let E2I := add (sub pe ce) S2E in
   pi <- getitem prev "I" ;;
   ci <- getitem curr "I" ;;
   let I2R := add (sub pi ci) E2I in
   ps <- getitem prev "S" ;;
   pi <- getitem prev "I" ;;
   sample draw (format "S2E_" t)
     (infection_dist (RDiv R0 tau_i) ps pi (population self) None)
     (Some S2E) ;;;
   pe <- getitem prev "E" ;;
   sample draw (format "E2I_" t)
     (ExtendedBinomial pe (RDiv (RInt 1) tau_e)) (Some E2I) ;;;
   pi <- getitem prev "I" ;;
   sample draw (format "I2R_" t)
     (ExtendedBinomial pi (RDiv (RInt 1) tau_i)) (Some I2R) ;;;
   obs <- match data self !! t with
          | Some d => ret d
          | None => raise IndexError
          end ;;
   sample draw (format "obs_" t) (ExtendedBinomial E2I rho) (Some obs) ;;;
   ret tt)%py.

End SimpleSEIRModel.

Module OverdispersedSEIRModel.

(** [__init__], the same statements as in [SimpleSEIRModel]. *)
Definition init (base_valid : list string → nat → Z → bool)
    (population : Z) (incubation_time recovery_time : pyobj)
    (data : list tensor) : M unit model :=
  (let compartments := ["S"; "E"; "I"] in
   let duration := length data in
   base <- CompartmentalModel_init base_valid compartments duration
             population ;;
   let '(c, d, p) := base in
   assert (isinstance_float incubation_time) ;;;
   assert (gt_one incubation_time) ;;;
   assert (isinstance_float recovery_time) ;;;
   assert (gt_one recovery_time) ;;;
   ret (Model c d p incubation_time recovery_time data))%py.

Definition initialize (self : model) : gmap string Z :=
  {[ "S" := population self - 1; "E" := 0; "I" := 1 ]}.

(** As above; the flows are sampled in the order [E2I], [I2R], [S2E], and
    the infection distribution takes [R0] and the concentration [k]. *)
Definition transition_fwd (draw : string → dist → tensor) (self : model)
    (params : real * real * real * real * real)
    (state : gmap string tensor) (t : nat)
  : M (list site) (gmap string tensor) :=
  (let '(R0, k, tau_e, tau_i, rho) := params in
   e <- getitem state "E" ;;
   E2I <- sample draw (format "E2I_" t)
            (Binomial e (RDiv (RInt 1) tau_e)) None ;;
   i <- getitem state "I" ;;
   I2R <- sample draw (format "I2R_" t)
            (Binomial i (RDiv (RInt 1) tau_i)) None ;;
   s <- getitem state "S" ;;
   i <- getitem state "I" ;;
   S2E <- sample draw (format "S2E_" t)
            (infection_dist R0 s i (population self) (Some k)) None ;;
   s <- getitem state "S" ;;
   let state := <["S" := sub s S2E]> state in
   e <- getitem state "E" ;;
   let state := <["E" := sub (add e S2E) E2I]> state in
   i <- getitem state "I" ;;
   let state := <["I" := sub (add i E2I) I2R]> state in
   obs <- (if bool_decide (t < duration self)%nat
           then match data self !! t with
                | Some d => ret (Some d)
                | None => raise IndexError
                end
           else ret None) ;;
   sample draw (format "obs_" t) (ExtendedBinomial E2I rho) obs ;;;
   ret state)%py.

Definition transition_bwd (draw : string → dist → tensor) (self : model)
    (params : real * real * real * real * real)
    (prev curr : gmap string tensor) (t : nat) : M (list site) unit :=
  (let '(R0, k, tau_e, tau_i, rho) := params in
   ps <- getitem prev "S" ;;
   cs <- getitem curr "S" ;;
   let S2E := sub ps cs in
   pe <- getitem prev "E" ;;
   ce <- getitem curr "E" ;;
   let E2I := add (sub pe ce) S2E in
   pi <- getitem prev "I" ;;
   ci <- getitem curr "I" ;;
   let I2R := add (sub pi ci) E2I in
   ps <- getitem prev "S" ;;
   pi <- getitem prev "I" ;;
   sample draw (format "S2E_" t)
     (infection_dist R0 ps pi (population self) (Some k)) (Some S2E) ;;;
   pe <- getitem prev "E" ;;
   sample draw (format "E2I_" t)
     (ExtendedBinomial pe (RDiv (RInt 1) tau_e)) (Some E2I) ;;;
   pi <- getitem prev "I" ;;
   sample draw (format "I2R_" t)
     (ExtendedBinomial pi (RDiv (RInt 1) tau_i)) (Some I2R) ;;;
   obs <- match data self !! t with
          | Some d => ret d
          | None => raise IndexError
          end ;;
   sample draw (format "obs_" t) (ExtendedBinomial E2I rho) (Some obs) ;;;
   ret tt)%py.

End OverdispersedSEIRModel.

(** *** Runs of several steps *)

(** The state holds the three explicit compartments. *)
Definition has_compartments (state : gmap string tensor) : Prop :=
  is_Some (state !! "S") ∧ is_Some (state !! "E") ∧ is_Some (state !! "I").

(** [f 0 + ... + f (n - 1)] *)
Fixpoint sum_to (f : nat → Z) (n : nat) : Z :=
  match n with
  | O => 0
  | S n' => sum_to f n' + f n'
  end.

(** The numbers that step [t] of a run handles, when the run starts from
    the compartments [s], [e], [i] and step [u] has the flows [S2E u],
    [E2I u], [I2R u]. *)
Definition run_values (s e i : Z) (S2E E2I I2R : nat → Z) (t : nat)
  : list Z :=
  fwd_values (s - sum_to S2E t) (e + sum_to S2E t - sum_to E2I t)
    (i + sum_to E2I t - sum_to I2R t) (S2E t) (E2I t) (I2R t).

(** The sample statements of one step, with the observation of each. *)
Definition step_observations (order : list string) (t : nat)
    (obs : option tensor) : list (string * option tensor) :=
  ((λ flow, (format flow t, None)) <$> order) ++ [(format "obs_" t, obs)].

(** *** A concrete run, used to exercise the definitions *)

Module Example.

(** Binary64 [2.0] and [5.0]. *)
Definition two : spec_float := S754_finite false 4503599627370496 (-51).
Definition five : spec_float := S754_finite false 5629499534213120 (-50).

Definition base_valid (c : list string) (d : nat) (p : Z) : bool :=
  bool_decide (1 ≤ d)%nat && bool_decide (2 ≤ p).

Definition self : model :=
  Model ["S"; "E"; "I"] 3 100 (PyFloat five) (PyFloat two)
    (as_tensor <$> [4; 7; 9]).

Definition draw (name : string) (fn : dist) : tensor :=
  if String.eqb name "S2E_0" then as_tensor 6
  else if String.eqb name "E2I_0" then as_tensor 0
  else if String.eqb name "I2R_0" then as_tensor 1
  else as_tensor 0.

(** The initial state, as it meets the tensors of the first step. *)
Definition state0 : gmap string tensor :=
  as_tensor <$> SimpleSEIRModel.initialize self.

(** The state after the flows [6], [0], [1] have been applied. *)
Definition state1 : gmap string tensor :=
  as_tensor <$> ({[ "S" := 93; "E" := 6; "I" := 0 ]} : gmap string Z).

(** A population above [2 ^ 25], and one new exposure on the first day. *)
Definition large : model :=
  Model ["S"; "E"; "I"] 3 33554433 (PyFloat five) (PyFloat two)
    (as_tensor <$> [4; 7; 9]).

Definition large_state0 : gmap string tensor :=
  as_tensor <$> SimpleSEIRModel.initialize large.

Definition large_draw (name : string) (fn : dist) : tensor :=
  if String.eqb name "S2E_0" then as_tensor 1 else as_tensor 0.

Definition simple_params : real * real * real * real :=
  (RParam "R0", RParam "tau_e", RParam "tau_i", RParam "rho").

Definition overdispersed_params : real * real * real * real * real :=
  (RParam "R0", RParam "k", RParam "tau_e", RParam "tau_i", RParam "rho").

End Example.

End Seir.

(** ** [pyro/contrib/funsor/infer/trace_elbo.py] *)

Module TraceElbo.

(** *** The funsor library and the effect handlers

    [trace_elbo.py] is written against the [funsor] tensor-algebra library
    and the effect handlers of [pyro.contrib.funsor.handlers].  Neither is
    part of the sources: their entry points are the fields of [Library], and
    everything below holds for every implementation of the interface. *)

(** The domain of a funsor input: [Bint[size]] or [Reals[shape]]. *)
Inductive Domain : Type :=
| Bint (size : nat)
| Reals (shape : list nat).

#[global] Instance Domain_eq_dec : EqDecision Domain.
Proof. solve_decision. Defined.

#[global] Instance Domain_countable : Countable Domain.
Proof.
  refine (inj_countable'
            (λ d, match d with Bint n => inl n | Reals s => inr s end)
            (λ x, match x with inl n => Bint n | inr s => Reals s end) _).
  by intros [].
Defined.

(** [funsor.Real] *)
Definition Real : Domain := Reals [].

(** The members of [funsor.ops] the code names. *)
Inductive op : Type := logaddexp | add | mul | neg | mean.

(** The interpretations under which terms are built. *)
Inductive interpretation : Type := eager | lazy | normalize | optimize_base.

(** The handlers that [differentiable_loss] installs. *)
Inductive handler : Type :=
| enum (first_available_dim : option Z)
| provenance
| plate (name : string) (size : Z) (dim : pyobj).

Class Library : Type := {
  Funsor : Type;
  Funsor_eq_dec :: EqDecision Funsor;
  Funsor_countable :: Countable Funsor;
  (** [torch] tensors, the data that [to_data] produces *)
  Tensor : Type;
  (** the recording of an [AdjointTape] *)
  Tape : Type;
  (** [f.inputs]: an ordered dictionary from names to domains *)
  inputs : Funsor → list (string * Domain);
  (** [to_funsor(x, output=...)] and [to_data(f)] *)
  to_funsor : pyobj → option Domain → Funsor;
  to_data : Funsor → Tensor;
  (** [torch.tensor(x)], [funsor.Tensor(t)], [float(t)] and [-t] *)
  torch_tensor : pyobj → Tensor;
  funsor_Tensor : Tensor → Funsor;
  float : Tensor → spec_float;
  tensor_neg : Tensor → Tensor;
  (** [a * b] and [a + b], [-a], [a.reduce(op, vars)], [Integrate],
      [Constant], built under the interpretation that is active *)
  Binary : interpretation → op → Funsor → Funsor → Funsor;
  Unary : interpretation → op → Funsor → Funsor;
  reduce : interpretation → op → Funsor → option (gset string) → Funsor;
  Integrate : interpretation → Funsor → Funsor → gset string → Funsor;
  Constant : interpretation → list (string * Domain) → Funsor → Funsor;
  (** [funsor.interpreter.reinterpret(x)] under an interpretation *)
  reinterpret : interpretation → Funsor → Funsor;
  (** [funsor.sum_product.partial_sum_product(sum_op, prod_op, factors,
      plates=..., eliminate=...)] *)
  partial_sum_product :
    interpretation → op → op → list Funsor → gset string → gset string →
    list Funsor;
  (** [with AdjointTape() as tape: r = funsor.sum_product.sum_product(...)]:
      the result and what the tape has recorded *)
  sum_product_on_tape :
    op → op → list Funsor → gset string → gset string → Funsor * Tape;
  (** [tape.adjoint(sum_op, prod_op, root, targets)]: a dictionary from
      targets to their adjoints *)
  adjoint : Tape → op → op → Funsor → list Funsor → gmap Funsor Funsor
}.

(** The contract of [tape.adjoint]: the dictionary it returns has exactly
    one entry for each of the targets it is given. *)
Definition adjoint_has_targets `{Library} : Prop :=
  ∀ tape sum_op prod_op root targets,
    dom (adjoint tape sum_op prod_op root targets) = list_to_set targets.

(** [f.inputs] as a set of names, and [f.input_vars]. *)
Definition input_names `{Library} (f : Funsor) : gset string :=
  list_to_set (inputs f).*1.

Definition input_vars `{Library} (f : Funsor) : gset (string * Domain) :=
  list_to_set (inputs f).

Section trace.
Context `{Library}.

(** A frame of [cond_indep_stack]. *)
Record frame : Type := Frame {
  frame_name : string;
  vectorized : bool
}.

(** A node of an execution trace.  [node_funsor] is the entry ["funsor"],
    which only the funsor handlers add; [replay_active] and
    [replay_skipped] are read with [.get(key, False)].  [node_value] is
    read at ["markov_chain"] nodes, where it is a set of steps, each a
    tuple of site names. *)
Record node : Type := Node {
  node_type : string;
  node_name : string;
  node_fn_type : string;
  node_infer : gmap string pyobj;
  cond_indep_stack : list frame;
  node_funsor : option (gmap string Funsor);
  replay_active : option bool;
  replay_skipped : option bool;
  is_observed : bool;
  node_value : list (list string)
}.

(** [node["funsor"] = fd] *)
Definition set_node_funsor (fd : gmap string Funsor) (n : node) : node :=
  Node (node_type n) (node_name n) (node_fn_type n) (node_infer n)
    (cond_indep_stack n) (Some fd) (replay_active n) (replay_skipped n)
    (is_observed n) (node_value n).

(** [tr.nodes]: an ordered dictionary from site names to nodes. *)
Notation Trace := (list (string * node)).

(** [tr.nodes[name]] *)
Fixpoint nodes_getitem (tr : Trace) (name : string) : result node :=
  match tr with
  | [] => Raise (KeyError name)
  | (k, n) :: tr' => if decide (k = name) then Ok n
                     else nodes_getitem tr' name
  end.

(** Programs (models and guides), their arguments, and the state of the
    world a run reads and changes (random number generator, parameter
    store); [trace(fn).get_trace(...)] under a stack of handlers, which
    raises what the program raises, and [replay(fn, trace=tr)]. *)
Class Handlers : Type := {
  Program : Type;
  Args : Type;
  World : Type;
  get_trace : list handler → Program → Args → M World Trace;
  replay : Program → Trace → Program
}.

(** The dictionary [terms] of [terms_from_trace]. *)
Record terms : Type := Terms {
  log_factors : list Funsor;
  log_measures : list Funsor;
  scale : Funsor;
  plate_vars : gset string;
  measure_vars : gset string;
  plate_to_step : gmap string (list (list string))
}.

Definition set_log_factors (v : list Funsor) (t : terms) : terms :=
  Terms v (log_measures t) (scale t) (plate_vars t) (measure_vars t)
    (plate_to_step t).
Definition set_log_measures (v : list Funsor) (t : terms) : terms :=
  Terms (log_factors t) v (scale t) (plate_vars t) (measure_vars t)
    (plate_to_step t).
Definition set_scale (v : Funsor) (t : terms) : terms :=
  Terms (log_factors t) (log_measures t) v (plate_vars t) (measure_vars t)
    (plate_to_step t).
Definition set_plate_vars (v : gset string) (t : terms) : terms :=
  Terms (log_factors t) (log_measures t) (scale t) v (measure_vars t)
    (plate_to_step t).
Definition set_measure_vars (v : gset string) (t : terms) : terms :=
  Terms (log_factors t) (log_measures t) (scale t) (plate_vars t) v
    (plate_to_step t).
Definition set_plate_to_step (v : gmap string (list (list string)))
    (t : terms) : terms :=
  Terms (log_factors t) (log_measures t) (scale t) (plate_vars t)
    (measure_vars t) v.

(** [apply_optimizer] *)
Definition apply_optimizer (x : Funsor) : Funsor :=
  let expr := reinterpret normalize x in
  reinterpret optimize_base expr.

(** [step[1:-1]] *)
Definition slice_1_m1 {A} (step : list A) : list A :=
  take (length step - 2) (drop 1 step).

(** [tr.nodes[var]["funsor"].get("log_measure", None) is not None] *)
Definition has_log_measure (var : string) : M Trace bool :=
  (tr <- get ;;
   match nodes_getitem tr var with
   | Raise e => raise e
   | Ok n =>
       match node_funsor n with
       | None => raise (KeyError "funsor")
       | Some fd => ret (bool_decide (is_Some (fd !! "log_measure")))
       end
   end)%py.

(** The set comprehension of lines 48 to 54. *)
Fixpoint vars_with_log_measure (vars : list string) : M Trace (gset string) :=
  match vars with
  | [] => ret ∅
  | var :: vars' =>
      (b <- has_log_measure var ;;
       rest <- vars_with_log_measure vars' ;;
       ret (if b then {[ var ]} ∪ rest else rest))%py
  end.

(** The body of [for step in node["value"]]. *)
Definition markov_step (t : terms) (step : list string) : M Trace terms :=
  (vs <- vars_with_log_measure (slice_1_m1 step) ;;
   ret (set_measure_vars (measure_vars t ∪ vs) t))%py.

(** The guard of line 55: the site is skipped. *)
Definition not_scored (n : node) : bool :=
  negb (String.eqb (node_type n) "sample")
  || String.eqb (node_fn_type n) "_Subsample"
  || truthy (default (PyBool false) (node_infer n !! "_do_not_score")).

(** The condition of lines 73 to 77, with its short-circuit evaluation. *)
Definition common_scale_cond (n : node) (fd : gmap string Funsor)
    (t : terms) : M Trace bool :=
  if default false (replay_active n) then
    (log_prob <- getitem fd "log_prob" ;;
     if bool_decide (input_names log_prob ∩ measure_vars t ≠ ∅) then
       (sc <- getitem fd "scale" ;;
        ret (negb (SFeqb (float (to_data sc)) float_one)))
     else ret false)%py
  else ret false.

(** Lines 66 to 71: the log-measure of the site [name] and its measure
    variables. *)
Definition grab_log_measure (name : string) (fd : gmap string Funsor)
    (t : terms) : M Trace terms :=
  match fd !! "log_measure" with
  | Some lm =>
      (let t := set_log_measures (log_measures t ++ [lm]) t in
       value <- getitem fd "value" ;;
       ret (set_measure_vars
              (measure_vars t ∪
               ((input_names value ∪ {[ name ]}) ∖ plate_vars t)) t))%py
  | None => ret t
  end.

(** Lines 73 to 83: the common scale, or else the scaled log-density,
    which is written back to the node at position [i]. *)
Definition grab_scale (i : nat) (name : string) (n : node)
    (fd : gmap string Funsor) (t : terms)
  : M Trace (terms * gmap string Funsor) :=
  (c <- common_scale_cond n fd t ;;
   if c then
     sc <- getitem fd "scale" ;;
     ret (set_scale sc t, fd)
   else
     log_prob <- getitem fd "log_prob" ;;
     sc <- getitem fd "scale" ;;
     let fd' := <["log_prob" := Binary eager mul log_prob sc]> fd in
     modify (λ tr : Trace, <[i := (name, set_node_funsor fd' n)]> tr) ;;;
     ret (t, fd'))%py.

(** Lines 85 and 86: the log-density. *)
Definition grab_log_density (n : node) (fd : gmap string Funsor)
    (t : terms) : M Trace terms :=
  if is_observed n || negb (default false (replay_skipped n)) then
    (log_prob <- getitem fd "log_prob" ;;
     ret (set_log_factors (log_factors t ++ [log_prob]) t))%py
  else ret t.

(** The body of the loop over [tr.nodes.items()], for the node at position
    [i] of the trace. *)
Definition visit (t : terms) (item : nat * (string * node)) : M Trace terms :=
  (let '(i, (name, n)) := item in
   t <- (if String.eqb (node_type n) "markov_chain" then
           let t := set_plate_to_step
                      (<[node_name n := node_value n]> (plate_to_step t)) t
           in
           for_each (node_value n) markov_step t
         else ret t) ;;
   if not_scored n then ret t
   else
     let t := set_plate_vars
                (plate_vars t ∪
                 list_to_set (frame_name <$> filter (λ f, vectorized f = true)
                                               (cond_indep_stack n))) t in
     fd <- match node_funsor n with
           | Some fd => ret fd
           | None => raise (KeyError "funsor")
           end ;;
     t <- grab_log_measure name fd t ;;
     r <- grab_scale i name n fd t ;;
     let '(t, fd) := r in
     grab_log_density n fd t)%py.

(** [terms_from_trace(tr)]; the trace is the store, which the function
    updates in place. *)
Definition terms_from_trace : M Trace terms :=
  (let terms := Terms [] [] (to_funsor (PyFloat float_one) None) ∅ ∅ ∅ in
   tr <- get ;;
   terms <- for_each (imap (λ i item, (i, item)) tr) visit terms ;;
   let update : gmap string (list (list string)) :=
     set_to_map (λ plate, (plate, default [] (plate_to_step terms !! plate)))
       (plate_vars terms) in
   ret (set_plate_to_step (update ∪ plate_to_step terms) terms))%py.

(** *** [Trace_ELBO] *)

(** [self.max_plate_nesting]: [None], [float("inf")] or an integer. *)
Inductive nesting : Type :=
| NestingNone
| NestingInf
| NestingInt (n : Z).

Record Trace_ELBO : Type := {
  max_plate_nesting : nesting;
  num_particles : Z
}.

Context `{!Handlers}.

(** The [with] statement of lines 97 to 106: [enum] and [provenance] are
    always entered, and the particle plate when [num_particles > 1]
    ([contextlib.ExitStack()] installs nothing). *)
Definition installed_handlers (self : Trace_ELBO) : M World (list handler) :=
  (let first_available_dim :=
     match max_plate_nesting self with
     | NestingInt n => Some (- n - 1)
     | _ => None
     end in
   last <- (if bool_decide (1 < num_particles self) then
              dim <- match max_plate_nesting self with
                     | NestingNone => raise TypeError
                     | NestingInf =>
                         ret (PyFloat (S754_infinity true))
                     | NestingInt n => ret (PyInt (- n))
                     end ;;
              ret [plate "num_particles_vectorized" (num_particles self) dim]
            else ret []) ;;
   ret ([enum first_available_dim; provenance] ++ last))%py.

(** Running a computation on a trace of its own: the nodes of a trace are
    objects of that trace alone, so that what [terms_from_trace] writes to
    the nodes of one trace is not seen through the other, and neither trace
    is read again afterwards. *)
Definition on_trace {A} (tr : Trace) (c : M Trace A) : M World A :=
  match c tr with
  | Ok (a, _) => ret a
  | Raise e => raise e
  end.

(** [targets[cost.input_vars]] for the dictionary [targets], kept in
    insertion order. *)
Fixpoint targets_lookup (targets : list (gset (string * Domain) * Funsor))
    (key : gset (string * Domain)) : option Funsor :=
  match targets with
  | [] => None
  | (k, target) :: targets' =>
      if decide (k = key) then Some target else targets_lookup targets' key
  end.

(** The placeholder of a cost: [Constant(cost.inputs,
    funsor.Tensor(torch.tensor(0.0)))]. *)
Definition placeholder (cost : Funsor) : Funsor :=
  Constant eager (inputs cost)
    (funsor_Tensor (torch_tensor (PyFloat (S754_zero false)))).

(** The body of the loop of lines 145 to 149. *)
Definition add_target (targets : list (gset (string * Domain) * Funsor))
    (cost : Funsor) : list (gset (string * Domain) * Funsor) :=
  if decide (input_vars cost ∈ targets.*1) then targets
  else targets ++ [(input_vars cost, placeholder cost)].

(** The dictionary [targets] of lines 144 to 149. *)
Definition targets_of (costs : list Funsor)
  : list (gset (string * Domain) * Funsor) :=
  fold_left add_target costs [].

(** The local variables of [differentiable_loss], in the order in which
    they are assigned. *)
Record locals : Type := Locals {
  l_guide_tr : Trace;
  l_model_tr : Trace;
  l_model_terms : terms;
  l_guide_terms : terms;
  l_plate_vars : gset string;
  l_model_measure_vars : gset string;
  l_contracted_factors : list Funsor;
  l_uncontracted_factors : list Funsor;
  l_contracted_costs : list Funsor;
  l_costs : list Funsor;
  l_targets : list (gset (string * Domain) * Funsor);
  l_logzq : Funsor;
  l_tape : Tape;
  l_log_measures : gmap Funsor Funsor;
  l_elbo : Funsor
}.

(** The body of the loop of lines 164 to 177. *)
Definition add_elbo_term (targets : list (gset (string * Domain) * Funsor))
    (log_measures : gmap Funsor Funsor) (plate_vars : gset string)
    (elbo : Funsor) (cost : Funsor) : M World Funsor :=
  (target <- match targets_lookup targets (input_vars cost) with
             | Some target => ret target
             | None => raise (KeyError "input_vars")
             end ;;
   log_measure <- match log_measures !! target with
                  | Some log_measure => ret log_measure
                  | None => raise (KeyError "target")
                  end ;;
   let measure_vars :=
     (input_names cost ∖ plate_vars) ∖ {[ "num_particles_vectorized" ]} in
   let elbo_term := Integrate lazy log_measure cost measure_vars in
   ret (Binary lazy add elbo
          (reduce lazy add elbo_term
             (Some (plate_vars ∩ input_names cost)))))%py.

(** [differentiable_loss] up to its [return], with every local variable
    kept. *)
Definition differentiable_loss_locals (self : Trace_ELBO)
    (model guide : Program) (args : Args) : M World locals :=
  (hs <- installed_handlers self ;;
   guide_tr <- get_trace hs guide args ;;
   model_tr <- get_trace hs (replay model guide_tr) args ;;
   model_terms <- on_trace model_tr terms_from_trace ;;
   guide_terms <- on_trace guide_tr terms_from_trace ;;
   let plate_vars :=
     (plate_vars guide_terms ∪ plate_vars model_terms)
     ∖ {[ "num_particles_vectorized" ]} in
   let model_measure_vars :=
     measure_vars model_terms ∖ measure_vars guide_terms in
   let '(contracted_factors, uncontracted_factors) :=
     fold_left
       (λ '(contracted, uncontracted) f,
          if bool_decide (model_measure_vars ∩ input_names f ≠ ∅)
          then (contracted ++ [f], uncontracted)
          else (contracted, uncontracted ++ [f]))
       (log_factors model_terms) ([], []) in
   let contracted_costs :=
     Binary lazy mul (scale model_terms) <$>
       partial_sum_product lazy logaddexp add
         (log_measures model_terms ++ contracted_factors)
         plate_vars model_measure_vars in
   let costs := contracted_costs ++ uncontracted_factors in
   let costs := costs ++ (Unary eager neg <$> log_factors guide_terms) in
   let targets := targets_of costs in
   let '(logzq, tape) :=
     sum_product_on_tape logaddexp add
       (log_measures guide_terms ++ targets.*2)
       plate_vars (plate_vars ∪ measure_vars guide_terms) in
   let log_measures := adjoint tape logaddexp add logzq targets.*2 in
   let elbo := to_funsor (PyInt 0) (Some Real) in
   elbo <- for_each costs (add_elbo_term targets log_measures plate_vars)
             elbo ;;
   let elbo := reduce lazy mean elbo None in
   ret (Locals guide_tr model_tr model_terms guide_terms plate_vars
          model_measure_vars contracted_factors uncontracted_factors
          contracted_costs costs targets logzq tape log_measures elbo))%py.

(** The test of line 122: the factor has a model-only measure variable
    among its inputs. *)
Definition contracted (model_measure_vars : gset string) (f : Funsor)
  : Prop :=
  model_measure_vars ∩ input_names f ≠ ∅.

(** The log-measure that the loop of lines 164 to 177 pairs with a
    cost. *)
Definition paired_log_measure (l : locals) (cost : Funsor)
  : option Funsor :=
  target ← targets_lookup (l_targets l) (input_vars cost);
  l_log_measures l !! target.

(** The term that a cost, with its log-measure, adds to the ELBO. *)
Definition elbo_term (plate_vars : gset string)
    (cost log_measure : Funsor) : Funsor :=
  reduce lazy add
    (Integrate lazy log_measure cost
       ((input_names cost ∖ plate_vars)
        ∖ {[ "num_particles_vectorized" ]}))
    (Some (plate_vars ∩ input_names cost)).

(** The sum of the ELBO terms of the costs, each with its log-measure,
    from the left. *)
Definition elbo_sum (plate_vars : gset string)
    (terms : list (Funsor * Funsor)) : Funsor :=
  fold_left
    (λ elbo '(cost, log_measure),
       Binary lazy add elbo (elbo_term plate_vars cost log_measure))
    terms (to_funsor (PyInt 0) (Some Real)).

(** [Trace_ELBO.differentiable_loss] *)
Definition differentiable_loss (self : Trace_ELBO) (model guide : Program)
    (args : Args) : M World Tensor :=
  (l <- differentiable_loss_locals self model guide args ;;
   ret (tensor_neg (to_data (apply_optimizer (l_elbo l)))))%py.

(** *** Vocabulary of the specification *)

(** The site carries a log-measure funsor. *)
Definition site_log_measure (n : node) : option Funsor :=
  fd ← node_funsor n; fd !! "log_measure".

(** The names of the vectorized plates a site is in. *)
Definition site_plates (n : node) : gset string :=
  list_to_set (frame_name <$> filter (λ f, vectorized f = true)
                                (cond_indep_stack n)).

(** The site is observed or not replay-skipped. *)
Definition observed_or_replayed (n : node) : bool :=
  is_observed n || negb (default false (replay_skipped n)).

(** The log-measure a site contributes, if any. *)
Definition log_measure_of (item : string * node) : option Funsor :=
  if not_scored item.2 then None else site_log_measure item.2.

(** The site contributes a log-density. *)
Definition has_log_factor (item : string * node) : bool :=
  negb (not_scored item.2) && observed_or_replayed item.2.

(** [f] is the log-density of the site, as it is or scaled. *)
Definition log_factor_of (item : string * node) (f : Funsor) : Prop :=
  ∃ fd log_prob,
    node_funsor item.2 = Some fd ∧ fd !! "log_prob" = Some log_prob
    ∧ (f = log_prob
       ∨ ∃ sc, fd !! "scale" = Some sc ∧ f = Binary eager mul log_prob sc).

(** The plates of the scored sites of a trace. *)
Definition plates_of (tr : Trace) : gset string :=
  ⋃ ((λ item : string * node,
        if not_scored item.2 then ∅ else site_plates item.2) <$> tr).

(** [var] names a site of [tr] that carries a log-measure. *)
Definition carries_log_measure (tr : Trace) (var : string) : Prop :=
  ∃ n, nodes_getitem tr var = Ok n ∧ is_Some (site_log_measure n).

(** The initial value of [terms]. *)
Definition terms0 : terms :=
  Terms [] [] (to_funsor (PyFloat float_one) None) ∅ ∅ ∅.

(** What a run over the steps of a markov chain leaves unchanged. *)
Definition same_but_measure_vars (t t' : terms) : Prop :=
  log_factors t' = log_factors t ∧ log_measures t' = log_measures t
  ∧ scale t' = scale t ∧ plate_vars t' = plate_vars t
  ∧ plate_to_step t' = plate_to_step t.

(** The measure variables a scored site adds: its fresh variables that
    are not among [plates]. *)
Definition fresh_vars (name : string) (fd : gmap string Funsor)
    (plates : gset string) : gset string :=
  match fd !! "log_measure", fd !! "value" with
  | Some _, Some value => (input_names value ∪ {[ name ]}) ∖ plates
  | _, _ => ∅
  end.

(** Two stores with the same keys in which the same sites carry the same
    log-measures. *)
Definition agree (tr tr' : Trace) : Prop :=
  Forall2 (λ a b : string * node,
             a.1 = b.1 ∧ site_log_measure a.2 = site_log_measure b.2
             ∧ (is_Some (node_funsor a.2) ↔ is_Some (node_funsor b.2)))
    tr tr'.

(** [item] is a markov chain. *)
Definition is_markov_chain (item : string * node) : Prop :=
  node_type item.2 = "markov_chain".

(** [v] is a previous-step variable of a markov chain among [items] and
    carries a log-measure in [tr]. *)
Definition markov_var (tr items : Trace) (v : string) : Prop :=
  ∃ item step,
    item ∈ items ∧ is_markov_chain item ∧ step ∈ node_value item.2
    ∧ v ∈ slice_1_m1 step ∧ carries_log_measure tr v.

(** [v] is a fresh variable of a scored site among [items] that carries a
    log-measure, and no plate of that site or of the scored sites before
    it. *)
Definition fresh_var (items : Trace) (v : string) : Prop :=
  ∃ pre name n post fd,
    items = pre ++ (name, n) :: post ∧ not_scored n = false
    ∧ node_funsor n = Some fd
    ∧ v ∈ fresh_vars name fd (plates_of (pre ++ [(name, n)])).

(** The entries [terms_from_trace] reads are there: the previous-step
    variables of the markov chains name sites with a ["funsor"] entry,
    and a scored site has the entries ["log_prob"] and ["scale"], and
    ["value"] if it has ["log_measure"]. *)
Definition well_formed (tr : Trace) : Prop :=
  (∀ item step var,
      item ∈ tr → is_markov_chain item → step ∈ node_value item.2 →
      var ∈ slice_1_m1 step →
      ∃ n, nodes_getitem tr var = Ok n ∧ is_Some (node_funsor n))
  ∧ (∀ item,
       item ∈ tr → not_scored item.2 = false →
       ∃ fd, node_funsor item.2 = Some fd
             ∧ is_Some (fd !! "log_prob") ∧ is_Some (fd !! "scale")
             ∧ (is_Some (fd !! "log_measure") → is_Some (fd !! "value"))).

(** Every run of the program [fn] returns, with a well-formed trace. *)
Definition runs_well (fn : Program) (args : Args) : Prop :=
  ∀ hs w, ∃ tr w', get_trace hs fn args w = Ok (tr, w') ∧ well_formed tr.

(** Conditions under which [differentiable_loss] returns: [tape.adjoint]
    keeps its contract, the particle plate has a dimension, and the guide
    and the replayed model run well. *)
Definition can_run (self : Trace_ELBO) (model guide : Program)
    (args : Args) : Prop :=
  adjoint_has_targets
  ∧ ¬ (1 < num_particles self ∧ max_plate_nesting self = NestingNone)
  ∧ runs_well guide args
  ∧ ∀ tr, runs_well (replay model tr) args.

(** The state of [terms] and of the store after the sites [items] of the
    trace [tr] have been visited. *)
Definition visited (tr items : Trace) (t : terms) (store : Trace) : Prop :=
  agree tr store
  ∧ log_measures t = omap log_measure_of items
  ∧ Forall2 (λ f item, log_factor_of item f) (log_factors t)
      (filter (λ item, has_log_factor item = true) items)
  ∧ plate_vars t = plates_of items
  ∧ (∀ k, k ∈ dom (plate_to_step t) ↔
          ∃ item, item ∈ items ∧ is_markov_chain item
                  ∧ node_name item.2 = k)
  ∧ (∀ v, v ∈ measure_vars t ↔ markov_var tr items v ∨ fresh_var items v)
  ∧ (scale t = scale terms0
     ∨ ∃ item fd, item ∈ items ∧ not_scored item.2 = false
                  ∧ node_funsor item.2 = Some fd
                  ∧ fd !! "scale" = Some (scale t)).

(** [n'] is the node [n] as [terms_from_trace] leaves it: the node itself,
    or the node with its entry ["log_prob"] multiplied by its entry
    ["scale"]. *)
Definition rescaled (n n' : node) : Prop :=
  n' = n
  ∨ ∃ fd log_prob sc,
      node_funsor n = Some fd ∧ fd !! "log_prob" = Some log_prob
      ∧ fd !! "scale" = Some sc
      ∧ n' = set_node_funsor
               (<["log_prob" := Binary eager mul log_prob sc]> fd) n.

(** The node of [item] holds [f] as its entry ["log_prob"]. *)
Definition holds_log_prob (item : string * node) (f : Funsor) : Prop :=
  ∃ fd, node_funsor item.2 = Some fd ∧ fd !! "log_prob" = Some f.

(** [f] is the log-density of the site multiplied by its scale. *)
Definition scaled_log_prob (item : string * node) (f : Funsor) : Prop :=
  ∃ fd log_prob sc,
    node_funsor item.2 = Some fd ∧ fd !! "log_prob" = Some log_prob
    ∧ fd !! "scale" = Some sc ∧ f = Binary eager mul log_prob sc.

(** *** The steps of [differentiable_loss]

    What the local variables [l] hold at the [return], step by step. *)

(** Lines 96 to 111: the handlers are installed, the guide is run, then
    the model replayed against the trace of the guide, and the terms of
    the two traces are extracted. *)
Definition traced (self : Trace_ELBO) (model guide : Program)
    (args : Args) (w w' : World) (l : locals) : Prop :=
  ∃ hs w1 tr1 tr2,
    installed_handlers self w = Ok (hs, w)
    ∧ get_trace hs guide args w = Ok (l_guide_tr l, w1)
    ∧ get_trace hs (replay model (l_guide_tr l)) args w1
      = Ok (l_model_tr l, w')
    ∧ terms_from_trace (l_model_tr l) = Ok (l_model_terms l, tr1)
    ∧ terms_from_trace (l_guide_tr l) = Ok (l_guide_terms l, tr2).

(** Lines 113 to 142: the costs are the contracted costs of the model, its
    uncontracted log-factors and the negated log-factors of the guide. *)
Definition costs_assembled (l : locals) : Prop :=
  l_plate_vars l
  = (plate_vars (l_guide_terms l) ∪ plate_vars (l_model_terms l))
    ∖ {[ "num_particles_vectorized" ]}
  ∧ l_model_measure_vars l
    = measure_vars (l_model_terms l) ∖ measure_vars (l_guide_terms l)
  ∧ l_contracted_factors l
    = filter (contracted (l_model_measure_vars l))
        (log_factors (l_model_terms l))
  ∧ l_uncontracted_factors l
    = filter (λ f, ¬ contracted (l_model_measure_vars l) f)
        (log_factors (l_model_terms l))
  ∧ l_contracted_costs l
    = (Binary lazy mul (scale (l_model_terms l)) <$>
         partial_sum_product lazy logaddexp add
           (log_measures (l_model_terms l) ++ l_contracted_factors l)
           (l_plate_vars l) (l_model_measure_vars l))
  ∧ l_costs l
    = (l_contracted_costs l ++ l_uncontracted_factors l)
      ++ (Unary eager neg <$> log_factors (l_guide_terms l)).

(** Lines 144 to 160: the placeholders of the costs, the log-normalizer of
    the guide and its adjoints. *)
Definition adjoints_taken (l : locals) : Prop :=
  l_targets l = targets_of (l_costs l)
  ∧ (l_logzq l, l_tape l)
    = sum_product_on_tape logaddexp add
        (log_measures (l_guide_terms l) ++ (l_targets l).*2)
        (l_plate_vars l)
        (l_plate_vars l ∪ measure_vars (l_guide_terms l))
  ∧ l_log_measures l
    = adjoint (l_tape l) logaddexp add (l_logzq l) (l_targets l).*2.

(** Lines 162 to 179: the ELBO is the mean of the sum of the terms of the
    costs, each with the log-measure it is paired with. *)
Definition elbo_assembled (l : locals) : Prop :=
  ∃ lms,
    Forall2 (λ cost lm, paired_log_measure l cost = Some lm)
      (l_costs l) lms
    ∧ l_elbo l
      = reduce lazy mean (elbo_sum (l_plate_vars l) (zip (l_costs l) lms))
          None.

End trace.

Notation Trace := (list (string * node)).

(** *** A symbolic implementation of the interface

    Funsors are rendered as text together with their inputs, so that the
    terms [differentiable_loss] builds can be read off.  Programs are given
    by the trace they produce, with or without a trace to replay; the world
    counts the runs. *)

Module Symbolic.

Definition render (x : pyobj) : string :=
  match x with
  | PyInt z => pretty z
  | PyBool b => if b then "True" else "False"
  | PyFloat f =>
      if SFeqb f float_one then "1.0"
      else if SFeqb f (S754_zero false) then "0.0" else "0.5"
  | PyStr s => s
  | PyNone => "None"
  end.

Definition op_name (o : op) : string :=
  match o with
  | logaddexp => "logaddexp" | add => "add" | mul => "mul"
  | neg => "neg" | mean => "mean"
  end.

Definition sym : Type := string * list (string * Domain).

Fixpoint join (l : list string) : string :=
  match l with
  | [] => ""
  | [x] => x
  | x :: l' => x +:+ ", " +:+ join l'
  end.

Definition names (l : list (string * Domain)) : gset string :=
  list_to_set l.*1.

(** The inputs of [a] followed by the inputs of [b] that [a] lacks. *)
Definition merge (a b : list (string * Domain)) : list (string * Domain) :=
  a ++ filter (λ kv, kv.1 ∉ names a) b.

Definition without (vars : gset string) (a : list (string * Domain))
  : list (string * Domain) :=
  filter (λ kv, kv.1 ∉ vars) a.

Definition call (fn : string) (args : list string) : string :=
  fn +:+ "(" +:+ join args +:+ ")".

Definition set_name (vars : gset string) : string :=
  "{" +:+ join (elements vars) +:+ "}".

Definition sym_adjoint (tape : string) (sum_op prod_op : op) (root : sym)
    (targets : list sym) : gmap sym sym :=
  list_to_map
    ((λ t : sym, (t, (call "adjoint" [tape; root.1; t.1], t.2)))
       <$> targets).

#[export] Instance library : Library := {|
  Funsor := sym;
  Tensor := string;
  Tape := string;
  inputs f := f.2;
  to_funsor x output := (render x, []);
  to_data f := f.1;
  torch_tensor x := render x;
  funsor_Tensor t := (t, []);
  float t := if String.eqb t "1.0" then float_one
             else S754_finite false 4503599627370496 (-53);
  tensor_neg t := "-" +:+ t;
  Binary _ o a b := (call (op_name o) [a.1; b.1], merge a.2 b.2);
  Unary _ o a := (call (op_name o) [a.1], a.2);
  reduce _ o a vars :=
    match vars with
    | Some vars => (call "reduce" [op_name o; a.1; set_name vars],
                    without vars a.2)
    | None => (call "reduce" [op_name o; a.1], [])
    end;
  Integrate _ log_measure integrand vars :=
    (call "Integrate" [log_measure.1; integrand.1; set_name vars],
     without vars (merge log_measure.2 integrand.2));
  Constant _ const_inputs arg :=
    (call "Constant" [set_name (names const_inputs); arg.1],
     merge const_inputs arg.2);
  reinterpret _ x := x;
  partial_sum_product _ sum_op prod_op factors plates eliminate :=
    match factors with
    | [] => []
    | _ => [(call "partial_sum_product"
               [op_name sum_op; op_name prod_op;
                "[" +:+ join factors.*1 +:+ "]";
                set_name plates; set_name eliminate],
             without eliminate (foldr merge [] factors.*2))]
    end;
  sum_product_on_tape sum_op prod_op factors plates eliminate :=
    ((call "sum_product"
        [op_name sum_op; op_name prod_op;
         "[" +:+ join factors.*1 +:+ "]";
         set_name plates; set_name eliminate],
      without eliminate (foldr merge [] factors.*2)),
     "tape");
  adjoint := sym_adjoint
|}.

#[export] Instance handlers : Handlers := {|
  Program := option Trace → Trace;
  Args := unit;
  World := nat;
  get_trace hs fn args w := Ok (fn None, S w);
  replay fn tr := λ _, fn (Some tr)
|}.

(** The outcome of [terms_from_trace], with sets and dictionaries listed:
    log-factors, log-measures, scale, plate variables, measure variables
    and the entries of [plate_to_step]. *)
Definition summary (r : result (terms * Trace))
  : option (list sym * list sym * sym * list string * list string
            * list (string * list (list string))) :=
  match r with
  | Ok (t, _) =>
      Some (log_factors t, log_measures t, scale t,
            elements (plate_vars t), elements (measure_vars t),
            map_to_list (plate_to_step t))
  | Raise _ => None
  end.

(** **** Example traces

    A guide with one continuous latent site [z]; a model that replays
    [z], enumerates a discrete site [x] of its own, and observes [y] in a
    vectorized plate [data]. *)

Definition leaf (name : string) (ins : list (string * Domain)) : sym :=
  (name, ins).

Definition sample_node (name : string) (stack : list frame)
    (fd : gmap string sym) (active skipped : option bool) (observed : bool)
  : string * node :=
  (name, Node "sample" name "Normal" ∅ stack (Some fd) active skipped
           observed []).

Definition guide_trace : Trace :=
  [ sample_node "z" []
      {[ "log_measure" := leaf "q_measure(z)" [("z", Real)];
         "value" := leaf "value(z)" [];
         "log_prob" := leaf "logq(z)" [];
         "scale" := leaf "1.0" [] ]}
      None None false ].

Definition model_trace : Trace :=
  [ sample_node "z" []
      {[ "value" := leaf "value(z)" [];
         "log_prob" := leaf "logp(z)" [];
         "scale" := leaf "1.0" [] ]}
      (Some true) (Some false) false;
    sample_node "x" []
      {[ "log_measure" := leaf "p_measure(x)" [("x", Bint 2)];
         "value" := leaf "value(x)" [("x", Bint 2)];
         "log_prob" := leaf "logp(x)" [("x", Bint 2)];
         "scale" := leaf "1.0" [] ]}
      (Some true) (Some true) false;
    sample_node "y" [Frame "data" true]
      {[ "value" := leaf "value(y)" [("data", Bint 3)];
         "log_prob" := leaf "logp(y)" [("x", Bint 2); ("data", Bint 3)];
         "scale" := leaf "1.0" [] ]}
      (Some true) (Some true) true ].

Definition guide : Program := λ _, guide_trace.
Definition model : Program := λ _, model_trace.

(** An estimator with one particle. *)
Definition elbo : Trace_ELBO :=
  {| max_plate_nesting := NestingInt 1; num_particles := 1 |}.

(** The loss of [model] and [guide], as [differentiable_loss] assembles
    it. *)
Definition example_logzq : string :=
  "sum_product(logaddexp, add, " +:+
  "[q_measure(z), Constant({data}, 0.0), Constant({}, 0.0)], " +:+
  "{data}, {z, data})".

Definition example_adjoint (target : string) : string :=
  "adjoint(tape, " +:+ example_logzq +:+ ", " +:+ target +:+ ")".

Definition example_term (log_measure cost vars plates : string) : string :=
  "reduce(add, Integrate(" +:+ log_measure +:+ ", " +:+ cost +:+ ", "
  +:+ vars +:+ "), " +:+ plates +:+ ")".

Definition example_loss : string :=
  "-reduce(mean, add(add(add(0, " +:+
  example_term (example_adjoint "Constant({data}, 0.0)")
    ("mul(1.0, partial_sum_product(logaddexp, add, " +:+
     "[p_measure(x), mul(logp(y), 1.0)], {data}, {x}))")
    "{}" "{data}" +:+ "), " +:+
  example_term (example_adjoint "Constant({}, 0.0)")
    "mul(logp(z), 1.0)" "{}" "{}" +:+ "), " +:+
  example_term (example_adjoint "Constant({}, 0.0)")
    "neg(mul(logq(z), 1.0))" "{}" "{}" +:+ "))".

(** A trace with a vectorized markov chain [time] over the sites
    [x_0], [x_prev], [x_curr], where the previous-step site [x_prev] is
    marked [_do_not_score], and a parameter site. *)
Definition auxiliary_node (name : string) (stack : list frame)
    (fd : gmap string sym) : string * node :=
  (name, Node "sample" name "Categorical" {[ "_do_not_score" := PyBool true ]}
           stack (Some fd) (Some true) (Some true) false []).

Definition markov_node (name : string) (steps : list (list string))
  : string * node :=
  (name, Node "markov_chain" name "" ∅ [] None None None false steps).

Definition markov_trace : Trace :=
  [ (("theta", Node "param" "theta" "" ∅ [] None None None false []));
    sample_node "x_0" [Frame "time" true]
      {[ "log_measure" := leaf "p_measure(x_0)" [("x_0", Bint 2)];
         "value" := leaf "value(x_0)" [("x_0", Bint 2)];
         "log_prob" := leaf "logp(x_0)" [("x_0", Bint 2)];
         "scale" := leaf "1.0" [] ]}
      (Some true) (Some true) false;
    auxiliary_node "x_prev" [Frame "time" true; Frame "tones" true]
      {[ "log_measure" := leaf "p_measure(x_prev)" [("x_prev", Bint 2)];
         "value" := leaf "value(x_prev)" [("x_prev", Bint 2)] ]};
    sample_node "x_curr" [Frame "time" true]
      {[ "log_measure" := leaf "p_measure(x_curr)" [("x_curr", Bint 2)];
         "value" := leaf "value(x_curr)" [("x_curr", Bint 2)];
         "log_prob" := leaf "logp(x_curr)"
                         [("x_prev", Bint 2); ("x_curr", Bint 2)];
         "scale" := leaf "1.0" [] ]}
      (Some true) (Some true) false;
    markov_node "time" [["x_0"; "x_prev"; "x_curr"]] ].

(** A trace none of whose sites is scored: the auxiliary site [x_prev]
    and the markov chain [time]. *)
Definition skipped_trace : Trace :=
  [ auxiliary_node "x_prev" [Frame "time" true]
      {[ "log_measure" := leaf "p_measure(x_prev)" [("x_prev", Bint 2)];
         "value" := leaf "value(x_prev)" [("x_prev", Bint 2)] ]};
    markov_node "time" [["x_0"; "x_prev"; "x_curr"]] ].

(** A model without a latent site of its own: it replays [z] and
    observes [y]. *)
Definition plain_model_trace : Trace :=
  [ sample_node "z" []
      {[ "value" := leaf "value(z)" [];
         "log_prob" := leaf "logp(z)" [];
         "scale" := leaf "1.0" [] ]}
      (Some true) (Some false) false;
    sample_node "y" [Frame "data" true]
      {[ "value" := leaf "value(y)" [("data", Bint 3)];
         "log_prob" := leaf "logp(y)" [("data", Bint 3)];
         "scale" := leaf "1.0" [] ]}
      (Some true) (Some true) true ].

Definition plain_model : Program := λ _, plain_model_trace.

(** A trace with a parameter and nothing else. *)
Definition param_trace : Trace :=
  [ ("theta", Node "param" "theta" "" ∅ [] None None None false []) ].

(** A markov chain whose previous-step variable is no site of the
    trace. *)
Definition dangling_trace : Trace :=
  [ markov_node "time" [["x_0"; "x_prev"; "x_curr"]] ].

(** An estimator with two particles and no [max_plate_nesting]. *)
Definition elbo_without_nesting : Trace_ELBO :=
  {| max_plate_nesting := NestingNone; num_particles := 2 |}.

(** Two costs with the same input variables, in a different order. *)
Definition cost_xy : Funsor := leaf "f" [("x", Bint 2); ("y", Bint 3)].
Definition cost_yx : Funsor := leaf "g" [("y", Bint 3); ("x", Bint 2)].

End Symbolic.

End TraceElbo.

(** ** [examples/contrib/funsor/hmm.py] *)

Module Hmm.

(** *** Generative programs

    A model is a program that issues [pyro.sample] statements under the
    handlers that are active ([mask], [plate], [markov]).  Tensors are kept
    symbolic: what matters is which sample statement a value comes from and
    how distributions are indexed. *)

Inductive value : Type :=
| VInt (z : Z)
| VBool (b : bool)
| VArg (name : string)                       (* [args.hidden_dim], ... *)
| VData (name : string)                      (* [sequences], [lengths] *)
| VSite (name : string)                      (* what [pyro.sample] returned *)
| VParam (name : string)                     (* what [pyro.param] returned *)
| VPlate (name : string)                     (* the indices a plate yields *)
| VIndex (base : value) (idx : list value)   (* [base[i, j, ...]] *)
| VSlice (stop : value)                      (* [:stop] as an index *)
| VApp (fn : string) (args : list value).    (* any other tensor expression *)

Inductive dist : Type :=
| Categorical (probs : value)
| Bernoulli (probs : value)
| BernoulliLogits (logits : value)
| Dirichlet (concentration : value)
| Beta (concentration1 concentration0 : value)
| Expand (base : dist) (shape : list value)
| ExpandBy (base : dist) (shape : list value)
| ToEvent (base : dist) (n : nat).

(** A [pyro.sample] statement with the handlers it was issued under:
    the masks, the plates, and the history of the innermost [pyro.markov]
    loop, if any. *)
Record site : Type := Site {
  s_name : string;
  s_fn : dist;
  s_obs : option value;
  s_infer : list (string * pyobj);
  s_masks : list value;
  s_plates : list string;
  s_markov : option nat
}.

Record pstate : Type := PState {
  p_trace : list site;
  p_masks : list value;
  p_plates : list string;
  p_markov : option nat
}.

Definition pstate0 : pstate := PState [] [] [] None.

(** [pyro.sample(name, fn, obs=obs, infer=infer)] *)
Definition sample (name : string) (fn : dist) (obs : option value)
    (infer : list (string * pyobj)) : M pstate value :=
  (modify (λ st, PState (p_trace st ++
                         [Site name fn obs infer (p_masks st) (p_plates st)
                            (p_markov st)])
                   (p_masks st) (p_plates st) (p_markov st)) ;;;
   ret (match obs with Some v => v | None => VSite name end))%py.

(** [with handlers.mask(mask=m): body] *)
Definition with_mask {A} (m : value) (body : M pstate A) : M pstate A :=
  (st <- get ;;
   put (PState (p_trace st) (m :: p_masks st) (p_plates st) (p_markov st)) ;;;
   r <- body ;;
   modify (λ st', PState (p_trace st') (p_masks st) (p_plates st')
                    (p_markov st')) ;;;
   ret r)%py.

(** [with pyro.plate(name, ...): body] *)
Definition with_plate {A} (name : string) (body : M pstate A) : M pstate A :=
  (st <- get ;;
   put (PState (p_trace st) (p_masks st) (name :: p_plates st) (p_markov st))
   ;;;
   r <- body ;;
   modify (λ st', PState (p_trace st') (p_masks st') (p_plates st)
                    (p_markov st')) ;;;
   ret r)%py.

(** [for i in pyro.plate(name, size, subsample_size): body i], where
    [indices] is the subsample the plate has drawn. *)
Definition for_plate (name : string) (indices : list nat)
    (body : nat → M pstate unit) : M pstate unit :=
  for_each indices (λ _ i, with_plate name (body i)) tt.

(** [for t in pyro.markov(range(n), history=history): x = body t x] *)
Definition for_markov {A} (n : nat) (history : nat)
    (body : nat → A → M pstate A) (x : A) : M pstate A :=
  (st <- get ;;
   put (PState (p_trace st) (p_masks st) (p_plates st) (Some history)) ;;;
   r <- for_each (seq 0 n) (λ x t, body t x) x ;;
   modify (λ st', PState (p_trace st') (p_masks st') (p_plates st')
                    (p_markov st)) ;;;
   ret r)%py.

(** [pyro.param(name, init, constraint=...)] *)
Definition param (name : string) : M pstate value := ret (VParam name).

(** ["x_{}".format(t)] and ["x_{}_{}".format(i, t)] *)
Definition format (prefix : string) (t : nat) : string :=
  prefix +:+ pretty t.

Definition format2 (prefix : string) (i t : nat) : string :=
  prefix +:+ pretty i +:+ "_" +:+ pretty t.

(** [infer={"enumerate": "parallel"}] *)
Definition enumerate_parallel : list (string * pyobj) :=
  [("enumerate", PyStr "parallel")].

(** [lengths.max()], which raises on an empty tensor. *)
Definition tensor_max (l : list nat) : M pstate nat :=
  match l with
  | [] => raise RuntimeError
  | _ => ret (max_list l)
  end.

(** [lengths[batch]] *)
Definition take_batch (lengths : list nat) (batch : list nat)
  : M pstate (list nat) :=
  match mapM (λ i, lengths !! i) batch with
  | Some l => ret l
  | None => raise IndexError
  end.

(** The arguments of a model: the shape of [sequences], the tensor
    [lengths], the flags of [args], [include_prior], the subsample
    [batch] that the plate [sequences] draws, and whether the JIT is
    tracing ([torch._C._get_tracing_state()]). *)
Record inputs : Type := Inputs {
  num_sequences : nat;
  max_length : nat;
  data_dim : nat;
  lengths : list nat;
  jit : bool;
  raftery_parameterization : bool;
  include_prior : bool;
  batch : list nat;
  tracing : bool
}.

Definition sequences : value := VData "sequences".
Definition hidden_dim : value := VArg "hidden_dim".

(** [0.9 * torch.eye(n) + 0.1] *)
Definition sticky (n : value) : value :=
  VApp "add" [VApp "mul" [VApp "0.9" []; VApp "eye" [n]]; VApp "0.1" []].

(** [(t < lengths).unsqueeze(-1)] *)
Definition before_end (t : nat) : value :=
  VApp "unsqueeze" [VApp "lt" [VInt (Z.of_nat t); VData "lengths[batch]"];
                    VInt (-1)].

(** The two assertions that open [model_1] to [model_6]. *)
Definition check_lengths (a : inputs) : M pstate unit :=
  (assert (bool_decide (length (lengths a) = num_sequences a)) ;;;
   m <- tensor_max (lengths a) ;;
   assert (bool_decide (m ≤ max_length a)%nat))%py.

(** [range(max_length if args.jit else lengths.max())], after
    [lengths = lengths[batch]]. *)
Definition num_steps (a : inputs) : M pstate nat :=
  (ls <- take_batch (lengths a) (batch a) ;;
   if jit a then ret (max_length a) else tensor_max ls)%py.

Definition model_0 (a : inputs) : M pstate unit :=
  (assert (negb (tracing a)) ;;;
   ps <- with_mask (VBool (include_prior a))
           (probs_x <- sample "probs_x"
                         (ToEvent (Dirichlet (sticky hidden_dim)) 1) None [] ;;
            probs_y <- sample "probs_y"
                         (ToEvent
                            (Expand (Beta (VApp "0.1" []) (VApp "0.9" []))
                               [hidden_dim; VInt (Z.of_nat (data_dim a))]) 2)
                         None [] ;;
            ret (probs_x, probs_y)) ;;
   let '(probs_x, probs_y) := ps in
   for_plate "sequences" (batch a) (λ i,
     length <- match lengths a !! i with
               | Some n => ret n
               | None => raise IndexError
               end ;;
     let sequence :=
       VIndex sequences [VInt (Z.of_nat i);
                         VSlice (VInt (Z.of_nat length))] in
     x <- for_markov length 1 (λ t x,
            x <- sample (format2 "x_" i t)
                   (Categorical (VIndex probs_x [x])) None
                   enumerate_parallel ;;
            with_plate "tones"
              (sample (format2 "y_" i t)
                 (Bernoulli (VIndex probs_y [VApp "squeeze" [x; VInt (-1)]]))
                 (Some (VIndex sequence [VInt (Z.of_nat t)])) []) ;;;
            ret x) (VInt 0) ;;
     ret tt))%py.

Definition model_1 (a : inputs) : M pstate unit :=
  (check_lengths a ;;;
   ps <- with_mask (VBool (include_prior a))
           (probs_x <- sample "probs_x"
                         (ToEvent (Dirichlet (sticky hidden_dim)) 1) None [] ;;
            probs_y <- sample "probs_y"
                         (ToEvent
                            (Expand (Beta (VApp "0.1" []) (VApp "0.9" []))
                               [hidden_dim; VInt (Z.of_nat (data_dim a))]) 2)
                         None [] ;;
            ret (probs_x, probs_y)) ;;
   let '(probs_x, probs_y) := ps in
   with_plate "sequences"
     (let batch := VPlate "sequences" in
      n <- num_steps a ;;
      x <- for_markov n 1 (λ t x,
             with_mask (before_end t)
               (x <- sample (format "x_" t)
                       (Categorical (VIndex probs_x [x])) None
                       enumerate_parallel ;;
                with_plate "tones"
                  (sample (format "y_" t)
                     (Bernoulli
                        (VIndex probs_y [VApp "squeeze" [x; VInt (-1)]]))
                     (Some (VIndex sequences [batch; VInt (Z.of_nat t)]))
                     []) ;;;
                ret x)) (VInt 0) ;;
      ret tt))%py.

Definition model_2 (a : inputs) : M pstate unit :=
  (check_lengths a ;;;
   ps <- with_mask (VBool (include_prior a))
           (probs_x <- sample "probs_x"
                         (ToEvent (Dirichlet (sticky hidden_dim)) 1) None [] ;;
            probs_y <- sample "probs_y"
                         (ToEvent
                            (Expand (Beta (VApp "0.1" []) (VApp "0.9" []))
                               [hidden_dim; VInt 2;
                                VInt (Z.of_nat (data_dim a))]) 3)
                         None [] ;;
            ret (probs_x, probs_y)) ;;
   let '(probs_x, probs_y) := ps in
   with_plate "sequences"
     (let batch := VPlate "sequences" in
      n <- num_steps a ;;
      xy <- for_markov n 1 (λ t '(x, y),
              with_mask (before_end t)
                (x <- sample (format "x_" t)
                        (Categorical (VIndex probs_x [x])) None
                        enumerate_parallel ;;
                 y <- with_plate "tones"
                        (let tones := VPlate "tones" in
                         y <- sample (format "y_" t)
                                (Bernoulli (VIndex probs_y [x; y; tones]))
                                (Some (VIndex sequences
                                         [batch; VInt (Z.of_nat t)]))
                                [] ;;
                         ret (VApp "long" [y])) ;;
                 ret (x, y))) (VInt 0, VInt 0) ;;
      ret tt))%py.

(** [int(args.hidden_dim ** 0.5)] *)
Definition sqrt_hidden_dim : value :=
  VApp "int" [VApp "pow" [hidden_dim; VApp "0.5" []]].

Definition model_3 (a : inputs) : M pstate unit :=
  (check_lengths a ;;;
   let hidden_dim := sqrt_hidden_dim in
   ps <- with_mask (VBool (include_prior a))
           (probs_w <- sample "probs_w"
                         (ToEvent (Dirichlet (sticky hidden_dim)) 1) None [] ;;
            probs_x <- sample "probs_x"
                         (ToEvent (Dirichlet (sticky hidden_dim)) 1) None [] ;;
            probs_y <- sample "probs_y"
                         (ToEvent
                            (Expand (Beta (VApp "0.1" []) (VApp "0.9" []))
                               [hidden_dim; hidden_dim;
                                VInt (Z.of_nat (data_dim a))]) 3)
                         None [] ;;
            ret (probs_w, probs_x, probs_y)) ;;
   let '(probs_w, probs_x, probs_y) := ps in
   with_plate "sequences"
     (let batch := VPlate "sequences" in
      n <- num_steps a ;;
      wx <- for_markov n 1 (λ t '(w, x),
              with_mask (before_end t)
                (w <- sample (format "w_" t)
                        (Categorical (VIndex probs_w [w])) None
                        enumerate_parallel ;;
                 x <- sample (format "x_" t)
                        (Categorical (VIndex probs_x [x])) None
                        enumerate_parallel ;;
                 with_plate "tones"
                   (let tones := VPlate "tones" in
                    sample (format "y_" t)
                      (Bernoulli (VIndex probs_y [w; x; tones]))
                      (Some (VIndex sequences [batch; VInt (Z.of_nat t)]))
                      []) ;;;
                 ret (w, x))) (VInt 0, VInt 0) ;;
      ret tt))%py.

(** [Vindex(probs)[i, j, ...]] *)
Definition Vindex (base : value) (idx : list value) : value :=
  VIndex base idx.

(** [torch.tensor(0, dtype=torch.long)] and [torch.tensor(0)] *)
Definition tensor_zero : value := VApp "torch.tensor" [VInt 0].

Definition model_4 (a : inputs) : M pstate unit :=
  (check_lengths a ;;;
   let hidden_dim := sqrt_hidden_dim in
   ps <- with_mask (VBool (include_prior a))
           (probs_w <- sample "probs_w"
                         (ToEvent (Dirichlet (sticky hidden_dim)) 1) None [] ;;
            probs_x <- sample "probs_x"
                         (ToEvent
                            (ExpandBy (Dirichlet (sticky hidden_dim))
                               [hidden_dim]) 2) None [] ;;
            probs_y <- sample "probs_y"
                         (ToEvent
                            (Expand (Beta (VApp "0.1" []) (VApp "0.9" []))
                               [hidden_dim; hidden_dim;
                                VInt (Z.of_nat (data_dim a))]) 3)
                         None [] ;;
            ret (probs_w, probs_x, probs_y)) ;;
   let '(probs_w, probs_x, probs_y) := ps in
   with_plate "sequences"
     (let batch := VPlate "sequences" in
      n <- num_steps a ;;
      wx <- for_markov n 1 (λ t '(w, x),
              with_mask (before_end t)
                (w <- sample (format "w_" t)
                        (Categorical (VIndex probs_w [w])) None
                        enumerate_parallel ;;
                 x <- sample (format "x_" t)
                        (Categorical (Vindex probs_x [w; x])) None
                        enumerate_parallel ;;
                 with_plate "tones"
                   (let tones := VPlate "tones" in
                    sample (format "y_" t)
                      (Bernoulli (VIndex probs_y [w; x; tones]))
                      (Some (VIndex sequences [batch; VInt (Z.of_nat t)]))
                      []) ;;;
                 ret (w, x))) (tensor_zero, tensor_zero) ;;
      ret tt))%py.

(** [tones_generator(x, y)], and [pyro.module], which issues no sample
    statement. *)
Definition tones_generator (x y : value) : value :=
  VApp "tones_generator" [x; y].

Definition model_5 (a : inputs) : M pstate unit :=
  (check_lengths a ;;;
   probs_x <- with_mask (VBool (include_prior a))
                (sample "probs_x"
                   (ToEvent (Dirichlet (sticky hidden_dim)) 1) None []) ;;
   with_plate "sequences"
     (let batch := VPlate "sequences" in
      n <- num_steps a ;;
      xy <- for_markov n 1 (λ t '(x, y),
              with_mask (before_end t)
                (x <- sample (format "x_" t)
                        (Categorical (VIndex probs_x [x])) None
                        enumerate_parallel ;;
                 y <- with_plate (format "tones_" t)
                        (sample (format "y_" t)
                           (BernoulliLogits (tones_generator x y))
                           (Some (VIndex sequences
                                    [batch; VInt (Z.of_nat t)]))
                           []) ;;
                 ret (x, y)))
              (VInt 0, VApp "torch.zeros" [VInt (Z.of_nat (data_dim a))]) ;;
      ret tt))%py.

(** [range(lengths.max())], after [lengths = lengths[batch]]. *)
Definition num_steps_6 (a : inputs) : M pstate nat :=
  (ls <- take_batch (lengths a) (batch a) ;;
   tensor_max ls)%py.

(** [model_6], the second-order model.  Its loop always runs for
    [lengths.max()] steps. *)
Definition model_6 (a : inputs) : M pstate unit :=
  (check_lengths a ;;;
   probs_x <- (if negb (raftery_parameterization a) then
                 param "probs_x"
               else
                 probs_x1 <- param "probs_x1" ;;
                 probs_x2 <- param "probs_x2" ;;
                 mix_lambda <- param "mix_lambda" ;;
                 ret (VApp "add"
                        [VApp "mul" [mix_lambda; probs_x1];
                         VApp "mul"
                           [VApp "sub" [VApp "1.0" []; mix_lambda];
                            VApp "unsqueeze" [probs_x2; VInt (-2)]]])) ;;
   probs_y <- param "probs_y" ;;
   with_plate "sequences"
     (let batch := VPlate "sequences" in
      n <- num_steps_6 a ;;
      xs <- for_markov n 2 (λ t '(x_curr, x_prev),
              with_mask (before_end t)
                (let probs_x_t := Vindex probs_x [x_prev; x_curr] in
                 x <- sample (format "x_" t) (Categorical probs_x_t) None
                        enumerate_parallel ;;
                 let '(x_prev, x_curr) := (x_curr, x) in
                 with_plate "tones"
                   (let probs_y_t :=
                      VIndex probs_y [VApp "squeeze" [x_curr; VInt (-1)]] in
                    sample (format "y_" t) (Bernoulli probs_y_t)
                      (Some (VIndex sequences [batch; VInt (Z.of_nat t)]))
                      []) ;;;
                 ret (x_curr, x_prev)))
              (tensor_zero, tensor_zero) ;;
      ret tt))%py.

(** Modelled from the spec: [pyro.vectorized_markov(name=..., size=n,
    dim=...)], whose code is not among the sources, is iterated by a Python
    [for] statement.  Only the indices it yields are modelled, each with
    its rendering by ["{}".format]; what the handler records at the sites
    is left out. *)
Definition for_vectorized_markov (indices : list (string * value))
    (body : string * value → M pstate unit) : M pstate unit :=
  for_each indices (λ _ t, body t) tt.

(** [(t < lengths.unsqueeze(-1)).unsqueeze(-1)] *)
Definition before_end_vectorized (t : value) : value :=
  VApp "unsqueeze"
    [VApp "lt" [t; VApp "unsqueeze" [VData "lengths[batch]"; VInt (-1)]];
     VInt (-1)].

(** [model_7], where [vectorized_markov n] are the indices the handler
    yields for the size [n].  The body of the loop does not assign
    [x_prev]. *)
Definition model_7 (vectorized_markov : nat → list (string * value))
    (a : inputs) : M pstate unit :=
  (check_lengths a ;;;
   ps <- with_mask (VBool (include_prior a))
           (probs_x <- sample "probs_x"
                         (ToEvent (Dirichlet (sticky hidden_dim)) 1) None [] ;;
            probs_y <- sample "probs_y"
                         (ToEvent
                            (Expand (Beta (VApp "0.1" []) (VApp "0.9" []))
                               [hidden_dim; VInt (Z.of_nat (data_dim a))]) 2)
                         None [] ;;
            ret (probs_x, probs_y)) ;;
   let '(probs_x, probs_y) := ps in
   with_plate "sequences"
     (let batch := VPlate "sequences" in
      n <- num_steps a ;;
      let batch := VIndex batch [VApp "slice" []; VApp "None" []] in
      let x_prev := VInt 0 in
      for_vectorized_markov (vectorized_markov n) (λ '(name, t),
        with_mask (before_end_vectorized t)
          (x_curr <- sample ("x_" +:+ name)
                       (Categorical (VIndex probs_x [x_prev])) None
                       enumerate_parallel ;;
           with_plate "tones"
             (sample ("y_" +:+ name)
                (Bernoulli
                   (VIndex probs_y [VApp "squeeze" [x_curr; VInt (-1)]]))
                (Some (Vindex sequences [batch; t])) []) ;;;
           ret tt))))%py.

(** *** Vocabulary of the specification *)

(** The sites of a run. *)
Definition sites (m : M pstate unit) : option (list site) :=
  match m pstate0 with
  | Ok (_, st) => Some (p_trace st)
  | Raise _ => None
  end.

(** The value of the hidden state [x] before step [t]. *)
Definition previous (x : nat → string) (init : value) (t : nat) : value :=
  match t with
  | O => init
  | S t' => VSite (x t')
  end.

(** The hidden states of step [t], in the models with the chains [w] and
    [x]. *)
Definition current_states (t : nat) : list value :=
  [VSite (format "w_" t); VSite (format "x_" t)].

(** The probabilities of [fn], a [Categorical], are a table indexed by the
    previous hidden state [prev], and by nothing else but hidden states of
    the current step [t]. *)
Definition indexed_by_previous (fn : dist) (prev : value) (t : nat) : Prop :=
  ∃ probs idx,
    fn = Categorical (VIndex probs idx) ∧ prev ∈ idx
    ∧ ∀ v, v ∈ idx → v = prev ∨ v ∈ current_states t.

(** The tensor a value is read from. *)
Fixpoint root (v : value) : value :=
  match v with
  | VIndex base _ => root base
  | _ => v
  end.

(** Step [t] of a hidden Markov model with hidden states [x t] and
    emissions [y t]: the site [x t] is sampled inside a [pyro.markov] loop
    from a [Categorical] indexed by the previous hidden state, annotated
    for parallel enumeration, and the site [y t] is observed, with an
    observation read from [sequences]. *)
Definition hmm_step (tr : list site) (x y : nat → string) (init : value)
    (t : nat) : Prop :=
  ∃ sx sy,
    sx ∈ tr ∧ s_name sx = x t
    ∧ indexed_by_previous (s_fn sx) (previous x init t) t
    ∧ is_Some (s_markov sx)
    ∧ s_infer sx = enumerate_parallel
    ∧ s_obs sx = None
    ∧ sy ∈ tr ∧ s_name sy = y t
    ∧ ∃ obs, s_obs sy = Some obs ∧ root obs = sequences.

(** The number of steps of the markov loop of [model_1] to [model_5]. *)
Definition steps_of (a : inputs) : option nat :=
  ls ← mapM (λ i, lengths a !! i) (batch a);
  if jit a then Some (max_length a)
  else match ls with [] => None | _ => Some (max_list ls) end.

(** The arguments pass the assertions of [model_1] to [model_6]. *)
Definition valid (a : inputs) : Prop :=
  length (lengths a) = num_sequences a ∧ lengths a ≠ []
  ∧ (max_list (lengths a) ≤ max_length a)%nat.

(** **** The traces of the models

    The sample statements each model issues, in order: those of the priors,
    and those of step [t] of the markov loop, given the values of the local
    variables before the step. *)

Definition prior (a : inputs) (name : string) (fn : dist) : site :=
  Site name fn None [] [VBool (include_prior a)] [] None.

Definition beta_prior (shape : list value) (n : nat) : dist :=
  ToEvent (Expand (Beta (VApp "0.1" []) (VApp "0.9" [])) shape) n.

Definition dirichlet_prior (hidden_dim : value) : dist :=
  ToEvent (Dirichlet (sticky hidden_dim)) 1.

Definition observation (t : nat) : value :=
  VIndex sequences [VPlate "sequences"; VInt (Z.of_nat t)].

Definition hidden (name : string) (fn : dist) (t : nat) (history : nat)
  : site :=
  Site name fn None enumerate_parallel [before_end t] ["sequences"]
    (Some history).

Definition emission (name : string) (fn : dist) (tones : string) (t : nat)
    (history : nat) : site :=
  Site name fn (Some (observation t)) [] [before_end t]
    [tones; "sequences"] (Some history).

Definition model_0_priors (a : inputs) : list site :=
  [ prior a "probs_x" (dirichlet_prior hidden_dim);
    prior a "probs_y"
      (beta_prior [hidden_dim; VInt (Z.of_nat (data_dim a))] 2) ].

Definition model_0_step (i : nat) (length : nat) (x : value) (t : nat)
  : list site :=
  [ Site (format2 "x_" i t) (Categorical (VIndex (VSite "probs_x") [x]))
      None enumerate_parallel [] ["sequences"] (Some 1%nat);
    Site (format2 "y_" i t)
      (Bernoulli (VIndex (VSite "probs_y")
                    [VApp "squeeze" [VSite (format2 "x_" i t); VInt (-1)]]))
      (Some (VIndex (VIndex sequences
                       [VInt (Z.of_nat i);
                        VSlice (VInt (Z.of_nat length))])
               [VInt (Z.of_nat t)]))
      [] [] ["tones"; "sequences"] (Some 1%nat) ].

Definition model_1_step (x : value) (t : nat) : list site :=
  [ hidden (format "x_" t) (Categorical (VIndex (VSite "probs_x") [x])) t 1;
    emission (format "y_" t)
      (Bernoulli (VIndex (VSite "probs_y")
                    [VApp "squeeze" [VSite (format "x_" t); VInt (-1)]]))
      "tones" t 1 ].

Definition model_2_priors (a : inputs) : list site :=
  [ prior a "probs_x" (dirichlet_prior hidden_dim);
    prior a "probs_y"
      (beta_prior [hidden_dim; VInt 2; VInt (Z.of_nat (data_dim a))] 3) ].

Definition model_2_step (x y : value) (t : nat) : list site :=
  [ hidden (format "x_" t) (Categorical (VIndex (VSite "probs_x") [x])) t 1;
    emission (format "y_" t)
      (Bernoulli (VIndex (VSite "probs_y")
                    [VSite (format "x_" t); y; VPlate "tones"]))
      "tones" t 1 ].

Definition model_3_priors (a : inputs) : list site :=
  [ prior a "probs_w" (dirichlet_prior sqrt_hidden_dim);
    prior a "probs_x" (dirichlet_prior sqrt_hidden_dim);
    prior a "probs_y"
      (beta_prior [sqrt_hidden_dim; sqrt_hidden_dim;
                   VInt (Z.of_nat (data_dim a))] 3) ].

Definition model_3_step (w x : value) (t : nat) : list site :=
  [ hidden (format "w_" t) (Categorical (VIndex (VSite "probs_w") [w])) t 1;
    hidden (format "x_" t) (Categorical (VIndex (VSite "probs_x") [x])) t 1;
    emission (format "y_" t)
      (Bernoulli (VIndex (VSite "probs_y")
                    [VSite (format "w_" t); VSite (format "x_" t);
                     VPlate "tones"]))
      "tones" t 1 ].

Definition model_4_priors (a : inputs) : list site :=
  [ prior a "probs_w" (dirichlet_prior sqrt_hidden_dim);
    prior a "probs_x"
      (ToEvent (ExpandBy (Dirichlet (sticky sqrt_hidden_dim))
                  [sqrt_hidden_dim]) 2);
    prior a "probs_y"
      (beta_prior [sqrt_hidden_dim; sqrt_hidden_dim;
                   VInt (Z.of_nat (data_dim a))] 3) ].

Definition model_4_step (w x : value) (t : nat) : list site :=
  [ hidden (format "w_" t) (Categorical (VIndex (VSite "probs_w") [w])) t 1;
    hidden (format "x_" t)
      (Categorical (VIndex (VSite "probs_x") [VSite (format "w_" t); x])) t 1;
    emission (format "y_" t)
      (Bernoulli (VIndex (VSite "probs_y")
                    [VSite (format "w_" t); VSite (format "x_" t);
                     VPlate "tones"]))
      "tones" t 1 ].

Definition model_5_priors (a : inputs) : list site :=
  [ prior a "probs_x" (dirichlet_prior hidden_dim) ].

Definition model_5_step (x y : value) (t : nat) : list site :=
  [ hidden (format "x_" t) (Categorical (VIndex (VSite "probs_x") [x])) t 1;
    emission (format "y_" t)
      (BernoulliLogits (tones_generator (VSite (format "x_" t)) y))
      (format "tones_" t) t 1 ].

(** The transition probabilities of [model_6]. *)
Definition model_6_probs_x (a : inputs) : value :=
  if negb (raftery_parameterization a) then VParam "probs_x"
  else VApp "add"
         [VApp "mul" [VParam "mix_lambda"; VParam "probs_x1"];
          VApp "mul"
            [VApp "sub" [VApp "1.0" []; VParam "mix_lambda"];
             VApp "unsqueeze" [VParam "probs_x2"; VInt (-2)]]].

Definition model_6_step (a : inputs) (x_prev x_curr : value) (t : nat)
  : list site :=
  [ hidden (format "x_" t)
      (Categorical (VIndex (model_6_probs_x a) [x_prev; x_curr])) t 2;
    emission (format "y_" t)
      (Bernoulli (VIndex (VParam "probs_y")
                    [VApp "squeeze" [VSite (format "x_" t); VInt (-1)]]))
      "tones" t 2 ].

Definition model_7_step (t : string * value) : list site :=
  [ Site ("x_" +:+ t.1) (Categorical (VIndex (VSite "probs_x") [VInt 0]))
      None enumerate_parallel [before_end_vectorized t.2] ["sequences"]
      None;
    Site ("y_" +:+ t.1)
      (Bernoulli (VIndex (VSite "probs_y")
                    [VApp "squeeze" [VSite ("x_" +:+ t.1); VInt (-1)]]))
      (Some (VIndex sequences
               [VIndex (VPlate "sequences")
                  [VApp "slice" []; VApp "None" []]; t.2]))
      [] [before_end_vectorized t.2] ["tones"; "sequences"] None ].

(** The length of sequence [i]. *)
Definition length_of (a : inputs) (i : nat) : nat :=
  default 0%nat (lengths a !! i).

(** The sites of sequence [i] of [model_0]. *)
Definition model_0_sequence (a : inputs) (i : nat) : list site :=
  flat_map (λ t, model_0_step i (length_of a i)
                   (previous (format2 "x_" i) (VInt 0) t) t)
    (seq 0 (length_of a i)).

(** The value of the observed [y] before step [t], in [model_2] (where it
    is cast with [.long()]) and in [model_5]. *)
Definition previous_y (init : value) (cast : value → value) (t : nat)
  : value :=
  match t with
  | O => init
  | S t' => cast (observation t')
  end.

(** The hidden state two steps before step [t]. *)
Definition previous2 (x : nat → string) (init : value) (t : nat) : value :=
  match t with
  | O => init
  | S t' => previous x init t'
  end.

(** The number of steps of the markov loop of [model_6]. *)
Definition steps_of_6 (a : inputs) : option nat :=
  ls ← mapM (λ i, lengths a !! i) (batch a);
  match ls with [] => None | _ => Some (max_list ls) end.

(** Step [t] of the second-order model: the [Categorical] of [x t] is
    indexed by the hidden states of the two previous steps. *)
Definition second_order_step (tr : list site) (x y : nat → string)
    (init : value) (t : nat) : Prop :=
  ∃ sx sy probs,
    sx ∈ tr ∧ s_name sx = x t
    ∧ s_fn sx = Categorical (VIndex probs [previous2 x init t;
                                           previous x init t])
    ∧ s_markov sx = Some 2%nat
    ∧ s_infer sx = enumerate_parallel
    ∧ s_obs sx = None
    ∧ sy ∈ tr ∧ s_name sy = y t
    ∧ ∃ obs, s_obs sy = Some obs ∧ root obs = sequences.

(** The arguments fail one of the two assertions on [lengths]. *)
Definition rejected (a : inputs) : Prop :=
  length (lengths a) ≠ num_sequences a
  ∨ (lengths a ≠ [] ∧ (max_length a < max_list (lengths a))%nat).

(** The subsample [batch] indexes into [lengths]. *)
Definition batch_in_range (a : inputs) : Prop :=
  ∀ i, i ∈ batch a → is_Some (lengths a !! i).

(** The names of the sites of a trace, in order. *)
Definition site_names (tr : list site) : list string := s_name <$> tr.

(** The arguments agree in all that a jitted model looks at. *)
Definition same_shape (a b : inputs) : Prop :=
  max_length a = max_length b ∧ data_dim a = data_dim b
  ∧ include_prior a = include_prior b.

(** Concrete arguments: two sequences of lengths 3 and 2. *)
Definition example_inputs : inputs :=
  Inputs 2 3 4 [3; 2]%nat false false true [0; 1]%nat false.

(** Jitted runs on two different batches, and arguments whose lengths
    exceed [max_length]. *)
Definition jit_inputs : inputs :=
  Inputs 2 3 4 [3; 2]%nat true false true [0; 1]%nat false.

Definition jit_inputs_short : inputs :=
  Inputs 2 3 4 [1; 2]%nat true false true [1]%nat false.

Definition long_inputs : inputs :=
  Inputs 2 3 4 [5; 2]%nat false false true [0; 1]%nat false.

End Hmm.

(** * Properties *)

(** ** The SEIR models *)

Section seir.
Import Seir.

Lemma float_gt_one_iff x :
  float_gt_one x ↔ isinstance_float x = true ∧ gt_one x = true.
Proof.
  unfold float_gt_one, gt_one, SFltb. split.
  - intros (f & -> & Hf). by rewrite Hf.
  - intros [Hf Hg]. destruct x; try discriminate.
    exists f. split; [done|].
    destruct (SFcompare float_one f) as [[]|]; done.
Qed.

(** Every path through the five assertions of a constructor. *)
Ltac init_cases :=
  unfold CompartmentalModel_init, bind, assert, ret, raise;
  repeat match goal with
         | |- context [if ?c then _ else _] => destruct c eqn:?
         end.

Section init.
Variable base_valid : list string → nat → Z → bool.
Variables (pop : Z) (inc rec : pyobj) (series : list tensor).

Lemma simple_init_rejects :
  ¬ (float_gt_one inc ∧ float_gt_one rec) →
  SimpleSEIRModel.init base_valid pop inc rec series tt
  = Raise AssertionError.
Proof.
  rewrite !float_gt_one_iff. intros Hn.
  unfold SimpleSEIRModel.init. init_cases; try done.
  destruct Hn. auto.
Qed.

Lemma simple_init_accepts m :
  SimpleSEIRModel.init base_valid pop inc rec series tt = Ok (m, tt) →
  m = Model ["S"; "E"; "I"] (length series) pop inc rec series
  ∧ float_gt_one inc ∧ float_gt_one rec.
Proof.
  rewrite !float_gt_one_iff.
  unfold SimpleSEIRModel.init. init_cases; try done.
  intros [= <-]. auto.
Qed.

Lemma overdispersed_init_rejects :
  ¬ (float_gt_one inc ∧ float_gt_one rec) →
  OverdispersedSEIRModel.init base_valid pop inc rec series tt
  = Raise AssertionError.
Proof.
  rewrite !float_gt_one_iff. intros Hn.
  unfold OverdispersedSEIRModel.init. init_cases; try done.
  destruct Hn. auto.
Qed.

Lemma overdispersed_init_accepts m :
  OverdispersedSEIRModel.init base_valid pop inc rec series tt
  = Ok (m, tt) →
  m = Model ["S"; "E"; "I"] (length series) pop inc rec series
  ∧ float_gt_one inc ∧ float_gt_one rec.
Proof.
  rewrite !float_gt_one_iff.
  unfold OverdispersedSEIRModel.init. init_cases; try done.
  intros [= <-]. auto.
Qed.

Lemma init_returns :
  base_valid ["S"; "E"; "I"] (length series) pop = true →
  float_gt_one inc → float_gt_one rec →
  SimpleSEIRModel.init base_valid pop inc rec series tt
  = Ok (Model ["S"; "E"; "I"] (length series) pop inc rec series, tt)
  ∧ OverdispersedSEIRModel.init base_valid pop inc rec series tt
    = Ok (Model ["S"; "E"; "I"] (length series) pop inc rec series, tt).
Proof.
  rewrite !float_gt_one_iff. intros Hb [Hi1 Hi2] [Hr1 Hr2].
  unfold SimpleSEIRModel.init, OverdispersedSEIRModel.init,
    CompartmentalModel_init, bind, assert, ret.
  by rewrite Hb, Hi1, Hi2, Hr1, Hr2.
Qed.

End init.

(** The initial state of both models. *)
Lemma initialize_lookups (pop : Z) :
  let st : gmap string Z := {[ "S" := pop - 1; "E" := 0; "I" := 1 ]} in
  st !! "S" = Some (pop - 1) ∧ st !! "E" = Some 0 ∧ st !! "I" = Some 1
  ∧ dom st = {[ "S"; "E"; "I" ]} ∧ implicit_R pop st = Some 0.
Proof.
  intros st. unfold implicit_R, st.
  repeat split; simplify_map_eq;
    first [ done | f_equal; lia | rewrite !dom_insert_L; set_solver ].
Qed.

(** *** Binary32 arithmetic on whole numbers

    Rounding is the identity on the numbers binary32 represents; sums and
    differences of whole numbers are therefore exact as long as the
    operands and the result stay within [2 ^ 24] in magnitude. *)

Lemma digits2_pos_iter_xO m p :
  digits2_pos (Pos.iter xO m p) = (digits2_pos m + p)%positive.
Proof.
  induction p as [|p IH] using Pos.peano_ind.
  - simpl. lia.
  - rewrite Pos.iter_succ. simpl. rewrite IH. lia.
Qed.

Lemma Zpos_iter_xO m p : Zpos (Pos.iter xO m p) = Zpos m * 2 ^ Zpos p.
Proof.
  induction p as [|p IH] using Pos.peano_ind.
  - simpl. lia.
  - rewrite Pos.iter_succ, Pos2Z.inj_xO, IH, Pos2Z.inj_succ, Z.pow_succ_r; lia.
Qed.

Lemma iter_pos_iter {A} (f : A → A) p x : SpecFloat.iter_pos f p x = Pos.iter f x p.
Proof.
  revert x. induction p as [p IH|p IH|]; intros x; simpl.
  - by rewrite !IH, !Pos.iter_swap.
  - by rewrite !IH.
  - done.
Qed.

Lemma shr_iter_xO N p :
  SpecFloat.iter_pos shr_1 p (Build_shr_record (Zpos (Pos.iter xO N p)) false false)
  = Build_shr_record (Zpos N) false false.
Proof.
  rewrite iter_pos_iter.
  induction p as [|p IH] using Pos.peano_ind.
  - done.
  - rewrite !Pos.iter_succ, <- Pos.iter_swap. simpl. exact IH.
Qed.

Lemma fexp_eq e : fexp prec emax e = Z.max (e - 24) (-149).
Proof. reflexivity. Qed.

Lemma binary_round_aux_canonical s N E :
  canonical_mantissa prec emax N E = true → E ≤ emax - prec →
  binary_round_aux prec emax s (Zpos N) E loc_Exact = S754_finite s N E.
Proof.
  unfold canonical_mantissa. intros Hc%Z.eqb_eq HE.
  unfold binary_round_aux, shr_fexp. simpl Zdigits2.
  rewrite Hc, Z.sub_diag. simpl. rewrite Hc, Z.sub_diag. simpl.
  by apply Z.leb_le in HE as ->.
Qed.

Lemma binary_round_canonical s N E :
  canonical_mantissa prec emax N E = true → E ≤ emax - prec →
  binary_round prec emax s N E = S754_finite s N E.
Proof.
  intros Hc HE. unfold binary_round, shl_align.
  pose proof Hc as Hc'. unfold canonical_mantissa in Hc'.
  apply Z.eqb_eq in Hc'. rewrite Hc', Z.sub_diag.
  by apply binary_round_aux_canonical.
Qed.

Lemma binary_round_shl s m p E :
  canonical_mantissa prec emax (Pos.iter xO m p) E = true →
  E ≤ emax - prec →
  binary_round prec emax s m (E + Zpos p)
  = S754_finite s (Pos.iter xO m p) E.
Proof.
  intros Hc HE. unfold binary_round, shl_align.
  pose proof Hc as Hc'. unfold canonical_mantissa in Hc'.
  apply Z.eqb_eq in Hc'. rewrite digits2_pos_iter_xO in Hc'.
  replace (Z.pos (digits2_pos m) + (E + Z.pos p))
    with (Z.pos (digits2_pos m + p) + E) by lia.
  rewrite Hc'. replace (E - (E + Z.pos p)) with (Zneg p) by lia.
  by apply binary_round_aux_canonical.
Qed.

Lemma binary_round_shr s N p E :
  canonical_mantissa prec emax N E = true → E ≤ emax - prec →
  binary_round prec emax s (Pos.iter xO N p) (E - Zpos p)
  = S754_finite s N E.
Proof.
  intros Hc HE. unfold binary_round, shl_align.
  pose proof Hc as Hc'. unfold canonical_mantissa in Hc'.
  apply Z.eqb_eq in Hc'.
  assert (Hf : fexp prec emax
                 (Z.pos (digits2_pos (Pos.iter xO N p)) + (E - Z.pos p)) = E).
  { rewrite digits2_pos_iter_xO.
    replace (Z.pos (digits2_pos N + p) + (E - Z.pos p))
      with (Z.pos (digits2_pos N) + E) by lia. done. }
  rewrite Hf. replace (E - (E - Z.pos p)) with (Zpos p) by lia.
  unfold binary_round_aux, shr_fexp. simpl Zdigits2. rewrite Hf.
  replace (E - (E - Z.pos p)) with (Zpos p) by lia.
  unfold shr at 1. simpl shr_record_of_loc. rewrite shr_iter_xO.
  simpl loc_of_shr_record. simpl round_nearest_even. simpl shr_m at 1.
  replace (E - Z.pos p + Z.pos p) with E by lia.
  simpl Zdigits2. rewrite Hc', Z.sub_diag. simpl.
  by apply Z.leb_le in HE as ->.
Qed.

(** Rounding returns the canonical representation of a value that has one. *)
Lemma binary_round_exact K s m e N E :
  canonical_mantissa prec emax N E = true → E ≤ emax - prec →
  0 ≤ e + K → 0 ≤ E + K →
  Zpos m * 2 ^ (e + K) = Zpos N * 2 ^ (E + K) →
  binary_round prec emax s m e = S754_finite s N E.
Proof.
  intros Hc HE He HEK Hv.
  destruct (Z.lt_trichotomy e E) as [Hlt|[->|Hgt]].
  - assert (∃ p, E - e = Zpos p) as [p Hp].
    { destruct (E - e) as [|p|p] eqn:Hd; [lia | by exists p | lia]. }
    replace (E + K) with ((e + K) + Zpos p) in Hv by lia.
    rewrite (Z.pow_add_r 2 (e + K) (Zpos p)) in Hv by lia.
    assert (m = Pos.iter xO N p) as ->.
    { apply Pos2Z.inj. rewrite Zpos_iter_xO.
      assert (0 < 2 ^ (e + K)) by (apply Z.pow_pos_nonneg; lia).
      nia. }
    replace e with (E - Zpos p) by lia. by apply binary_round_shr.
  - assert (0 < 2 ^ (E + K)) by (apply Z.pow_pos_nonneg; lia).
    assert (m = N) as ->.
    { apply Pos2Z.inj. apply Z.mul_cancel_r in Hv; [done | lia]. }
    by apply binary_round_canonical.
  - assert (∃ p, e - E = Zpos p) as [p Hp].
    { destruct (e - E) as [|p|p] eqn:Hd; [lia | by exists p | lia]. }
    replace (e + K) with ((E + K) + Zpos p) in Hv by lia.
    rewrite (Z.pow_add_r 2 (E + K) (Zpos p)) in Hv by lia.
    assert (N = Pos.iter xO m p) as ->.
    { apply Pos2Z.inj. rewrite Zpos_iter_xO.
      assert (0 < 2 ^ (E + K)) by (apply Z.pow_pos_nonneg; lia).
      nia. }
    replace e with (E + Zpos p) by lia. by apply binary_round_shl.
Qed.

Lemma digits2_pos_bounds n :
  2 ^ (Zpos (digits2_pos n) - 1) ≤ Zpos n < 2 ^ Zpos (digits2_pos n).
Proof.
  induction n as [n IH|n IH|]; simpl digits2_pos.
  - rewrite Pos2Z.inj_succ, Z.pow_succ_r by lia.
    replace (Z.succ (Z.pos (digits2_pos n)) - 1)
      with (Z.succ (Z.pos (digits2_pos n) - 1)) by lia.
    rewrite Z.pow_succ_r by lia. lia.
  - rewrite Pos2Z.inj_succ, Z.pow_succ_r by lia.
    replace (Z.succ (Z.pos (digits2_pos n)) - 1)
      with (Z.succ (Z.pos (digits2_pos n) - 1)) by lia.
    rewrite Z.pow_succ_r by lia. lia.
  - simpl. lia.
Qed.

(** The canonical mantissa and exponent of a whole number within the
    range. *)
Lemma whole_canonical (n : positive) :
  Zpos n ≤ 2 ^ 24 →
  ∃ N E, canonical_mantissa prec emax N E = true ∧ -23 ≤ E ≤ 1
         ∧ Zpos N * 2 ^ (E + 23) = Zpos n * 2 ^ 23.
Proof.
  intros Hn. pose proof (digits2_pos_bounds n) as [Hlo Hhi].
  set (d := Zpos (digits2_pos n)) in *.
  assert (Hd : 1 ≤ d ≤ 25).
  { split; [unfold d; lia|].
    destruct (Z.le_gt_cases d 25) as [|Hgt]; [done|].
    assert (2 ^ 25 ≤ 2 ^ (d - 1)) by (apply Z.pow_le_mono_r; lia).
    change (2 ^ 25) with 33554432 in *. change (2 ^ 24) with 16777216 in *.
    lia. }
  destruct (Z.lt_trichotomy d 24) as [Hlt|[Heq|Hgt]].
  - assert (∃ p, 24 - d = Zpos p) as [p Hp].
    { destruct (24 - d) as [|p|p] eqn:Hd'; [lia | by exists p | lia]. }
    exists (Pos.iter xO n p), (- Zpos p). split_and!.
    + unfold canonical_mantissa. apply Z.eqb_eq.
      rewrite digits2_pos_iter_xO, fexp_eq, Pos2Z.inj_add. fold d. lia.
    + lia.
    + lia.
    + rewrite Zpos_iter_xO.
      replace 23 with (Zpos p + (- Zpos p + 23)) at 2 by lia.
      rewrite (Z.pow_add_r 2 (Zpos p) (- Zpos p + 23)) by lia. lia.
  - exists n, 0. split_and!; [|lia|lia|done].
    unfold canonical_mantissa. apply Z.eqb_eq. rewrite fexp_eq. fold d. lia.
  - assert (d = 25) as Hd25 by lia. rewrite Hd25 in Hlo.
    change (2 ^ (25 - 1)) with 16777216 in Hlo.
    change (2 ^ 24) with 16777216 in Hn.
    assert (n = 16777216%positive) as -> by lia.
    exists 8388608%positive, 1. by split_and!.
Qed.

Lemma as_tensor_whole (c : Z) :
  c ≠ 0 → representable c →
  ∃ s m e, as_tensor c = S754_finite s m e
           ∧ as_tensor (- c) = S754_finite (negb s) m e
           ∧ -23 ≤ e ≤ 1
           ∧ cond_Zopp s (Zpos m) * 2 ^ (e + 23) = c * 2 ^ 23
           ∧ canonical_mantissa prec emax m e = true.
Proof.
  unfold representable. intros Hc Hex. destruct c as [|n|n]; [done|..].
  - destruct (whole_canonical n) as (N & E & Hcan & HE & Hv); [lia|].
    exists false, N, E. unfold as_tensor. simpl.
    rewrite !(binary_round_exact 23 _ n 0 N E) by (done || unfold emax, prec; lia).
    repeat split; first [done | lia].
  - destruct (whole_canonical n) as (N & E & Hcan & HE & Hv); [lia|].
    exists true, N, E. unfold as_tensor. simpl.
    rewrite !(binary_round_exact 23 _ n 0 N E) by (done || unfold emax, prec; lia).
    repeat split; first [done | simpl; lia].
Qed.

(** Rounding a whole number within the range is exact. *)
Lemma binary_normalize_whole (M ez c : Z) :
  -23 ≤ ez → M * 2 ^ (ez + 23) = c * 2 ^ 23 → representable c →
  binary_normalize prec emax M ez false = as_tensor c.
Proof.
  intros Hez Hv Hex.
  assert (Hpow : 0 < 2 ^ (ez + 23)) by (apply Z.pow_pos_nonneg; lia).
  destruct (decide (c = 0)) as [->|Hc].
  { assert (M = 0) as -> by nia. done. }
  destruct (as_tensor_whole c Hc Hex) as (s & m & e & -> & _ & He & Hm & Hcan).
  destruct M as [|p|p]; simpl.
  - lia.
  - destruct s; simpl in Hm; [lia|].
    apply (binary_round_exact 23); [done | unfold emax, prec; lia | lia..].
  - destruct s; simpl in Hm; [|lia].
    apply (binary_round_exact 23); [done | unfold emax, prec; lia | lia..].
Qed.

Lemma shl_align_value K mx ex ez :
  ez ≤ ex → 0 ≤ ez + K →
  Zpos (fst (shl_align mx ex ez)) * 2 ^ (ez + K) = Zpos mx * 2 ^ (ex + K).
Proof.
  intros Hle HK. unfold shl_align.
  destruct (ez - ex) as [|p|p] eqn:Hd; simpl.
  - by replace ez with ex by lia.
  - lia.
  - rewrite Zpos_iter_xO. replace (ex + K) with (Zpos p + (ez + K)) by lia.
    rewrite (Z.pow_add_r 2 (Zpos p) (ez + K)) by lia. lia.
Qed.

Lemma as_tensor_0 : as_tensor 0 = S754_zero false.
Proof. reflexivity. Qed.

Lemma cond_Zopp_mul s a b : cond_Zopp s a * b = cond_Zopp s (a * b).
Proof. destruct s; simpl; lia. Qed.

(** Tensor addition and subtraction are representable on whole numbers within
    the range. *)
Lemma add_exact (a b : Z) :
  representable a → representable b → representable (a + b) →
  add (as_tensor a) (as_tensor b) = as_tensor (a + b).
Proof.
  intros Ha Hb Hab.
  destruct (decide (a = 0)) as [->|Ha0].
  { rewrite as_tensor_0, Z.add_0_l. unfold add.
    destruct (decide (b = 0)) as [->|Hb0]; [done|].
    by destruct (as_tensor_whole b Hb0 Hb) as (s & m & e & -> & _). }
  destruct (decide (b = 0)) as [->|Hb0].
  { rewrite as_tensor_0, Z.add_0_r. unfold add.
    destruct (as_tensor_whole a Ha0 Ha) as (s & m & e & -> & _). done. }
  destruct (as_tensor_whole a Ha0 Ha) as (sx & mx & ex & -> & _ & Hex & Hx & _).
  destruct (as_tensor_whole b Hb0 Hb) as (sy & my & ey & -> & _ & Hey & Hy & _).
  unfold add, SFadd. cbv zeta.
  apply binary_normalize_whole; [lia| |done].
  rewrite Z.mul_add_distr_r, !cond_Zopp_mul.
  rewrite !shl_align_value by lia.
  rewrite <- !cond_Zopp_mul. lia.
Qed.

Lemma sub_exact (a b : Z) :
  representable a → representable b → representable (a - b) →
  sub (as_tensor a) (as_tensor b) = as_tensor (a - b).
Proof.
  intros Ha Hb Hab.
  destruct (decide (b = 0)) as [->|Hb0].
  { rewrite as_tensor_0, Z.sub_0_r. unfold sub.
    destruct (decide (a = 0)) as [->|Ha0]; [done|].
    by destruct (as_tensor_whole a Ha0 Ha) as (s & m & e & -> & _). }
  destruct (as_tensor_whole b Hb0 Hb) as (sy & my & ey & Hbt & Hbn & Hey & Hy & _).
  destruct (decide (a = 0)) as [->|Ha0].
  { rewrite as_tensor_0, Z.sub_0_l, Hbt, Hbn. done. }
  destruct (as_tensor_whole a Ha0 Ha) as (sx & mx & ex & -> & _ & Hex & Hx & _).
  rewrite Hbt. unfold sub, SFsub. cbv zeta.
  apply binary_normalize_whole; [lia| |done].
  rewrite Z.mul_sub_distr_r, !cond_Zopp_mul.
  rewrite !shl_align_value by lia.
  rewrite <- !cond_Zopp_mul. lia.
Qed.

Lemma count_of_as_tensor (c : Z) :
  representable c → count_of (as_tensor c) = Some c.
Proof.
  intros Hex. destruct (decide (c = 0)) as [->|Hc]; [done|].
  destruct (as_tensor_whole c Hc Hex) as (s & m & e & -> & _ & He & Hm & _).
  assert (Hs : ∀ x, cond_Zopp s (cond_Zopp s x) = x)
    by (intros x; destruct s; simpl; lia).
  unfold count_of. case_bool_decide as Hpos.
  - f_equal. rewrite <- cond_Zopp_mul.
    rewrite (Z.pow_add_r 2 e 23) in Hm by lia.
    assert (0 < 2 ^ 23) by done. nia.
  - set (q := 2 ^ (- e)).
    assert (Hq : 0 < q) by (apply Z.pow_pos_nonneg; lia).
    assert (Hmq : Zpos m = cond_Zopp s c * q).
    { assert (Hc' : cond_Zopp s (Zpos m) = c * q).
      { replace 23 with ((e + 23) + - e) in Hm at 2 by lia.
        rewrite (Z.pow_add_r 2 (e + 23) (- e)) in Hm by lia. fold q in Hm.
        assert (0 < 2 ^ (e + 23)) by (apply Z.pow_pos_nonneg; lia).
        nia. }
      rewrite cond_Zopp_mul, <- Hc'. by rewrite Hs. }
    rewrite Hmq, Z.mod_mul, Z.div_mul by lia.
    rewrite bool_decide_true by done. by rewrite Hs.
Qed.

(** *** Running the transitions *)

Lemma bind_getitem {St V A} (d : gmap string V) (k : string) (v : V)
    (f : V → M St A) (st : St) :
  d !! k = Some v → bind (getitem d k) f st = f v st.
Proof. unfold bind, getitem. by intros ->. Qed.

Lemma bind_sample {A} draw name fn obs (f : tensor → M (list site) A) tr :
  bind (sample draw name fn obs) f tr
  = f (match obs with Some v => v | None => draw name fn end)
      (tr ++ [Site name fn obs]).
Proof. done. Qed.

Ltac lookup_state :=
  rewrite ?lookup_insert_ne by done;
  first [ apply lookup_insert_eq | eassumption ].

Ltac step :=
  first [ rewrite bind_sample
        | erewrite bind_getitem by lookup_state ].

Section transition.
Variable draw : string → dist → tensor.
Variable self : model.
Variables (state : gmap string tensor) (t : nat) (tr : list site).
Variables s e i : tensor.
Hypothesis HS : state !! "S" = Some s.
Hypothesis HE : state !! "E" = Some e.
Hypothesis HI : state !! "I" = Some i.
(** [self.data[t]] is read when [t < self.duration]. *)
Hypothesis Hdata : (t < duration self → t < length (data self))%nat.

Lemma fwd_obs_ok {A} (k : option tensor → M (list site) A)
    (tr' : list site) :
  bind (if bool_decide (t < duration self)%nat
        then match data self !! t with
             | Some d => ret (Some d)
             | None => raise IndexError
             end
        else ret None) k tr'
  = k (if bool_decide (t < duration self)%nat then data self !! t
       else None) tr'.
Proof.
  unfold bind. case_bool_decide as Ht; [|done].
  destruct (lookup_lt_is_Some_2 (data self) t (Hdata Ht)) as [d ->].
  done.
Qed.

Lemma simple_fwd_run (R0 tau_e tau_i rho : real) :
  let S2E := draw (format "S2E_" t)
               (infection_dist (RDiv R0 tau_i) s i (population self) None)
  in
  let E2I := draw (format "E2I_" t) (Binomial e (RDiv (RInt 1) tau_e)) in
  let I2R := draw (format "I2R_" t) (Binomial i (RDiv (RInt 1) tau_i)) in
  ∃ tr',
    SimpleSEIRModel.transition_fwd draw self (R0, tau_e, tau_i, rho)
      state t tr
    = Ok (<["I" := sub (add i E2I) I2R]>
            (<["E" := sub (add e S2E) E2I]> (<["S" := sub s S2E]> state)),
          tr').
Proof.
  intros S2E E2I I2R. unfold SimpleSEIRModel.transition_fwd.
  repeat step. rewrite fwd_obs_ok. repeat step. unfold ret. eauto.
Qed.

Lemma overdispersed_fwd_run (R0 k tau_e tau_i rho : real) :
  let S2E := draw (format "S2E_" t)
               (infection_dist R0 s i (population self) (Some k)) in
  let E2I := draw (format "E2I_" t) (Binomial e (RDiv (RInt 1) tau_e)) in
  let I2R := draw (format "I2R_" t) (Binomial i (RDiv (RInt 1) tau_i)) in
  ∃ tr',
    OverdispersedSEIRModel.transition_fwd draw self
      (R0, k, tau_e, tau_i, rho) state t tr
    = Ok (<["I" := sub (add i E2I) I2R]>
            (<["E" := sub (add e S2E) E2I]> (<["S" := sub s S2E]> state)),
          tr').
Proof.
  intros S2E E2I I2R. unfold OverdispersedSEIRModel.transition_fwd.
  repeat step. rewrite fwd_obs_ok. repeat step. unfold ret. eauto.
Qed.

(** *** One backward step *)

Variables (curr : gmap string tensor) (s' e' i' d : tensor).
Hypothesis HS' : curr !! "S" = Some s'.
Hypothesis HE' : curr !! "E" = Some e'.
Hypothesis HI' : curr !! "I" = Some i'.
Hypothesis Hobs : data self !! t = Some d.

Lemma simple_bwd_run (R0 tau_e tau_i rho : real) :
  let S2E := sub s s' in
  let E2I := add (sub e e') S2E in
  let I2R := add (sub i i') E2I in
  SimpleSEIRModel.transition_bwd draw self (R0, tau_e, tau_i, rho)
    state curr t tr
  = Ok (tt, tr ++
      [ Site (format "S2E_" t)
          (infection_dist (RDiv R0 tau_i) s i (population self) None)
          (Some S2E);
        Site (format "E2I_" t)
          (ExtendedBinomial e (RDiv (RInt 1) tau_e)) (Some E2I);
        Site (format "I2R_" t)
          (ExtendedBinomial i (RDiv (RInt 1) tau_i)) (Some I2R);
        Site (format "obs_" t) (ExtendedBinomial E2I rho) (Some d) ]).
Proof.
  intros S2E E2I I2R. unfold SimpleSEIRModel.transition_bwd.
  repeat step. rewrite Hobs. unfold bind at 1, ret at 1.
  repeat step. unfold ret. by rewrite <- !app_assoc.
Qed.

Lemma overdispersed_bwd_run (R0 k tau_e tau_i rho : real) :
  let S2E := sub s s' in
  let E2I := add (sub e e') S2E in
  let I2R := add (sub i i') E2I in
  OverdispersedSEIRModel.transition_bwd draw self
    (R0, k, tau_e, tau_i, rho) state curr t tr
  = Ok (tt, tr ++
      [ Site (format "S2E_" t)
          (infection_dist R0 s i (population self) (Some k)) (Some S2E);
        Site (format "E2I_" t)
          (ExtendedBinomial e (RDiv (RInt 1) tau_e)) (Some E2I);
        Site (format "I2R_" t)
          (ExtendedBinomial i (RDiv (RInt 1) tau_i)) (Some I2R);
        Site (format "obs_" t) (ExtendedBinomial E2I rho) (Some d) ]).
Proof.
  intros S2E E2I I2R. unfold OverdispersedSEIRModel.transition_bwd.
  repeat step. rewrite Hobs. unfold bind at 1, ret at 1.
  repeat step. unfold ret. by rewrite <- !app_assoc.
Qed.
End transition.

(** *** Whole numbers through the update *)

Lemma counts_lookup (state : gmap string tensor) k x :
  state !! k = Some x → counts state !! k = count_of x.
Proof. intros Hk. unfold counts. by rewrite lookup_omap, Hk. Qed.

Lemma counts_holds (state : gmap string tensor) s e i :
  holds state s e i →
  representable s → representable e → representable i →
  counts state !! "S" = Some s ∧ counts state !! "E" = Some e
  ∧ counts state !! "I" = Some i.
Proof.
  intros (HS & HE & HI) Hs He Hi.
  rewrite (counts_lookup _ _ _ HS), (counts_lookup _ _ _ HE),
    (counts_lookup _ _ _ HI).
  by rewrite !count_of_as_tensor.
Qed.

Ltac values H :=
  unfold fwd_values, bwd_values in H; simpl app in H;
  repeat match type of H with
         | Forall _ (_ :: _) =>
             let Hx := fresh "Hx" in
             apply Forall_cons in H as [Hx H]
         end;
  clear H.

(** The tensors of the updated state hold the updated whole numbers. *)
Lemma holds_after_flows (state : gmap string tensor) s e i S2E E2I I2R :
  Forall representable (fwd_values s e i S2E E2I I2R) →
  holds (<["I" := sub (add (as_tensor i) (as_tensor E2I)) (as_tensor I2R)]>
           (<["E" := sub (add (as_tensor e) (as_tensor S2E))
                       (as_tensor E2I)]>
              (<["S" := sub (as_tensor s) (as_tensor S2E)]> state)))
    (s - S2E) (e + S2E - E2I) (i + E2I - I2R).
Proof.
  intros Hv. values Hv.
  rewrite !add_exact, !sub_exact by done.
  unfold holds. by simplify_map_eq.
Qed.

Lemma sampled_within_values s e i S2E E2I I2R :
  sampled_within s e i S2E E2I I2R →
  Forall representable
    (fwd_values s e i S2E E2I I2R ++ bwd_values S2E E2I I2R).
Proof.
  intros (HS & HE & HI & Hpop). change (2 ^ 24) with 16777216 in Hpop.
  unfold fwd_values, bwd_values. simpl app.
  repeat apply Forall_cons_2; [..|apply Forall_nil_2];
    unfold representable; change (2 ^ 24) with 16777216; lia.
Qed.

Lemma conserving_step_counts pop (state state' : gmap string tensor)
    s e i S2E E2I I2R :
  Forall representable (fwd_values s e i S2E E2I I2R) →
  holds state s e i →
  holds state' (s - S2E) (e + S2E - E2I) (i + E2I - I2R) →
  conserving_step pop (counts state) (counts state') S2E E2I I2R.
Proof.
  intros Hv Hst Hst'. values Hv.
  destruct (counts_holds _ _ _ _ Hst) as (HS & HE & HI); [done..|].
  destruct (counts_holds _ _ _ _ Hst') as (HS' & HE' & HI'); [done..|].
  exists s, e, i, (pop - (s + e + i) + I2R).
  unfold total, implicit_R. rewrite HS, HE, HI, HS', HE', HI'. simpl.
  repeat split; f_equal; lia.
Qed.

Section whole_step.
Variable draw : string → dist → tensor.
Variable self : model.
Variables (state : gmap string tensor) (t : nat) (tr : list site).
Variables s e i S2E E2I I2R : Z.
Hypothesis Hstate : holds state s e i.
Hypothesis Hdata : (t < duration self → t < length (data self))%nat.
Hypothesis Hdraw : draws_flows draw t S2E E2I I2R.
Hypothesis Hvalues : Forall representable (fwd_values s e i S2E E2I I2R).

Lemma simple_fwd_whole params :
  ∃ state' tr',
    SimpleSEIRModel.transition_fwd draw self params state t tr
    = Ok (state', tr')
    ∧ holds state' (s - S2E) (e + S2E - E2I) (i + E2I - I2R).
Proof.
  destruct params as [[[R0 tau_e] tau_i] rho].
  destruct Hstate as (HS & HE & HI). destruct Hdraw as (HSE & HEI & HIR).
  destruct (simple_fwd_run draw self state t tr _ _ _ HS HE HI Hdata
              R0 tau_e tau_i rho) as [tr' Hrun].
  rewrite HSE, HEI, HIR in Hrun. eexists _, tr'.
  split; [exact Hrun|]. by apply holds_after_flows.
Qed.

Lemma overdispersed_fwd_whole params :
  ∃ state' tr',
    OverdispersedSEIRModel.transition_fwd draw self params state t tr
    = Ok (state', tr')
    ∧ holds state' (s - S2E) (e + S2E - E2I) (i + E2I - I2R).
Proof.
  destruct params as [[[[R0 k] tau_e] tau_i] rho].
  destruct Hstate as (HS & HE & HI). destruct Hdraw as (HSE & HEI & HIR).
  destruct (overdispersed_fwd_run draw self state t tr _ _ _ HS HE HI Hdata
              R0 k tau_e tau_i rho) as [tr' Hrun].
  rewrite HSE, HEI, HIR in Hrun. eexists _, tr'.
  split; [exact Hrun|]. by apply holds_after_flows.
Qed.

End whole_step.

Lemma example_state0_holds : holds Example.state0 99 0 1.
Proof.
  unfold holds, Example.state0, SimpleSEIRModel.initialize.
  rewrite !lookup_fmap. by simplify_map_eq.
Qed.

Lemma example_state1_holds : holds Example.state1 93 6 0.
Proof.
  unfold holds, Example.state1. rewrite !lookup_fmap. by simplify_map_eq.
Qed.

Lemma large_state0_holds : holds Example.large_state0 33554432 0 1.
Proof.
  unfold holds, Example.large_state0, SimpleSEIRModel.initialize.
  rewrite !lookup_fmap. by simplify_map_eq.
Qed.

Lemma example_draws_flows : draws_flows Example.draw 0 6 0 1.
Proof. repeat split; intros d; reflexivity. Qed.

Lemma example_values :
  Forall representable (fwd_values 99 0 1 6 0 1 ++ bwd_values 6 0 1).
Proof.
  apply sampled_within_values. unfold sampled_within.
  change (2 ^ 24) with 16777216. lia.
Qed.

(** C8: the SEIR transition step conserves the total population as long
    as binary32 holds the numbers exactly.  For every state whose
    compartments hold whole numbers and every flow triple
    [(S2E, E2I, I2R)] of whole numbers that the step samples, such that
    the compartments, the flows and the sums and differences the update
    forms are at most [2 ^ 24] in magnitude, [transition_fwd] of both
    [SimpleSEIRModel] and [OverdispersedSEIRModel] returns the state in
    which [S] has decreased by [S2E], [E] has increased by [S2E] and
    decreased by [E2I], [I] has increased by [E2I] and decreased by [I2R];
    [S + E + I] has decreased by exactly [I2R], and with the implicit
    [R = population - S - E - I] the total [S + E + I + R] is the
    population. *)
Theorem transition_fwd_conserves_population
    (draw : string → dist → tensor) (self : model)
    (state : gmap string tensor) (t : nat) (tr : list site)
    (s e i S2E E2I I2R : Z) :
  holds state s e i →
  (t < duration self → t < length (data self))%nat →
  draws_flows draw t S2E E2I I2R →
  Forall representable (fwd_values s e i S2E E2I I2R) →
  (∀ params, ∃ state' tr',
      SimpleSEIRModel.transition_fwd draw self params state t tr
      = Ok (state', tr')
      ∧ holds state' (s - S2E) (e + S2E - E2I) (i + E2I - I2R)
      ∧ conserving_step (population self) (counts state) (counts state')
          S2E E2I I2R)
  ∧ (∀ params, ∃ state' tr',
      OverdispersedSEIRModel.transition_fwd draw self params state t tr
      = Ok (state', tr')
      ∧ holds state' (s - S2E) (e + S2E - E2I) (i + E2I - I2R)
      ∧ conserving_step (population self) (counts state) (counts state')
          S2E E2I I2R).
Proof.
  intros Hstate Hdata Hdraw Hvalues. split; intros params.
  - destruct (simple_fwd_whole draw self state t tr s e i S2E E2I I2R
                Hstate Hdata Hdraw Hvalues params)
      as (state' & tr' & Hrun & Hstate').
    exists state', tr'. split; [done|]. split; [done|].
    by eapply conserving_step_counts.
  - destruct (overdispersed_fwd_whole draw self state t tr s e i S2E E2I
                I2R Hstate Hdata Hdraw Hvalues params)
      as (state' & tr' & Hrun & Hstate').
    exists state', tr'. split; [done|]. split; [done|].
    by eapply conserving_step_counts.
Qed.

Lemma transition_fwd_conserves_population_witness :
  (∃ state' tr',
      SimpleSEIRModel.transition_fwd Example.draw Example.self
        Example.simple_params Example.state0 0 [] = Ok (state', tr')
      ∧ holds state' 93 6 0
      ∧ conserving_step 100 (counts Example.state0) (counts state') 6 0 1)
  ∧ (∃ state' tr',
      OverdispersedSEIRModel.transition_fwd Example.draw Example.self
        Example.overdispersed_params Example.state0 0 [] = Ok (state', tr')
      ∧ holds state' 93 6 0
      ∧ conserving_step 100 (counts Example.state0) (counts state') 6 0 1).
Proof.
  assert (H := transition_fwd_conserves_population Example.draw
                 Example.self Example.state0 0 [] 99 0 1 6 0 1).
  destruct H as [H1 H2].
  - exact example_state0_holds.
  - simpl. lia.
  - exact example_draws_flows.
  - exact (proj1 (proj1 (Forall_app _ _ _) example_values)).
  - split; [apply (H1 Example.simple_params)
           | apply (H2 Example.overdispersed_params)].
Defined.

Lemma total_counts (state : gmap string tensor) x y z :
  state !! "S" = Some x → state !! "E" = Some y → state !! "I" = Some z →
  total (counts state)
  = (a ← count_of x; b ← count_of y; c ← count_of z; Some (a + b + c)).
Proof.
  intros HS HE HI. unfold total.
  by rewrite (counts_lookup _ _ _ HS), (counts_lookup _ _ _ HE),
    (counts_lookup _ _ _ HI).
Qed.

(** Above [2 ^ 24] the step does not conserve the population: in a
    population of 33554433 with one infectious individual, one new
    exposure leaves [S] at 33554432 and raises [E] to 1. *)
Lemma transition_fwd_loses_count_above_2_24 :
  ∃ state' tr',
    SimpleSEIRModel.transition_fwd Example.large_draw Example.large
      Example.simple_params Example.large_state0 0 [] = Ok (state', tr')
    ∧ draws_flows Example.large_draw 0 1 0 0
    ∧ total (counts Example.large_state0) = Some 33554433
    ∧ total (counts state') = Some 33554434
    ∧ ¬ conserving_step 33554433 (counts Example.large_state0)
          (counts state') 1 0 0.
Proof.
  destruct large_state0_holds as (HS & HE & HI).
  destruct (simple_fwd_run Example.large_draw Example.large
              Example.large_state0 0 [] _ _ _ HS HE HI)
    with (R0 := RParam "R0") (tau_e := RParam "tau_e")
         (tau_i := RParam "tau_i") (rho := RParam "rho") as [tr' Hrun].
  { simpl. lia. }
  eexists _, tr'. split; [exact Hrun|].
  assert (Htot : total (counts Example.large_state0) = Some 33554433).
  { by rewrite (total_counts _ _ _ _ HS HE HI). }
  match goal with
  | |- context [counts (<["I" := ?x]> ?m)] => set (st' := <["I" := x]> m)
  end.
  assert (Htot' : total (counts st') = Some 33554434).
  { unfold st'. erewrite total_counts; [|by simplify_map_eq..].
    vm_compute. reflexivity. }
  split; [by repeat split|]. split; [done|]. split; [done|].
  intros (s & e & i & r' & _ & _ & _ & _ & _ & _ & Ht & Ht' & _).
  rewrite Htot in Ht. rewrite Htot' in Ht'.
  injection Ht as Ht. injection Ht' as Ht'. lia.
Qed.

(** C9: within the range that binary32 holds exactly, [transition_bwd]
    recovers the flows that [transition_fwd] applied.  For every previous
    state [prev] of whole numbers and flow triple [(S2E, E2I, I2R)] of
    whole numbers such that the compartments, the flows and the sums and
    differences that the two transitions form are at most [2 ^ 24] in
    magnitude, [transition_fwd] returns a state [curr] from [prev], and
    [transition_bwd prev curr] conditions the sites [S2E_t], [E2I_t],
    [I2R_t] on exactly [S2E], [E2I], [I2R]: its expressions
    [prev.S - curr.S], [prev.E - curr.E + S2E], [prev.I - curr.I + E2I]
    invert the state update. *)
Theorem transition_bwd_inverts_transition_fwd
    (draw : string → dist → tensor) (self : model)
    (prev : gmap string tensor) (t : nat) (tr0 tr : list site)
    (s e i S2E E2I I2R : Z) (d : tensor) :
  holds prev s e i →
  data self !! t = Some d →
  draws_flows draw t S2E E2I I2R →
  Forall representable
    (fwd_values s e i S2E E2I I2R ++ bwd_values S2E E2I I2R) →
  (∀ params, ∃ curr tr1 sites,
      SimpleSEIRModel.transition_fwd draw self params prev t tr0
      = Ok (curr, tr1)
      ∧ SimpleSEIRModel.transition_bwd draw self params prev curr t tr
        = Ok (tt, tr ++ sites)
      ∧ observations sites
        = [ (format "S2E_" t, Some (as_tensor S2E));
            (format "E2I_" t, Some (as_tensor E2I));
            (format "I2R_" t, Some (as_tensor I2R));
            (format "obs_" t, Some d) ])
  ∧ (∀ params, ∃ curr tr1 sites,
      OverdispersedSEIRModel.transition_fwd draw self params prev t tr0
      = Ok (curr, tr1)
      ∧ OverdispersedSEIRModel.transition_bwd draw self params prev curr
          t tr
        = Ok (tt, tr ++ sites)
      ∧ observations sites
        = [ (format "S2E_" t, Some (as_tensor S2E));
            (format "E2I_" t, Some (as_tensor E2I));
            (format "I2R_" t, Some (as_tensor I2R));
            (format "obs_" t, Some d) ]).
Proof.
  intros Hprev Hd Hdraw Hall.
  assert (Hdata : (t < duration self → t < length (data self))%nat).
  { intros _. by eapply lookup_lt_Some. }
  pose proof (proj1 (proj1 (Forall_app _ _ _) Hall)) as Hvalues.
  assert (Hflows :
    sub (as_tensor s) (as_tensor (s - S2E)) = as_tensor S2E
    ∧ add (sub (as_tensor e) (as_tensor (e + S2E - E2I))) (as_tensor S2E)
      = as_tensor E2I
    ∧ add (sub (as_tensor i) (as_tensor (i + E2I - I2R))) (as_tensor E2I)
      = as_tensor I2R).
  { values Hall.
    rewrite !sub_exact by
      first [ done
            | by replace (s - (s - S2E)) with S2E by lia
            | by replace (e - (e + S2E - E2I)) with (E2I - S2E) by lia
            | by replace (i - (i + E2I - I2R)) with (I2R - E2I) by lia ].
    rewrite !add_exact by
      first [ done
            | by replace (e - (e + S2E - E2I)) with (E2I - S2E) by lia
            | by replace (i - (i + E2I - I2R)) with (I2R - E2I) by lia
            | by replace (e - (e + S2E - E2I) + S2E) with E2I by lia
            | by replace (i - (i + E2I - I2R) + E2I) with I2R by lia ].
    split_and!; f_equal; lia. }
  destruct Hflows as (HfS & HfE & HfI).
  destruct Hprev as (HS & HE & HI).
  split.
  - intros [[[R0 tau_e] tau_i] rho].
    destruct (simple_fwd_whole draw self prev t tr0 s e i S2E E2I I2R
                (conj HS (conj HE HI)) Hdata Hdraw Hvalues
                (R0, tau_e, tau_i, rho))
      as (curr & tr1 & Hrun & HS' & HE' & HI').
    exists curr, tr1. eexists. split; [exact Hrun|]. split.
    + by apply (simple_bwd_run draw self prev t tr _ _ _ HS HE HI curr
                  _ _ _ d HS' HE' HI' Hd).
    + unfold observations. simpl. by rewrite HfS, HfE, HfI.
  - intros [[[[R0 k] tau_e] tau_i] rho].
    destruct (overdispersed_fwd_whole draw self prev t tr0 s e i S2E E2I
                I2R (conj HS (conj HE HI)) Hdata Hdraw Hvalues
                (R0, k, tau_e, tau_i, rho))
      as (curr & tr1 & Hrun & HS' & HE' & HI').
    exists curr, tr1. eexists. split; [exact Hrun|]. split.
    + by apply (overdispersed_bwd_run draw self prev t tr _ _ _ HS HE HI
                  curr _ _ _ d HS' HE' HI' Hd).
    + unfold observations. simpl. by rewrite HfS, HfE, HfI.
Qed.

Lemma transition_bwd_inverts_transition_fwd_witness :
  (∃ curr tr1 sites,
      SimpleSEIRModel.transition_fwd Example.draw Example.self
        Example.simple_params Example.state0 0 [] = Ok (curr, tr1)
      ∧ SimpleSEIRModel.transition_bwd Example.draw Example.self
          Example.simple_params Example.state0 curr 0 []
        = Ok (tt, [] ++ sites)
      ∧ observations sites
        = [ (format "S2E_" 0, Some (as_tensor 6));
            (format "E2I_" 0, Some (as_tensor 0));
            (format "I2R_" 0, Some (as_tensor 1));
            (format "obs_" 0, Some (as_tensor 4)) ])
  ∧ (∃ curr tr1 sites,
      OverdispersedSEIRModel.transition_fwd Example.draw Example.self
        Example.overdispersed_params Example.state0 0 [] = Ok (curr, tr1)
      ∧ OverdispersedSEIRModel.transition_bwd Example.draw Example.self
          Example.overdispersed_params Example.state0 curr 0 []
        = Ok (tt, [] ++ sites)
      ∧ observations sites
        = [ (format "S2E_" 0, Some (as_tensor 6));
            (format "E2I_" 0, Some (as_tensor 0));
            (format "I2R_" 0, Some (as_tensor 1));
            (format "obs_" 0, Some (as_tensor 4)) ]).
Proof.
  assert (H := transition_bwd_inverts_transition_fwd Example.draw
                 Example.self Example.state0 0 [] [] 99 0 1 6 0 1
                 (as_tensor 4)).
  destruct H as [H1 H2].
  - exact example_state0_holds.
  - reflexivity.
  - exact example_draws_flows.
  - exact example_values.
  - split; [apply (H1 Example.simple_params)
           | apply (H2 Example.overdispersed_params)].
Defined.

(** Above [2 ^ 24] the flows are not recovered: after one new exposure in
    a population of 33554433, [transition_bwd] conditions [S2E_0] on 0. *)
Lemma transition_bwd_misses_flow_above_2_24 :
  ∃ curr tr1 sites,
    SimpleSEIRModel.transition_fwd Example.large_draw Example.large
      Example.simple_params Example.large_state0 0 [] = Ok (curr, tr1)
    ∧ draws_flows Example.large_draw 0 1 0 0
    ∧ SimpleSEIRModel.transition_bwd Example.large_draw Example.large
        Example.simple_params Example.large_state0 curr 0 []
      = Ok (tt, sites)
    ∧ observations sites !! 0%nat = Some ("S2E_0", Some (as_tensor 0))
    ∧ as_tensor 0 ≠ as_tensor 1.
Proof.
  destruct large_state0_holds as (HS & HE & HI).
  destruct (simple_fwd_run Example.large_draw Example.large
              Example.large_state0 0 [] _ _ _ HS HE HI)
    with (R0 := RParam "R0") (tau_e := RParam "tau_e")
         (tau_i := RParam "tau_i") (rho := RParam "rho") as [tr' Hrun].
  { simpl. lia. }
  eexists _, tr', _. split; [exact Hrun|]. split; [by repeat split|].
  split.
  - eapply (simple_bwd_run Example.large_draw Example.large
              Example.large_state0 0 [] _ _ _ HS HE HI);
      [by simplify_map_eq.. | reflexivity].
  - split; [|discriminate]. vm_compute. reflexivity.
Qed.

(** C10: constructing a [SimpleSEIRModel] or an [OverdispersedSEIRModel]
    fails with an assertion error unless [incubation_time] and
    [recovery_time] are both floats strictly greater than 1, and succeeds
    if they are and the base class accepts its arguments.  When the
    construction succeeds, the model's duration is the length of the data
    series, and [initialize] returns [S = population - 1], [E = 0],
    [I = 1], for which the implicit [R] is 0. *)
Theorem seir_construction_and_initial_state
    (base_valid : list string → nat → Z → bool) (pop : Z)
    (inc rec : pyobj) (series : list tensor) :
  (¬ (float_gt_one inc ∧ float_gt_one rec) →
     SimpleSEIRModel.init base_valid pop inc rec series tt
     = Raise AssertionError
     ∧ OverdispersedSEIRModel.init base_valid pop inc rec series tt
       = Raise AssertionError)
  ∧ (base_valid ["S"; "E"; "I"] (length series) pop = true →
     float_gt_one inc → float_gt_one rec →
     ∃ m, SimpleSEIRModel.init base_valid pop inc rec series tt
          = Ok (m, tt)
          ∧ OverdispersedSEIRModel.init base_valid pop inc rec series tt
            = Ok (m, tt))
  ∧ (∀ m,
       SimpleSEIRModel.init base_valid pop inc rec series tt = Ok (m, tt)
       ∨ OverdispersedSEIRModel.init base_valid pop inc rec series tt
         = Ok (m, tt) →
       float_gt_one inc ∧ float_gt_one rec
       ∧ duration m = length series
       ∧ data m = series
       ∧ population m = pop
       ∧ OverdispersedSEIRModel.initialize m = SimpleSEIRModel.initialize m
       ∧ SimpleSEIRModel.initialize m !! "S" = Some (population m - 1)
       ∧ SimpleSEIRModel.initialize m !! "E" = Some 0
       ∧ SimpleSEIRModel.initialize m !! "I" = Some 1
       ∧ dom (SimpleSEIRModel.initialize m) = {[ "S"; "E"; "I" ]}
       ∧ implicit_R (population m) (SimpleSEIRModel.initialize m)
         = Some 0).
Proof.
  split_and!.
  - intros Hn. split.
    + by apply simple_init_rejects.
    + by apply overdispersed_init_rejects.
  - intros Hb Hi Hr. eexists. by apply init_returns.
  - intros m Hm.
    assert (m = Model ["S"; "E"; "I"] (length series) pop inc rec series
            ∧ float_gt_one inc ∧ float_gt_one rec) as (-> & Hi & Hr).
    { destruct Hm as [Hm|Hm];
        [ by eapply simple_init_accepts
        | by eapply overdispersed_init_accepts ]. }
    destruct (initialize_lookups pop) as (HS & HE & HI & Hdom & HR).
    unfold SimpleSEIRModel.initialize, OverdispersedSEIRModel.initialize.
    simpl. by repeat split.
Qed.

Lemma seir_construction_and_initial_state_witness :
  (SimpleSEIRModel.init Example.base_valid 100 (PyInt 5)
     (PyFloat Example.two) (as_tensor <$> [4; 7; 9]) tt = Raise AssertionError
   ∧ OverdispersedSEIRModel.init Example.base_valid 100 (PyFloat Example.five)
       (PyFloat float_one) (as_tensor <$> [4; 7; 9]) tt = Raise AssertionError)
  ∧ SimpleSEIRModel.init Example.base_valid 100 (PyFloat Example.five)
      (PyFloat Example.two) (as_tensor <$> [4; 7; 9]) tt = Ok (Example.self, tt)
  ∧ duration Example.self = 3%nat
  ∧ SimpleSEIRModel.initialize Example.self !! "S" = Some 99
  ∧ implicit_R 100 (SimpleSEIRModel.initialize Example.self) = Some 0.
Proof.
  destruct (seir_construction_and_initial_state Example.base_valid 100
              (PyInt 5) (PyFloat Example.two) (as_tensor <$> [4; 7; 9]))
    as (Hrej1 & _ & _).
  destruct (seir_construction_and_initial_state Example.base_valid 100
              (PyFloat Example.five) (PyFloat float_one) (as_tensor <$> [4; 7; 9]))
    as (Hrej2 & _ & _).
  destruct (seir_construction_and_initial_state Example.base_valid 100
              (PyFloat Example.five) (PyFloat Example.two) (as_tensor <$> [4; 7; 9]))
    as (_ & Hacc & Hafter).
  split; [split|].
  - apply Hrej1. intros [(f & Hf & _) _]. discriminate Hf.
  - apply Hrej2. intros [_ (f & [= <-] & Hf)]. discriminate Hf.
  - destruct Hacc as (m & Hm & _); [reflexivity | by eexists..|].
    assert (Example.self = m) as <- by (by injection Hm).
    split; [exact Hm|].
    destruct (Hafter Example.self (or_introl Hm))
      as (_ & _ & Hd & _ & _ & _ & HS & _ & _ & _ & HR).
    by repeat split.
Defined.

(** *** Error behaviour of the transitions *)

Lemma simple_fwd_trace draw self state t tr s e i R0 tau_e tau_i rho :
  state !! "S" = Some s → state !! "E" = Some e → state !! "I" = Some i →
  (t < duration self → t < length (data self))%nat →
  let S2E := draw (format "S2E_" t)
               (infection_dist (RDiv R0 tau_i) s i (population self) None)
  in
  let E2I := draw (format "E2I_" t) (Binomial e (RDiv (RInt 1) tau_e)) in
  let I2R := draw (format "I2R_" t) (Binomial i (RDiv (RInt 1) tau_i)) in
  SimpleSEIRModel.transition_fwd draw self (R0, tau_e, tau_i, rho)
    state t tr
  = Ok (<["I" := sub (add i E2I) I2R]>
          (<["E" := sub (add e S2E) E2I]> (<["S" := sub s S2E]> state)),
        tr ++
        [ Site (format "S2E_" t)
            (infection_dist (RDiv R0 tau_i) s i (population self) None)
            None;
          Site (format "E2I_" t) (Binomial e (RDiv (RInt 1) tau_e)) None;
          Site (format "I2R_" t) (Binomial i (RDiv (RInt 1) tau_i)) None;
          Site (format "obs_" t) (ExtendedBinomial E2I rho)
            (if bool_decide (t < duration self)%nat then data self !! t
             else None) ]).
Proof.
  intros HS HE HI Hdata S2E E2I I2R.
  unfold SimpleSEIRModel.transition_fwd.
  repeat step. rewrite fwd_obs_ok by done. repeat step. unfold ret.
  by rewrite <- !app_assoc.
Qed.

Lemma overdispersed_fwd_trace draw self state t tr s e i R0 k tau_e tau_i
    rho :
  state !! "S" = Some s → state !! "E" = Some e → state !! "I" = Some i →
  (t < duration self → t < length (data self))%nat →
  let S2E := draw (format "S2E_" t)
               (infection_dist R0 s i (population self) (Some k)) in
  let E2I := draw (format "E2I_" t) (Binomial e (RDiv (RInt 1) tau_e)) in
  let I2R := draw (format "I2R_" t) (Binomial i (RDiv (RInt 1) tau_i)) in
  OverdispersedSEIRModel.transition_fwd draw self
    (R0, k, tau_e, tau_i, rho) state t tr
  = Ok (<["I" := sub (add i E2I) I2R]>
          (<["E" := sub (add e S2E) E2I]> (<["S" := sub s S2E]> state)),
        tr ++
        [ Site (format "E2I_" t) (Binomial e (RDiv (RInt 1) tau_e)) None;
          Site (format "I2R_" t) (Binomial i (RDiv (RInt 1) tau_i)) None;
          Site (format "S2E_" t)
            (infection_dist R0 s i (population self) (Some k)) None;
          Site (format "obs_" t) (ExtendedBinomial E2I rho)
            (if bool_decide (t < duration self)%nat then data self !! t
             else None) ]).
Proof.
  intros HS HE HI Hdata S2E E2I I2R.
  unfold OverdispersedSEIRModel.transition_fwd.
  repeat step. rewrite fwd_obs_ok by done. repeat step. unfold ret.
  by rewrite <- !app_assoc.
Qed.

Lemma bind_getitem_None {St V A} (d : gmap string V) (k : string)
    (f : V → M St A) (st : St) :
  d !! k = None → bind (getitem d k) f st = Raise (KeyError k).
Proof. unfold bind, getitem. by intros ->. Qed.

Lemma has_compartments_lookups (state : gmap string tensor) :
  has_compartments state ↔
  ∃ s e i, state !! "S" = Some s ∧ state !! "E" = Some e
           ∧ state !! "I" = Some i.
Proof.
  split.
  - intros ([s ?] & [e ?] & [i ?]). by exists s, e, i.
  - intros (s & e & i & ? & ? & ?). by split_and!.
Qed.

Lemma simple_fwd_missing draw self params state t tr :
  ¬ has_compartments state →
  ∃ k, k ∈ ["S"; "E"; "I"] ∧ state !! k = None
       ∧ SimpleSEIRModel.transition_fwd draw self params state t tr
         = Raise (KeyError k).
Proof.
  destruct params as [[[R0 tau_e] tau_i] rho]. intros Hn.
  unfold SimpleSEIRModel.transition_fwd.
  destruct (state !! "S") as [s|] eqn:HS; [|exists "S"];
    [|split_and!; [set_solver | done | by apply bind_getitem_None]].
  destruct (state !! "I") as [i|] eqn:HI; [|exists "I"];
    [|split_and!; [set_solver | done |];
      step; by apply bind_getitem_None].
  destruct (state !! "E") as [e|] eqn:HE; [|exists "E"];
    [|split_and!; [set_solver | done |];
      repeat step; by apply bind_getitem_None].
  destruct Hn. by split_and!.
Qed.

Lemma overdispersed_fwd_missing draw self params state t tr :
  ¬ has_compartments state →
  ∃ k, k ∈ ["S"; "E"; "I"] ∧ state !! k = None
       ∧ OverdispersedSEIRModel.transition_fwd draw self params state t tr
         = Raise (KeyError k).
Proof.
  destruct params as [[[[R0 k0] tau_e] tau_i] rho]. intros Hn.
  unfold OverdispersedSEIRModel.transition_fwd.
  destruct (state !! "E") as [e|] eqn:HE; [|exists "E"];
    [|split_and!; [set_solver | done | by apply bind_getitem_None]].
  destruct (state !! "I") as [i|] eqn:HI; [|exists "I"];
    [|split_and!; [set_solver | done |];
      repeat step; by apply bind_getitem_None].
  destruct (state !! "S") as [s|] eqn:HS; [|exists "S"];
    [|split_and!; [set_solver | done |];
      repeat step; by apply bind_getitem_None].
  destruct Hn. by split_and!.
Qed.







(** *** Round trip and runs of several steps *)



Lemma for_each_snoc {St A B} (l : list A) (x : A) (body : B → A → M St B)
    (acc : B) (st : St) :
  for_each (l ++ [x]) body acc st
  = bind (for_each l body acc) (λ acc', body acc' x) st.
Proof.
  revert acc st. induction l as [|a l IH]; intros acc st; simpl.
  - unfold bind, ret. by destruct (body acc x st) as [[??]|].
  - unfold bind. destruct (body acc a st) as [[b st1]|]; [|done].
    by rewrite IH.
Qed.

Section steps.
Variable draw : string → dist → tensor.
Variable self : model.
Variables S2E E2I I2R : nat → Z.
Variables s e i : Z.
Variable n : nat.
Hypothesis Hdraw :
  ∀ t, (t < n)%nat → draws_flows draw t (S2E t) (E2I t) (I2R t).
Hypothesis Hdata :
  ∀ t, (t < n)%nat → (t < duration self → t < length (data self))%nat.
Hypothesis Hvalues :
  ∀ t, (t < n)%nat →
       Forall representable (run_values s e i S2E E2I I2R t).

Lemma run_values_next t :
  run_values s e i S2E E2I I2R t
  = fwd_values (s - sum_to S2E t) (e + sum_to S2E t - sum_to E2I t)
      (i + sum_to E2I t - sum_to I2R t) (S2E t) (E2I t) (I2R t).
Proof. done. Qed.

Lemma simple_fwd_steps params (state : gmap string tensor) tr m :
  (m ≤ n)%nat →
  holds state s e i →
  ∃ state' tr',
    for_each (seq 0 m)
      (λ st t, SimpleSEIRModel.transition_fwd draw self params st t)
      state tr
    = Ok (state', tr')
    ∧ holds state' (s - sum_to S2E m) (e + sum_to S2E m - sum_to E2I m)
        (i + sum_to E2I m - sum_to I2R m).
Proof.
  intros Hm Hstate. induction m as [|m IH].
  - exists state, tr. simpl. split; [done|].
    by rewrite !Z.sub_0_r, !Z.add_0_r.
  - destruct IH as (st1 & tr1 & Hrun & Hst1); [lia|].
    rewrite seq_S, for_each_snoc. unfold bind at 1. rewrite Hrun. simpl.
    destruct (simple_fwd_whole draw self st1 m tr1 _ _ _ _ _ _ Hst1
                (Hdata m Hm) (Hdraw m Hm) (Hvalues m Hm) params)
      as (state' & tr' & Hstep & HS' & HE' & HI').
    exists state', tr'. split; [exact Hstep|].
    unfold holds. rewrite HS', HE', HI'.
    split_and!; do 2 f_equal; lia.
Qed.

Lemma overdispersed_fwd_steps params (state : gmap string tensor) tr m :
  (m ≤ n)%nat →
  holds state s e i →
  ∃ state' tr',
    for_each (seq 0 m)
      (λ st t, OverdispersedSEIRModel.transition_fwd draw self params st t)
      state tr
    = Ok (state', tr')
    ∧ holds state' (s - sum_to S2E m) (e + sum_to S2E m - sum_to E2I m)
        (i + sum_to E2I m - sum_to I2R m).
Proof.
  intros Hm Hstate. induction m as [|m IH].
  - exists state, tr. simpl. split; [done|].
    by rewrite !Z.sub_0_r, !Z.add_0_r.
  - destruct IH as (st1 & tr1 & Hrun & Hst1); [lia|].
    rewrite seq_S, for_each_snoc. unfold bind at 1. rewrite Hrun. simpl.
    destruct (overdispersed_fwd_whole draw self st1 m tr1 _ _ _ _ _ _ Hst1
                (Hdata m Hm) (Hdraw m Hm) (Hvalues m Hm) params)
      as (state' & tr' & Hstep & HS' & HE' & HI').
    exists state', tr'. split; [exact Hstep|].
    unfold holds. rewrite HS', HE', HI'.
    split_and!; do 2 f_equal; lia.
Qed.

(** The compartments at the end of the run are among the numbers that
    the last step has handled, or the initial ones. *)
Lemma run_end_representable :
  representable s → representable e → representable i →
  representable (s - sum_to S2E n)
  ∧ representable (e + sum_to S2E n - sum_to E2I n)
  ∧ representable (i + sum_to E2I n - sum_to I2R n).
Proof.
  intros Hs He Hi. destruct n as [|m] eqn:Hn.
  - simpl. by rewrite !Z.sub_0_r, !Z.add_0_r.
  - assert (Hm : (m < n)%nat) by lia. rewrite Hn in Hm.
    pose proof (Hvalues m Hm) as Hv. rewrite run_values_next in Hv.
    values Hv. simpl sum_to.
    match goal with
    | H1 : representable (s - sum_to S2E m - S2E m),
      H2 : representable (_ + S2E m - E2I m),
      H3 : representable (_ + E2I m - I2R m) |- _ =>
        split_and!;
        [ replace (s - (sum_to S2E m + S2E m))
            with (s - sum_to S2E m - S2E m) by lia; exact H1
        | replace (e + (sum_to S2E m + S2E m) - (sum_to E2I m + E2I m))
            with (e + sum_to S2E m - sum_to E2I m + S2E m - E2I m) by lia;
          exact H2
        | replace (i + (sum_to E2I m + E2I m) - (sum_to I2R m + I2R m))
            with (i + sum_to E2I m - sum_to I2R m + E2I m - I2R m) by lia;
          exact H3 ]
    end.
Qed.

End steps.

Lemma totals_of_counts pop (state : gmap string tensor) s e i :
  holds state s e i →
  representable s → representable e → representable i →
  total (counts state) = Some (s + e + i)
  ∧ implicit_R pop (counts state) = Some (pop - s - e - i).
Proof.
  intros Hst Hs He Hi.
  destruct (counts_holds _ _ _ _ Hst Hs He Hi) as (HS & HE & HI).
  unfold total, implicit_R. by rewrite HS, HE, HI.
Qed.







End seir.

(** ** [terms_from_trace] and [Trace_ELBO] *)

Section monad_facts.
Context {St : Type}.

Lemma bind_Ok {A B} (c : M St A) (k : A → M St B) s b s' :
  bind c k s = Ok (b, s') ↔ ∃ a s1, c s = Ok (a, s1) ∧ k a s1 = Ok (b, s').
Proof.
  unfold bind. destruct (c s) as [[a s1]|e]; split.
  - eauto.
  - by intros (? & ? & [= <- <-] & ?).
  - done.
  - by intros (? & ? & ? & ?).
Qed.

Lemma ret_Ok {A} (a b : A) (s s' : St) :
  ret a s = Ok (b, s') ↔ b = a ∧ s' = s.
Proof. unfold ret. split; [by intros [= -> ->] | by intros [-> ->]]. Qed.

Lemma getitem_Ok {V} (d : gmap string V) k v (s s' : St) :
  getitem d k s = Ok (v, s') ↔ d !! k = Some v ∧ s' = s.
Proof.
  unfold getitem. destruct (d !! k); unfold ret, raise; split;
    try done; [by intros [= -> ->] | by intros [[= ->] ->] | by intros []].
Qed.

(** Loop invariants: [P] relates the part of the list already visited
    with the accumulator and the store. *)
Lemma for_each_inv {A B} (body : B → A → M St B)
    (P : list A → B → St → Prop) l acc s acc' s' :
  P [] acc s →
  (∀ pre x post b st b' st',
      l = pre ++ x :: post → P pre b st → body b x st = Ok (b', st') →
      P (pre ++ [x]) b' st') →
  for_each l body acc s = Ok (acc', s') →
  P l acc' s'.
Proof.
  intros H0 Hstep.
  enough (∀ post pre b st,
             l = pre ++ post → P pre b st →
             for_each post body b st = Ok (acc', s') → P l acc' s')
    as Hgen by (by apply (Hgen l [] acc s)).
  induction post as [|x post IH]; intros pre b st Hl HP Hrun.
  - apply ret_Ok in Hrun as [-> ->]. by rewrite Hl, app_nil_r.
  - simpl in Hrun. apply bind_Ok in Hrun as (b1 & s1 & Hx & Hrest).
    apply (IH (pre ++ [x]) b1 s1); [by rewrite <- app_assoc | | done].
    by eapply Hstep.
Qed.

(** A loop whose body always returns, returns. *)
Lemma for_each_total {A B} (body : B → A → M St B)
    (P : B → St → Prop) l acc s :
  P acc s →
  (∀ x b st, x ∈ l → P b st →
             ∃ b' st', body b x st = Ok (b', st') ∧ P b' st') →
  ∃ acc' s', for_each l body acc s = Ok (acc', s') ∧ P acc' s'.
Proof.
  revert acc s. induction l as [|x l IH]; intros acc s HP Hbody.
  - by exists acc, s.
  - destruct (Hbody x acc s) as (b1 & s1 & Hx & HP1); [left | done |].
    destruct (IH b1 s1 HP1) as (acc' & s' & Hrun & HP').
    { intros y b st Hy. apply Hbody. by right. }
    exists acc', s'. split; [|done].
    simpl. unfold bind. by rewrite Hx.
Qed.
End monad_facts.

Section terms_from_trace.
Import TraceElbo.
Context `{Library}.

Implicit Types (tr : Trace) (t : terms) (n : node).

(** *** The markov-chain branch *)

Lemma has_log_measure_Ok var tr b tr' :
  has_log_measure var tr = Ok (b, tr') →
  tr' = tr ∧ (b = true ↔ carries_log_measure tr var).
Proof.
  unfold has_log_measure, carries_log_measure, site_log_measure.
  intros (tr1 & s1 & [= <- <-] & Hrun)%bind_Ok.
  destruct (nodes_getitem tr var) as [n|e]; [|done].
  destruct (node_funsor n) as [fd|] eqn:Hfd; [|done].
  apply ret_Ok in Hrun as [-> ->]. split; [done|].
  rewrite bool_decide_eq_true. split.
  - intros Hlm. exists n. by rewrite Hfd.
  - intros (n' & [= <-] & Hlm). by rewrite Hfd in Hlm.
Qed.

Lemma vars_with_log_measure_Ok vars tr vs tr' :
  vars_with_log_measure vars tr = Ok (vs, tr') →
  tr' = tr ∧ ∀ v, v ∈ vs ↔ v ∈ vars ∧ carries_log_measure tr v.
Proof.
  revert vs tr'. induction vars as [|var vars IH]; intros vs tr' Hrun.
  - apply ret_Ok in Hrun as [-> ->]. split; [done|]. set_solver.
  - simpl in Hrun.
    apply bind_Ok in Hrun as (b & s1 & [-> Hb]%has_log_measure_Ok & Hrun).
    apply bind_Ok in Hrun as (rest & s2 & [-> Hrest]%IH & Hrun).
    apply ret_Ok in Hrun as [-> ->]. split; [done|].
    intros v. rewrite elem_of_cons. destruct b.
    + rewrite elem_of_union, elem_of_singleton, Hrest.
      destruct Hb as [Hb _]. specialize (Hb eq_refl).
      split; [intros [->|[??]]; auto | intros [[->|?] ?]; auto].
    + rewrite Hrest. split; [intros [??]; auto|].
      intros [[->|?] Hc]; [|done].
      destruct Hb as [_ Hb]. by specialize (Hb Hc).
Qed.

Lemma markov_step_Ok t step tr t' tr' :
  markov_step t step tr = Ok (t', tr') →
  tr' = tr ∧ same_but_measure_vars t t'
  ∧ ∀ v, v ∈ measure_vars t' ↔
         v ∈ measure_vars t
         ∨ (v ∈ slice_1_m1 step ∧ carries_log_measure tr v).
Proof.
  unfold markov_step.
  intros (vs & s1 & [-> Hvs]%vars_with_log_measure_Ok & Hrun)%bind_Ok.
  apply ret_Ok in Hrun as [-> ->]. split; [done|]. split; [done|].
  intros v. simpl. rewrite elem_of_union, Hvs. done.
Qed.

Lemma markov_loop_Ok steps t tr t' tr' :
  for_each steps markov_step t tr = Ok (t', tr') →
  tr' = tr ∧ same_but_measure_vars t t'
  ∧ ∀ v, v ∈ measure_vars t' ↔
         v ∈ measure_vars t
         ∨ ∃ step, step ∈ steps ∧ v ∈ slice_1_m1 step
                   ∧ carries_log_measure tr v.
Proof.
  intros Hrun.
  apply (for_each_inv markov_step
           (λ pre b st,
              st = tr ∧ same_but_measure_vars t b
              ∧ ∀ v, v ∈ measure_vars b ↔
                     v ∈ measure_vars t
                     ∨ ∃ step, step ∈ pre ∧ v ∈ slice_1_m1 step
                               ∧ carries_log_measure tr v)) in Hrun;
    [done | |].
  - split; [done|]. split; [done|]. intros v. set_solver.
  - intros pre step post b st b' st' _ (-> & Hsame & Hmv) Hstep.
    apply markov_step_Ok in Hstep as (-> & Hsame' & Hmv').
    split; [done|]. split.
    { unfold same_but_measure_vars in *. naive_solver congruence. }
    intros v. rewrite Hmv', Hmv. setoid_rewrite elem_of_app.
    setoid_rewrite list_elem_of_singleton. naive_solver.
Qed.

(** *** The body of the loop *)

Lemma not_scored_markov n :
  String.eqb (node_type n) "markov_chain" = true → not_scored n = true.
Proof.
  intros Hm%String.eqb_eq. unfold not_scored. by rewrite Hm.
Qed.

(** A site that is skipped leaves everything but [measure_vars] and
    [plate_to_step] as it is, and these too unless it is a markov
    chain. *)
Lemma visit_not_scored t i name n tr t' tr' :
  not_scored n = true →
  visit t (i, (name, n)) tr = Ok (t', tr') →
  tr' = tr
  ∧ log_factors t' = log_factors t ∧ log_measures t' = log_measures t
  ∧ scale t' = scale t ∧ plate_vars t' = plate_vars t
  ∧ (node_type n ≠ "markov_chain" → t' = t)
  ∧ (node_type n = "markov_chain" →
     plate_to_step t'
     = <[node_name n := node_value n]> (plate_to_step t)
     ∧ ∀ v, v ∈ measure_vars t' ↔
            v ∈ measure_vars t
            ∨ ∃ step, step ∈ node_value n ∧ v ∈ slice_1_m1 step
                      ∧ carries_log_measure tr v).
Proof.
  intros Hns. unfold visit. rewrite Hns.
  intros (t1 & s1 & Hm & Hrun)%bind_Ok.
  apply ret_Ok in Hrun as [-> ->].
  destruct (String.eqb (node_type n) "markov_chain") eqn:Htype.
  - apply String.eqb_eq in Htype.
    apply markov_loop_Ok in Hm as (-> & (? & ? & ? & ? & Hpts) & Hmv).
    split_and!; done.
  - apply String.eqb_neq in Htype.
    apply ret_Ok in Hm as [-> ->]. split_and!; done.
Qed.

Lemma scored_is_sample n :
  not_scored n = false →
  node_type n = "sample"
  ∧ String.eqb (node_type n) "markov_chain" = false.
Proof.
  unfold not_scored. intros [[Ht _]%orb_false_elim _]%orb_false_elim.
  apply negb_false_iff, String.eqb_eq in Ht. by rewrite Ht.
Qed.

Lemma common_scale_cond_Ok n fd t tr c tr' :
  common_scale_cond n fd t tr = Ok (c, tr') → tr' = tr.
Proof.
  unfold common_scale_cond.
  destruct (default false (replay_active n));
    [|by intros [_ ->]%ret_Ok].
  intros (lp & s1 & [_ ->]%getitem_Ok & Hc)%bind_Ok.
  case_bool_decide; [|by apply ret_Ok in Hc as [_ ->]].
  apply bind_Ok in Hc as (sc & s2 & [_ ->]%getitem_Ok & Hc).
  by apply ret_Ok in Hc as [_ ->].
Qed.

Lemma visit_scored t i name n tr t' tr' :
  not_scored n = false →
  visit t (i, (name, n)) tr = Ok (t', tr') →
  ∃ fd,
    node_funsor n = Some fd
    ∧ plate_to_step t' = plate_to_step t
    ∧ plate_vars t' = plate_vars t ∪ site_plates n
    ∧ log_measures t'
      = log_measures t ++ option_list (fd !! "log_measure")
    ∧ (is_Some (fd !! "log_measure") → is_Some (fd !! "value"))
    ∧ measure_vars t'
      = measure_vars t ∪ fresh_vars name fd (plate_vars t')
    ∧ (if observed_or_replayed n
       then ∃ f, log_factors t' = log_factors t ++ [f]
                 ∧ log_factor_of (name, n) f
       else log_factors t' = log_factors t)
    ∧ (scale t' = scale t ∨ fd !! "scale" = Some (scale t'))
    ∧ (tr' = tr
       ∨ ∃ fd', tr' = <[i := (name, set_node_funsor fd' n)]> tr
                ∧ fd' !! "log_measure" = fd !! "log_measure").
Proof.
  intros Hns. destruct (scored_is_sample n Hns) as [Hsample Hnm].
  unfold visit. rewrite Hns, Hnm.
  intros (t0 & s0 & [-> ->]%ret_Ok & Hrun)%bind_Ok.
  apply bind_Ok in Hrun as (fd & s1 & Hfd & Hrun).
  destruct (node_funsor n) as [fd0|] eqn:Hnf; [|done].
  apply ret_Ok in Hfd as [-> ->]. exists fd0. split; [done|].
  apply bind_Ok in Hrun as (t1 & s1 & Hlm & Hrun).
  set (tp := set_plate_vars _ t) in *.
  assert (plate_to_step t1 = plate_to_step t
          ∧ plate_vars t1 = plate_vars t ∪ site_plates n
          ∧ log_factors t1 = log_factors t ∧ scale t1 = scale t
          ∧ log_measures t1
            = log_measures t ++ option_list (fd0 !! "log_measure")
          ∧ (is_Some (fd0 !! "log_measure") → is_Some (fd0 !! "value"))
          ∧ measure_vars t1
            = measure_vars t ∪ fresh_vars name fd0 (plate_vars t1)
          ∧ s1 = tr) as (Hpts & Hpv & Hlf & Hsc & Hlms & Hval & Hmv & ->).
  { unfold fresh_vars. unfold grab_log_measure in Hlm.
    destruct (fd0 !! "log_measure") as [lm|].
    - apply bind_Ok in Hlm as (value & s2 & [Hv ->]%getitem_Ok & Hlm).
      apply ret_Ok in Hlm as [-> ->]. rewrite Hv. by split_and!.
    - apply ret_Ok in Hlm as [-> ->]. simpl.
      split_and!; try done;
        first [ by rewrite app_nil_r | by intros [??] | set_solver ]. }
  apply bind_Ok in Hrun as ([t2 fd2] & s3 & Hbr & Hrun).
  unfold grab_scale in Hbr.
  apply bind_Ok in Hbr as (c & s2 & Hc & Hbr).
  apply common_scale_cond_Ok in Hc as ->.
  assert (plate_to_step t2 = plate_to_step t1
          ∧ plate_vars t2 = plate_vars t1
          ∧ log_factors t2 = log_factors t1
          ∧ log_measures t2 = log_measures t1
          ∧ measure_vars t2 = measure_vars t1
          ∧ (scale t2 = scale t1 ∨ fd0 !! "scale" = Some (scale t2))
          ∧ fd2 !! "log_measure" = fd0 !! "log_measure"
          ∧ (∀ lp, fd2 !! "log_prob" = Some lp →
                   log_factor_of (name, n) lp)
          ∧ (s3 = tr
             ∨ s3 = <[i := (name, set_node_funsor fd2 n)]> tr))
    as (Hpts2 & Hpv2 & Hlf2 & Hlms2 & Hmv2 & Hsc2 & Hfd2 & Hlp2 & Hs3).
  { destruct c.
    - apply bind_Ok in Hbr as (sc & s4 & [Hsc' ->]%getitem_Ok & Hbr).
      apply ret_Ok in Hbr as [[= -> ->] ->].
      split_and!; try done; [by right | | by left].
      intros lp Hlp. exists fd0, lp. simpl. auto.
    - apply bind_Ok in Hbr as (lp & s4 & [Hlp ->]%getitem_Ok & Hbr).
      apply bind_Ok in Hbr as (sc & s5 & [Hsc' ->]%getitem_Ok & Hbr).
      apply bind_Ok in Hbr as ([] & s6 & [= <-] & Hbr).
      apply ret_Ok in Hbr as [[= -> ->] ->].
      split_and!; try done; [by left | by rewrite lookup_insert_ne | 
                             | by right].
      intros lp'. rewrite lookup_insert_eq. intros [= <-].
      exists fd0, lp. simpl. split_and!; [done..|]. right. eauto. }
  assert (Hstore : s3 = tr
                   ∨ ∃ fd', s3 = <[i := (name, set_node_funsor fd' n)]> tr
                            ∧ fd' !! "log_measure" = fd0 !! "log_measure").
  { destruct Hs3 as [->| ->]; [by left | right; eauto]. }
  assert (Hscale : scale t2 = scale t ∨ fd0 !! "scale" = Some (scale t2)).
  { destruct Hsc2 as [Hsc2|?]; [left; by rewrite Hsc2 | by right]. }
  assert (Hmeasure : measure_vars t2
                     = measure_vars t ∪ fresh_vars name fd0 (plate_vars t2)).
  { by rewrite Hmv2, Hpv2. }
  rewrite Hpv in Hpv2. rewrite Hpts in Hpts2. rewrite Hlms in Hlms2.
  rewrite Hlf in Hlf2.
  unfold observed_or_replayed. unfold grab_log_density in Hrun.
  destruct (is_observed n || negb (default false (replay_skipped n))).
  - apply bind_Ok in Hrun as (lp & s4 & [Hlp ->]%getitem_Ok & Hrun).
    apply ret_Ok in Hrun as [-> ->]. simpl.
    split_and!; try done.
    exists lp. rewrite Hlf2. split; [done|]. by apply Hlp2.
  - apply ret_Ok in Hrun as [-> ->].
    split_and!; done.
Qed.

(** *** The store along the loop

    The loop only rewrites the ["log_prob"] entry of the node it is at:
    the keys of the trace, and which sites carry which log-measure, stay
    as they were. *)

Lemma agree_refl tr : agree tr tr.
Proof. apply Forall2_same_length_lookup_2; [done|]. naive_solver. Qed.

Lemma agree_getitem tr tr' var :
  agree tr tr' →
  match nodes_getitem tr var, nodes_getitem tr' var with
  | Ok n, Ok n' => site_log_measure n = site_log_measure n'
                   ∧ (is_Some (node_funsor n) ↔ is_Some (node_funsor n'))
  | Raise _, Raise _ => True
  | _, _ => False
  end.
Proof.
  induction 1 as [|[k n] [k' n'] tr tr' (Hk & Hlm & Hfd) _ IH]; [done|].
  simpl in *. subst k'. by destruct (decide (k = var)).
Qed.

Lemma agree_carries tr tr' var :
  agree tr tr' → carries_log_measure tr' var ↔ carries_log_measure tr var.
Proof.
  intros Hag. pose proof (agree_getitem tr tr' var Hag) as Hg.
  unfold carries_log_measure.
  destruct (nodes_getitem tr var) as [n|], (nodes_getitem tr' var) as [n'|];
    try done; [|naive_solver].
  destruct Hg as [Hlm _]. split.
  - intros (? & [= <-] & ?). exists n. by rewrite Hlm.
  - intros (? & [= <-] & ?). exists n'. by rewrite <- Hlm.
Qed.

Lemma agree_insert tr tr' i name n fd fd' :
  agree tr tr' → tr !! i = Some (name, n) → node_funsor n = Some fd →
  fd' !! "log_measure" = fd !! "log_measure" →
  agree tr (<[i := (name, set_node_funsor fd' n)]> tr').
Proof.
  intros Hag Hi Hfd Hlm.
  rewrite <- (list_insert_id tr i (name, n)) by done.
  apply Forall2_insert; [done|]. simpl.
  unfold site_log_measure. rewrite Hfd. simpl.
  split_and!; [done | by rewrite Hlm | done].
Qed.

(** Positions in the enumerated trace. *)
Lemma imap_pair_snd {A} (l : list A) (g : nat → nat) :
  (imap (λ i item, (g i, item)) l).*2 = l.
Proof.
  revert g. induction l as [|a l IH]; intros g; [done|].
  simpl. f_equal. apply (IH (g ∘ S)).
Qed.

Lemma imap_split tr (pre : list (nat * (string * node))) x post :
  imap (λ i item, (i, item)) tr = pre ++ x :: post →
  tr = pre.*2 ++ x.2 :: post.*2 ∧ tr !! x.1 = Some x.2.
Proof.
  intros Hl. split.
  - apply (f_equal (fmap snd)) in Hl.
    rewrite fmap_app, fmap_cons in Hl. rewrite <- Hl.
    symmetry. apply (imap_pair_snd tr id).
  - assert (Hx : imap (λ i item, (i, item)) tr !! length pre = Some x).
    { rewrite Hl. by apply list_lookup_middle. }
    rewrite list_lookup_imap in Hx.
    by apply fmap_Some in Hx as (item & Hi & ->).
Qed.

(** *** The loop invariant *)

Lemma plates_of_app (a b : Trace) :
  plates_of (a ++ b) = plates_of a ∪ plates_of b.
Proof. unfold plates_of. by rewrite fmap_app, union_list_app_L. Qed.

Lemma plates_of_singleton (item : string * node) :
  plates_of [item]
  = if not_scored item.2 then ∅ else site_plates item.2.
Proof. unfold plates_of. simpl. by rewrite (right_id_L ∅ (∪)). Qed.

Lemma markov_var_snoc tr items item v :
  markov_var tr (items ++ [item]) v ↔
  markov_var tr items v
  ∨ (is_markov_chain item
     ∧ ∃ step, step ∈ node_value item.2 ∧ v ∈ slice_1_m1 step
               ∧ carries_log_measure tr v).
Proof.
  unfold markov_var. split.
  - intros (item0 & step & [Hin| ->%list_elem_of_singleton]%elem_of_app
            & Hm & Hrest).
    + left. by exists item0, step.
    + right. split; [done|]. by exists step.
  - intros [(item0 & step & Hin & Hrest) | (Hm & step & Hrest)].
    + exists item0, step. split; [|done]. apply elem_of_app. by left.
    + exists item, step. split; [|done].
      apply elem_of_app. right. by apply list_elem_of_singleton.
Qed.

Lemma fresh_var_snoc items item v :
  fresh_var (items ++ [item]) v ↔
  fresh_var items v
  ∨ (not_scored item.2 = false
     ∧ ∃ fd, node_funsor item.2 = Some fd
             ∧ v ∈ fresh_vars item.1 fd (plates_of (items ++ [item]))).
Proof.
  unfold fresh_var. split.
  - intros (pre & name & n & post & fd & Hl & Hns & Hfd & Hv).
    destruct post as [|y post _] using rev_ind.
    + apply app_inj_tail in Hl as [-> ->]. right. simpl. eauto.
    + rewrite app_comm_cons, app_assoc in Hl.
      apply app_inj_tail in Hl as [-> ->]. left.
      by exists pre, name, n, post, fd.
  - intros [(pre & name & n & post & fd & -> & Hns & Hfd & Hv)
           | (Hns & fd & Hfd & Hv)].
    + exists pre, name, n, (post ++ [item]), fd.
      by rewrite <- app_assoc.
    + destruct item as [name n]. by exists items, name, n, [], fd.
Qed.

Lemma visited_nil tr : visited tr [] terms0 tr.
Proof.
  unfold visited, markov_var, fresh_var. simpl.
  split_and!; [apply agree_refl | done | constructor | done | | | by left].
  - intros k. rewrite dom_empty_L. set_solver.
  - intros v. split; [set_solver|].
    intros [(? & ? & []%elem_of_nil & _)
           | (pre & ? & ? & ? & ? & Hl & _)]; [done..|].
    by destruct pre.
Qed.

Lemma log_measure_of_singleton (item : string * node) :
  omap log_measure_of [item] = option_list (log_measure_of item).
Proof. simpl. by destruct (log_measure_of item). Qed.

Lemma has_log_factor_singleton (item : string * node) :
  filter (λ item, has_log_factor item = true) [item]
  = if has_log_factor item then [item] else [].
Proof.
  destruct (has_log_factor item) eqn:Hf.
  - by rewrite filter_cons_True by done.
  - by rewrite filter_cons_False by (by rewrite Hf).
Qed.

Lemma visited_step tr pre i name n post t store t' store' :
  tr = pre ++ (name, n) :: post → tr !! i = Some (name, n) →
  visited tr pre t store →
  visit t (i, (name, n)) store = Ok (t', store') →
  visited tr (pre ++ [(name, n)]) t' store'.
Proof.
  intros Htr Hi (Hag & Hlms & Hlfs & Hpv & Hpts & Hmv & Hsc) Hvisit.
  assert (Hsc_mono :
            scale t = scale terms0
            ∨ (∃ item fd, item ∈ pre ∧ not_scored item.2 = false
                          ∧ node_funsor item.2 = Some fd
                          ∧ fd !! "scale" = Some (scale t)) →
            scale t = scale terms0
            ∨ (∃ item fd, item ∈ pre ++ [(name, n)]
                          ∧ not_scored item.2 = false
                          ∧ node_funsor item.2 = Some fd
                          ∧ fd !! "scale" = Some (scale t))).
  { intros [?|(item & fd & Hin & ?)]; [by left | right].
    exists item, fd. split; [|done]. apply elem_of_app. by left. }
  unfold visited.
  rewrite omap_app, log_measure_of_singleton, filter_app,
    has_log_factor_singleton, plates_of_app, plates_of_singleton.
  unfold log_measure_of, has_log_factor. simpl.
  destruct (not_scored n) eqn:Hns; simpl.
  - (* a site that is skipped *)
    apply visit_not_scored in Hvisit
      as (-> & Hlf' & Hlm' & Hsc' & Hpv' & Hother & Hmarkov); [|done].
    rewrite Hlf', Hlm', Hpv', Hsc', !app_nil_r, (right_id_L ∅ (∪)).
    split_and!; [done..| | | by apply Hsc_mono].
    + intros k. split.
      * destruct (decide (node_type n = "markov_chain")) as [Hm|Hm].
        -- destruct (Hmarkov Hm) as [-> _].
           rewrite dom_insert_L, elem_of_union, elem_of_singleton, Hpts.
           intros [->|(item & Hin & ?)].
           ++ exists (name, n). split; [|done].
              apply elem_of_app. right. by apply list_elem_of_singleton.
           ++ exists item. split; [|done]. apply elem_of_app. by left.
        -- rewrite (Hother Hm), Hpts. intros (item & Hin & ?).
           exists item. split; [|done]. apply elem_of_app. by left.
      * intros (item & [Hin| ->%list_elem_of_singleton]%elem_of_app
                & Hm & Hk).
        -- destruct (decide (node_type n = "markov_chain")) as [Hm'|Hm'].
           ++ destruct (Hmarkov Hm') as [-> _].
              rewrite dom_insert_L, elem_of_union, Hpts. right. eauto.
           ++ rewrite (Hother Hm'), Hpts. eauto.
        -- destruct (Hmarkov Hm) as [-> _].
           rewrite dom_insert_L, elem_of_union, elem_of_singleton.
           left. by rewrite <- Hk.
    + intros v. rewrite markov_var_snoc, fresh_var_snoc. simpl.
      rewrite Hns.
      destruct (decide (node_type n = "markov_chain")) as [Hm|Hm].
      * destruct (Hmarkov Hm) as [_ ->]. rewrite Hmv.
        setoid_rewrite (agree_carries tr store v Hag).
        unfold is_markov_chain. simpl. naive_solver.
      * rewrite (Hother Hm), Hmv.
        unfold is_markov_chain. simpl. naive_solver.
  - (* a scored sample site *)
    apply visit_scored in Hvisit
      as (fd & Hfd & Hpts' & Hpv' & Hlm' & Hval & Hmv' & Hlf' & Hsc' & Hst);
      [|done].
    destruct (scored_is_sample n Hns) as [Hsample _].
    assert (Hnm : ¬ is_markov_chain (name, n)).
    { unfold is_markov_chain. simpl. by rewrite Hsample. }
    split_and!.
    + destruct Hst as [->|(fd' & -> & Hfd')]; [done|].
      by eapply agree_insert.
    + rewrite Hlm', Hlms. unfold site_log_measure. by rewrite Hfd.
    + destruct (observed_or_replayed n).
      * destruct Hlf' as (f & -> & Hf).
        apply Forall2_app; [done|]. by repeat constructor.
      * by rewrite Hlf', app_nil_r.
    + by rewrite Hpv', Hpv.
    + intros k. rewrite Hpts', Hpts. split.
      * intros (item & Hin & ?). exists item. split; [|done].
        apply elem_of_app. by left.
      * intros (item & [Hin| ->%list_elem_of_singleton]%elem_of_app
                & Hm & Hk); [eauto | done].
    + intros v. rewrite markov_var_snoc, fresh_var_snoc. simpl.
      rewrite Hmv', elem_of_union, Hmv, Hpv', Hpv, plates_of_app,
        plates_of_singleton. simpl. rewrite Hns.
      split.
      * intros [[?|?]|Hv]; [by left; left | by right; left|].
        right; right. split; [done|]. by exists fd.
      * intros [[?|[? _]]|[?|(_ & fd' & Hfd'' & Hv)]];
          [by left; left | done | by left; right |].
        right. rewrite Hfd in Hfd''. by injection Hfd'' as <-.
    + destruct Hsc' as [->|Hsc']; [by apply Hsc_mono|]. right.
      exists (name, n), fd. split; [|done].
      apply elem_of_app. right. by apply list_elem_of_singleton.
Qed.

(** *** The whole trace *)

Lemma terms_from_trace_visited tr t tr' :
  terms_from_trace tr = Ok (t, tr') →
  ∃ t1,
    visited tr tr t1 tr'
    ∧ t = set_plate_to_step
            (set_to_map
               (λ plate, (plate, default [] (plate_to_step t1 !! plate)))
               (plate_vars t1) ∪ plate_to_step t1) t1.
Proof.
  unfold terms_from_trace.
  intros (tr0 & s0 & [= <- <-] & Hrun)%bind_Ok.
  apply bind_Ok in Hrun as (t1 & s1 & Hloop & Hrun).
  apply ret_Ok in Hrun as [-> ->]. exists t1. split; [|done].
  apply (for_each_inv visit (λ pre b st, visited tr pre.*2 b st)) in Hloop.
  - pose proof (imap_pair_snd tr id) as Hsnd. simpl in Hsnd.
    by rewrite Hsnd in Hloop.
  - apply visited_nil.
  - intros pre [i [name n]] post b st b' st' Hl Hpre Hvisit.
    apply imap_split in Hl as [Htr Hi]. simpl in *.
    rewrite fmap_app. simpl. by eapply visited_step.
Qed.

Lemma final_plate_to_step_lookup
    (pts : gmap string (list (list string))) (plates : gset string) k :
  (set_to_map (λ plate, (plate, default [] (pts !! plate))) plates ∪ pts)
    !! k
  = if decide (k ∈ plates) then Some (default [] (pts !! k)) else pts !! k.
Proof.
  set (f := λ plate : string, (plate, default [] (pts !! plate))).
  assert (Hinj : ∀ y y', y ∈ plates → y' ∈ plates →
                         (f y).1 = (f y').1 → y = y') by done.
  rewrite lookup_union. destruct (decide (k ∈ plates)) as [Hk|Hk].
  - assert (Hl : (set_to_map f plates : gmap _ _) !! k
                 = Some (default [] (pts !! k))).
    { apply lookup_set_to_map; [done|]. by exists k. }
    rewrite Hl. by destruct (pts !! k).
  - assert (Hl : (set_to_map f plates : gmap _ _) !! k = None).
    { apply eq_None_not_Some. intros [x Hx].
      apply lookup_set_to_map in Hx as (y & Hy & [= -> _]); done. }
    rewrite Hl. by destruct (pts !! k).
Qed.

(** *** [terms_from_trace] returns on well-formed traces *)

Lemma has_log_measure_total tr store var n :
  agree tr store → nodes_getitem tr var = Ok n → is_Some (node_funsor n) →
  ∃ b, has_log_measure var store = Ok (b, store).
Proof.
  intros Hag Hn Hfd. pose proof (agree_getitem tr store var Hag) as Hg.
  rewrite Hn in Hg. unfold has_log_measure, bind, get.
  destruct (nodes_getitem store var) as [n'|]; [|done].
  destruct Hg as [_ Hiff]. destruct (proj1 Hiff Hfd) as [fd Hfd'].
  rewrite Hfd'. by eexists.
Qed.

Lemma vars_with_log_measure_total tr store vars :
  agree tr store →
  (∀ var, var ∈ vars →
          ∃ n, nodes_getitem tr var = Ok n ∧ is_Some (node_funsor n)) →
  ∃ vs, vars_with_log_measure vars store = Ok (vs, store).
Proof.
  intros Hag. induction vars as [|var vars IH]; intros Hvars.
  - by eexists.
  - destruct (Hvars var) as (n & Hn & Hfd); [by left|].
    destruct (has_log_measure_total tr store var n Hag Hn Hfd) as [b Hb].
    destruct IH as [vs Hvs]; [intros ??; apply Hvars; by right|].
    simpl. unfold bind. rewrite Hb, Hvs. by eexists.
Qed.

Lemma markov_loop_total tr store steps t :
  agree tr store →
  (∀ step var, step ∈ steps → var ∈ slice_1_m1 step →
               ∃ n, nodes_getitem tr var = Ok n ∧ is_Some (node_funsor n)) →
  ∃ t', for_each steps markov_step t store = Ok (t', store).
Proof.
  intros Hag Hsteps.
  destruct (for_each_total markov_step (λ _ st, st = store) steps t store)
    as (t' & ? & Hrun & ->); [done | | by exists t'].
  intros step b st Hin ->.
  destruct (vars_with_log_measure_total tr store (slice_1_m1 step) Hag)
    as [vs Hvs]; [by intros ??; eapply Hsteps|].
  unfold markov_step, bind. rewrite Hvs. by eexists _, _.
Qed.

Lemma bind_returns {St A B} (c : M St A) (k : A → M St B) s :
  (∃ a s1, c s = Ok (a, s1) ∧ ∃ b s2, k a s1 = Ok (b, s2)) →
  ∃ b s2, bind c k s = Ok (b, s2).
Proof. intros (a & s1 & Hc & Hk). unfold bind. by rewrite Hc. Qed.

Lemma grab_log_measure_total name fd t (store : Trace) :
  (is_Some (fd !! "log_measure") → is_Some (fd !! "value")) →
  ∃ t', grab_log_measure name fd t store = Ok (t', store).
Proof.
  intros Hval. unfold grab_log_measure.
  destruct (fd !! "log_measure") as [lm|]; [|by eexists].
  destruct Hval as [value Hv]; [done|].
  erewrite bind_getitem by done. by eexists.
Qed.

Lemma grab_scale_total i name n fd t (store : Trace) :
  is_Some (fd !! "log_prob") → is_Some (fd !! "scale") →
  ∃ t' fd' store',
    grab_scale i name n fd t store = Ok ((t', fd'), store')
    ∧ is_Some (fd' !! "log_prob").
Proof.
  intros [lp Hlp] [sc Hsc]. unfold grab_scale.
  assert (∃ c, common_scale_cond n fd t store = Ok (c, store)) as [c Hc].
  { unfold common_scale_cond.
    destruct (default false (replay_active n)); [|by eexists].
    erewrite bind_getitem by done.
    case_bool_decide; [|by eexists].
    erewrite bind_getitem by done. by eexists. }
  unfold bind at 1. rewrite Hc. destruct c.
  - erewrite bind_getitem by done. by eexists _, _, _.
  - erewrite !bind_getitem by done. eexists _, _, _.
    split; [reflexivity|]. rewrite lookup_insert_eq. by eexists.
Qed.

Lemma grab_log_density_total n fd t (store : Trace) :
  is_Some (fd !! "log_prob") →
  ∃ t', grab_log_density n fd t store = Ok (t', store).
Proof.
  intros [lp Hlp]. unfold grab_log_density.
  destruct (is_observed n || negb (default false (replay_skipped n)));
    [|by eexists].
  erewrite bind_getitem by done. by eexists.
Qed.

Lemma visit_total tr store t i name n :
  well_formed tr → agree tr store → (name, n) ∈ tr →
  ∃ t' store', visit t (i, (name, n)) store = Ok (t', store').
Proof.
  intros [Hmarkov Hscored] Hag Hin. unfold visit.
  destruct (not_scored n) eqn:Hns.
  - destruct (String.eqb (node_type n) "markov_chain") eqn:Hm.
    + apply String.eqb_eq in Hm.
      edestruct (markov_loop_total tr store (node_value n)) as [t' Hrun];
        [done | by intros ????; eapply (Hmarkov (name, n)) |].
      unfold bind at 1. rewrite Hrun. by eexists _, _.
    + by eexists _, _.
  - destruct (scored_is_sample n Hns) as [_ ->].
    destruct (Hscored (name, n) Hin Hns)
      as (fd & Hfd & Hlp & Hsc & Hval).
    simpl in Hfd. rewrite Hfd.
    apply bind_returns. eexists _, _. split; [reflexivity|].
    apply bind_returns. eexists _, _. split; [reflexivity|].
    apply bind_returns.
    edestruct grab_log_measure_total as [t1 Ht1]; [exact Hval|].
    eexists _, _. split; [exact Ht1|].
    apply bind_returns.
    edestruct grab_scale_total as (t2 & fd2 & store2 & Ht2 & Hlp2);
      [exact Hlp | exact Hsc |].
    eexists _, _. split; [exact Ht2|].
    edestruct grab_log_density_total as [t3 Ht3]; [exact Hlp2|].
    eexists _, _. exact Ht3.
Qed.

Lemma visit_agree tr store t i name n t' store' :
  agree tr store → tr !! i = Some (name, n) →
  visit t (i, (name, n)) store = Ok (t', store') →
  agree tr store'.
Proof.
  intros Hag Hi Hvisit. destruct (not_scored n) eqn:Hns.
  - by apply visit_not_scored in Hvisit as (-> & _).
  - apply visit_scored in Hvisit
      as (fd & Hfd & _ & _ & _ & _ & _ & _ & _ & Hst); [|done].
    destruct Hst as [->|(fd' & -> & Hfd')]; [done|].
    by eapply agree_insert.
Qed.

Lemma terms_from_trace_total tr :
  well_formed tr → ∃ t tr', terms_from_trace tr = Ok (t, tr').
Proof.
  intros Hwf. unfold terms_from_trace, bind at 1, get.
  destruct (for_each_total visit (λ _ st, agree tr st)
              (imap (λ i item, (i, item)) tr) terms0 tr)
    as (t1 & tr' & Hrun & _).
  - apply agree_refl.
  - intros [i item] b st Hin Hag.
    apply list_elem_of_lookup in Hin as [j Hj].
    rewrite list_lookup_imap in Hj.
    apply fmap_Some in Hj as ([name n] & Hj & Heq).
    injection Heq as -> ->.
    destruct (visit_total tr st b j name n) as (b' & st' & Hv);
      [done | done | by eapply list_elem_of_lookup_2 |].
    exists b', st'. split; [done|]. by eapply visit_agree.
  - unfold bind. fold terms0. rewrite Hrun. by eexists _, _.
Qed.

(** *** The claims about [terms_from_trace] *)

(** C6: [terms_from_trace] returns on every well-formed trace, and after
    it has returned, the keys of [plate_to_step] contain the name of every
    markov chain of the trace and every variable of [plate_vars]; a plate
    that is not a markov chain is mapped to the empty step structure; and
    every previous-step variable of a markov chain that carries a
    log-measure is in [measure_vars]. *)
Theorem plate_to_step_keys_and_markov_measure_vars tr :
  (well_formed tr → ∃ t tr', terms_from_trace tr = Ok (t, tr'))
  ∧ ∀ t tr',
      terms_from_trace tr = Ok (t, tr') →
      (∀ item, item ∈ tr → is_markov_chain item →
               node_name item.2 ∈ dom (plate_to_step t))
      ∧ plate_vars t ⊆ dom (plate_to_step t)
      ∧ (∀ plate,
           plate ∈ plate_vars t →
           (∀ item, item ∈ tr → is_markov_chain item →
                    node_name item.2 ≠ plate) →
           plate_to_step t !! plate = Some [])
      ∧ (∀ item step var,
           item ∈ tr → is_markov_chain item → step ∈ node_value item.2 →
           var ∈ slice_1_m1 step → carries_log_measure tr var →
           var ∈ measure_vars t).
Proof.
  split; [apply terms_from_trace_total|].
  intros t tr' (t1 & (_ & _ & _ & _ & Hpts & Hmv & _) & ->)
    %terms_from_trace_visited.
  simpl. split_and!.
  - intros item Hin Hm. apply elem_of_dom.
    rewrite final_plate_to_step_lookup. case_decide; [done|].
    apply elem_of_dom, Hpts. eauto.
  - intros plate Hplate. apply elem_of_dom.
    rewrite final_plate_to_step_lookup. by rewrite decide_True.
  - intros plate Hplate Hnot.
    rewrite final_plate_to_step_lookup, decide_True by done.
    destruct (plate_to_step t1 !! plate) as [steps|] eqn:Hl; [|done].
    assert (plate ∈ dom (plate_to_step t1)) as (item & Hin & Hm & Hk)%Hpts
        by (by apply elem_of_dom).
    by destruct (Hnot item Hin Hm).
  - intros item step var Hin Hm Hstep Hvar Hc. apply Hmv. left.
    by exists item, step.
Qed.

(** C5, as the code has it: [terms_from_trace] returns on every
    well-formed trace, and classifies the sites of a trace as follows.
    Sites whose type is not ["sample"], subsample
    sites and sites marked [_do_not_score] contribute no log-measure, no
    log-density, no plate variable and no scale.  A log-measure is
    appended only at scored sites that carry a [log_measure] funsor, and
    the fresh variables of such a site that are no plates are added to
    [measure_vars]; besides these, [measure_vars] holds only the
    previous-step variables of the markov chains (whose sites are not of
    type ["sample"]) that carry a log-measure.  A log-density is appended
    exactly at the scored sites that are observed or not
    replay-skipped. *)
Theorem terms_from_trace_classifies_sites tr :
  (well_formed tr → ∃ t tr', terms_from_trace tr = Ok (t, tr'))
  ∧ ∀ t tr',
      terms_from_trace tr = Ok (t, tr') →
      log_measures t = omap log_measure_of tr
      ∧ Forall2 (λ f item, log_factor_of item f) (log_factors t)
          (filter (λ item, has_log_factor item = true) tr)
      ∧ plate_vars t = plates_of tr
      ∧ (scale t = scale terms0
         ∨ ∃ item fd, item ∈ tr ∧ not_scored item.2 = false
                      ∧ node_funsor item.2 = Some fd
                      ∧ fd !! "scale" = Some (scale t))
      ∧ (∀ v, v ∈ measure_vars t ↔ markov_var tr tr v ∨ fresh_var tr v)
      ∧ (∀ item, item ∈ tr → not_scored item.2 = true →
                 log_measure_of item = None ∧ has_log_factor item = false
                 ∧ plates_of [item] = ∅).
Proof.
  split; [apply terms_from_trace_total|].
  intros t tr' (t1 & (_ & Hlms & Hlfs & Hpv & _ & Hmv & Hsc) & ->)
    %terms_from_trace_visited.
  simpl. split_and!; try done.
  intros item _ Hns.
  rewrite plates_of_singleton. unfold log_measure_of, has_log_factor.
  by rewrite Hns.
Qed.

End terms_from_trace.

(** *** [differentiable_loss] *)

Section differentiable_loss.
Import TraceElbo.
Context `{Library} `{!Handlers}.

Implicit Types (l : locals) (w : World).

(** The partition of lines 120 to 125 keeps the order of the factors. *)
Lemma partition_factors (mmv : gset string) (fs : list Funsor) :
  fold_left
    (λ '(contracted, uncontracted) f,
       if bool_decide (mmv ∩ input_names f ≠ ∅)
       then (contracted ++ [f], uncontracted)
       else (contracted, uncontracted ++ [f]))
    fs ([], [])
  = (filter (contracted mmv) fs, filter (λ f, ¬ contracted mmv f) fs).
Proof.
  induction fs as [|f fs IH] using rev_ind; [done|].
  rewrite fold_left_app, IH, !filter_app. simpl. unfold contracted.
  case_bool_decide.
  - rewrite (filter_cons_True _ f) by done.
    rewrite (filter_cons_False _ f) by naive_solver.
    by rewrite !filter_nil, app_nil_r.
  - rewrite (filter_cons_False _ f) by tauto.
    rewrite (filter_cons_True _ f) by tauto.
    by rewrite !filter_nil, app_nil_r.
Qed.

Lemma targets_lookup_Some targets key target :
  targets_lookup targets key = Some target → (key, target) ∈ targets.
Proof.
  induction targets as [|[k v] targets IH]; [done|]. simpl.
  case_decide as Hk.
  - intros [= <-]. subst k. by left.
  - intros ?. right. by apply IH.
Qed.

Lemma targets_lookup_is_Some targets key :
  key ∈ targets.*1 → is_Some (targets_lookup targets key).
Proof.
  induction targets as [|[k v] targets IH]; [by intros ?%elem_of_nil|].
  simpl. intros [->|Hin]%elem_of_cons; case_decide; eauto; done.
Qed.

Lemma targets_of_spec costs :
  NoDup (targets_of costs).*1
  ∧ (∀ key, key ∈ (targets_of costs).*1 ↔
            ∃ cost, cost ∈ costs ∧ input_vars cost = key)
  ∧ (∀ key target,
       (key, target) ∈ targets_of costs →
       ∃ cost, cost ∈ costs ∧ input_vars cost = key
               ∧ target = placeholder cost).
Proof.
  unfold targets_of.
  induction costs as [|c costs (Hnd & Hkeys & Hvals)] using rev_ind.
  - simpl. split_and!; [constructor | set_solver | set_solver].
  - rewrite fold_left_app. simpl. unfold add_target at 1 3 5.
    case_decide as Hin.
    + split_and!; [done | |].
      * intros key. rewrite Hkeys. setoid_rewrite elem_of_app.
        setoid_rewrite list_elem_of_singleton. split; [naive_solver|].
        intros (cost & [?| ->] & <-); [eauto|]. by apply Hkeys.
      * intros key target Hkt.
        destruct (Hvals key target Hkt) as (cost & ? & ? & ?).
        exists cost. split; [|done]. apply elem_of_app. by left.
    + rewrite fmap_app. simpl. split_and!.
      * apply NoDup_app. split_and!; [done | | apply NoDup_singleton].
        intros key Hk ->%list_elem_of_singleton. done.
      * intros key. rewrite elem_of_app, list_elem_of_singleton, Hkeys.
        setoid_rewrite elem_of_app.
        setoid_rewrite list_elem_of_singleton. naive_solver.
      * intros key target [Hkt|Hkt%list_elem_of_singleton]%elem_of_app.
        -- destruct (Hvals key target Hkt) as (cost & ? & ? & ?).
           exists cost. split; [|done]. apply elem_of_app. by left.
        -- injection Hkt as -> ->. exists c. split; [|done].
           apply elem_of_app. right. by apply list_elem_of_singleton.
Qed.

(** The loop of lines 164 to 177. *)
Lemma elbo_loop_Ok targets log_measures plate_vars costs e0 w e w' :
  for_each costs (add_elbo_term targets log_measures plate_vars) e0 w
  = Ok (e, w') →
  w' = w
  ∧ ∃ lms,
      Forall2 (λ cost lm,
                 ∃ target, targets_lookup targets (input_vars cost)
                           = Some target
                           ∧ log_measures !! target = Some lm)
        costs lms
      ∧ e = fold_left
              (λ elbo '(cost, log_measure),
                 Binary lazy add elbo
                   (elbo_term plate_vars cost log_measure))
              (zip costs lms) e0.
Proof.
  revert e0 w. induction costs as [|c costs IH]; intros e0 w Hrun.
  - apply ret_Ok in Hrun as [-> ->]. split; [done|]. exists [].
    split; [constructor | done].
  - simpl in Hrun. apply bind_Ok in Hrun as (e1 & w1 & Hc & Hrun).
    apply IH in Hrun as (-> & lms & Hlms & ->).
    unfold add_elbo_term in Hc.
    apply bind_Ok in Hc as (target & w2 & Ht & Hc).
    destruct (targets_lookup targets (input_vars c)) as [target'|] eqn:Htl;
      [|done].
    apply ret_Ok in Ht as [-> ->].
    apply bind_Ok in Hc as (lm & w3 & Hlm & Hc).
    destruct (log_measures !! target') as [lm'|] eqn:Hl; [|done].
    apply ret_Ok in Hlm as [-> ->]. apply ret_Ok in Hc as [-> ->].
    split; [done|]. exists (lm' :: lms). split; [|done].
    constructor; [|done]. by exists target'.
Qed.

Lemma elbo_loop_total targets log_measures plate_vars costs e0 w :
  (∀ cost, cost ∈ costs →
           ∃ target lm, targets_lookup targets (input_vars cost)
                        = Some target
                        ∧ log_measures !! target = Some lm) →
  ∃ e, for_each costs (add_elbo_term targets log_measures plate_vars) e0 w
       = Ok (e, w).
Proof.
  intros Hcosts.
  destruct (for_each_total (add_elbo_term targets log_measures plate_vars)
              (λ _ st, st = w) costs e0 w) as (e & ? & Hrun & ->);
    [done | | by exists e].
  intros c b st Hin ->. destruct (Hcosts c Hin) as (target & lm & Ht & Hl).
  unfold add_elbo_term, bind. rewrite Ht. simpl. rewrite Hl. simpl.
  by eexists _, _.
Qed.

(** Every cost finds its placeholder, and every placeholder its
    log-measure. *)
Lemma paired_log_measure_total costs tape sum_op prod_op root cost :
  adjoint_has_targets →
  cost ∈ costs →
  ∃ target lm,
    targets_lookup (targets_of costs) (input_vars cost) = Some target
    ∧ adjoint tape sum_op prod_op root (targets_of costs).*2 !! target
      = Some lm.
Proof.
  intros Hadj Hin. destruct (targets_of_spec costs) as (_ & Hkeys & _).
  destruct (targets_lookup_is_Some (targets_of costs) (input_vars cost))
    as [target Ht]; [apply Hkeys; eauto|].
  exists target.
  assert (target ∈ dom (adjoint tape sum_op prod_op root
                          (targets_of costs).*2)) as [lm Hlm]%elem_of_dom.
  { rewrite Hadj, elem_of_list_to_set.
    apply targets_lookup_Some in Ht.
    apply list_elem_of_fmap. by exists (input_vars cost, target). }
  by exists lm.
Qed.

Lemma installed_handlers_Ok self w hs w' :
  installed_handlers self w = Ok (hs, w') →
  w' = w
  ∧ ∃ last,
      hs = [enum match max_plate_nesting self with
                 | NestingInt n => Some (- n - 1)
                 | _ => None
                 end; provenance] ++ last
      ∧ (num_particles self ≤ 1 → last = [])
      ∧ (1 < num_particles self →
         ∃ dim, last = [plate "num_particles_vectorized"
                          (num_particles self) dim]).
Proof.
  unfold installed_handlers.
  intros (last & w1 & Hlast & [-> Hw]%ret_Ok)%bind_Ok.
  case_bool_decide as Hn.
  - apply bind_Ok in Hlast as (dim & w2 & Hdim & [-> Hw2]%ret_Ok).
    assert (w2 = w) as Hw3.
    { destruct (max_plate_nesting self); [done|..];
        by apply ret_Ok in Hdim as [_ ?]. }
    split; [congruence|]. eexists. split; [done|]. split; [lia|eauto].
  - apply ret_Ok in Hlast as [-> Hw1].
    split; [congruence|]. eexists. split; [done|]. split; [done|lia].
Qed.

Lemma on_trace_Ok {A} tr (c : M Trace A) w a w' :
  on_trace tr c w = Ok (a, w') → w' = w ∧ ∃ tr', c tr = Ok (a, tr').
Proof.
  unfold on_trace. destruct (c tr) as [[a' tr']|e]; [|done].
  intros [-> ->]%ret_Ok. eauto.
Qed.

(** What the local variables hold when [differentiable_loss] reaches its
    [return]. *)
Lemma locals_Ok self model guide args w l w' :
  differentiable_loss_locals self model guide args w = Ok (l, w') →
  ∃ hs w1 tr1 tr2 lms,
    installed_handlers self w = Ok (hs, w)
    ∧ get_trace hs guide args w = Ok (l_guide_tr l, w1)
    ∧ get_trace hs (replay model (l_guide_tr l)) args w1
      = Ok (l_model_tr l, w')
    ∧ terms_from_trace (l_model_tr l) = Ok (l_model_terms l, tr1)
    ∧ terms_from_trace (l_guide_tr l) = Ok (l_guide_terms l, tr2)
    ∧ l_plate_vars l
      = (plate_vars (l_guide_terms l) ∪ plate_vars (l_model_terms l))
        ∖ {[ "num_particles_vectorized" ]}
    ∧ l_model_measure_vars l
      = measure_vars (l_model_terms l) ∖ measure_vars (l_guide_terms l)
    ∧ l_contracted_factors l
      = filter (contracted (l_model_measure_vars l))
          (log_factors (l_model_terms l))
    ∧ l_uncontracted_factors l
      = filter (λ f, ¬ contracted (l_model_measure_vars l) f)
          (log_factors (l_model_terms l))
    ∧ l_contracted_costs l
      = (Binary lazy mul (scale (l_model_terms l)) <$>
           partial_sum_product lazy logaddexp add
             (log_measures (l_model_terms l) ++ l_contracted_factors l)
             (l_plate_vars l) (l_model_measure_vars l))
    ∧ l_costs l
      = (l_contracted_costs l ++ l_uncontracted_factors l)
        ++ (Unary eager neg <$> log_factors (l_guide_terms l))
    ∧ l_targets l = targets_of (l_costs l)
    ∧ (l_logzq l, l_tape l)
      = sum_product_on_tape logaddexp add
          (log_measures (l_guide_terms l) ++ (l_targets l).*2)
          (l_plate_vars l)
          (l_plate_vars l ∪ measure_vars (l_guide_terms l))
    ∧ l_log_measures l
      = adjoint (l_tape l) logaddexp add (l_logzq l) (l_targets l).*2
    ∧ Forall2 (λ cost lm, paired_log_measure l cost = Some lm)
        (l_costs l) lms
    ∧ l_elbo l
      = reduce lazy mean (elbo_sum (l_plate_vars l) (zip (l_costs l) lms))
          None.
Proof.
  unfold differentiable_loss_locals.
  intros (hs & w0 & Hhs & Hrun)%bind_Ok.
  pose proof Hhs as [-> _]%installed_handlers_Ok.
  apply bind_Ok in Hrun as (guide_tr & w1 & Hg & Hrun).
  apply bind_Ok in Hrun as (model_tr & w2 & Hm & Hrun).
  apply bind_Ok in Hrun
      as (model_terms & w3 & [-> [tr1 Hmt]]%on_trace_Ok & Hrun).
  apply bind_Ok in Hrun
      as (guide_terms & w3 & [-> [tr2 Hgt]]%on_trace_Ok & Hrun).
  rewrite partition_factors in Hrun.
  destruct (sum_product_on_tape _ _ _ _ _) as [logzq tape] eqn:Hsp
    in Hrun.
  apply bind_Ok in Hrun as (elbo & w3 & Hloop & [-> ->]%ret_Ok).
  apply elbo_loop_Ok in Hloop as (-> & lms & Hlms & ->).
  exists hs, w1, tr1, tr2, lms. simpl.
  split_and!; try done.
  - eapply Forall2_impl; [exact Hlms|]. simpl.
    intros cost lm (target & Ht & Hl). unfold paired_log_measure. simpl.
    by rewrite Ht.
Qed.

Lemma differentiable_loss_Ok self model guide args w loss w' :
  differentiable_loss self model guide args w = Ok (loss, w') →
  ∃ l, differentiable_loss_locals self model guide args w = Ok (l, w')
       ∧ loss = tensor_neg (to_data (apply_optimizer (l_elbo l))).
Proof.
  unfold differentiable_loss.
  intros (l & w1 & Hl & [-> ->]%ret_Ok)%bind_Ok. by exists l.
Qed.

(** [differentiable_loss] returns whenever the handlers can be installed
    and the two programs run well. *)
Lemma differentiable_loss_total self model guide args w :
  can_run self model guide args →
  ∃ loss w', differentiable_loss self model guide args w = Ok (loss, w').
Proof.
  intros (Hadj & Hself & Hguide & Hmodel).
  enough (∃ l w', differentiable_loss_locals self model guide args w
                  = Ok (l, w')) as (l & w' & Hl).
  { unfold differentiable_loss, bind. rewrite Hl. by eexists _, _. }
  unfold differentiable_loss_locals.
  assert (∃ hs, installed_handlers self w = Ok (hs, w)) as [hs Hhs].
  { unfold installed_handlers. case_bool_decide as Hn; [|by eexists].
    destruct (max_plate_nesting self) eqn:Hnest; [|by eexists..].
    destruct Hself. by split. }
  apply bind_returns. exists hs, w. split; [done|].
  destruct (Hguide hs w) as (guide_tr & w1 & Hg & Hgwf).
  apply bind_returns. exists guide_tr, w1. split; [done|].
  destruct (Hmodel guide_tr hs w1) as (model_tr & w2 & Hm & Hmwf).
  apply bind_returns. exists model_tr, w2. split; [done|].
  destruct (terms_from_trace_total model_tr Hmwf) as (mt & tr1 & Hmt).
  destruct (terms_from_trace_total guide_tr Hgwf) as (gt & tr2 & Hgt).
  apply bind_returns. exists mt, w2. split.
  { unfold on_trace. by rewrite Hmt. }
  apply bind_returns. exists gt, w2. split.
  { unfold on_trace. by rewrite Hgt. }
  rewrite partition_factors.
  destruct (sum_product_on_tape _ _ _ _ _) as [logzq tape].
  apply bind_returns.
  edestruct elbo_loop_total as [e He];
    [|eexists _, _; split; [exact He | by eexists _, _]].
  intros cost Hin. by apply paired_log_measure_total.
Qed.

(** The steps of [differentiable_loss], from the traces to the ELBO. *)
Lemma locals_steps self model guide args w l w' :
  differentiable_loss_locals self model guide args w = Ok (l, w') →
  traced self model guide args w w' l
  ∧ costs_assembled l ∧ adjoints_taken l ∧ elbo_assembled l.
Proof.
  intros (hs & w1 & tr1 & tr2 & lms & Hhs & Hg & Hm & Hmt & Hgt & Hpv
          & Hmmv & Hc & Hu & Hcc & Hcosts & Ht & Hsp & Hlm & Hlms
          & Helbo)%locals_Ok.
  split_and!.
  - by exists hs, w1, tr1, tr2.
  - by split_and!.
  - by split_and!.
  - by exists lms.
Qed.

Lemma targets_unique (targets : list (gset (string * Domain) * Funsor))
    key target target' :
  NoDup targets.*1 →
  (key, target) ∈ targets → (key, target') ∈ targets → target = target'.
Proof.
  intros Hnd Hin Hin'.
  apply (elem_of_list_to_map_1
           (M := gmap (gset (string * Domain))) _ _ _ Hnd) in Hin.
  apply (elem_of_list_to_map_1
           (M := gmap (gset (string * Domain))) _ _ _ Hnd) in Hin'.
  congruence.
Qed.

(** The loop of lines 164 to 177 has read the log-measure of every
    placeholder. *)
Lemma placeholders_have_log_measures l :
  l_targets l = targets_of (l_costs l) →
  elbo_assembled l →
  ∀ target, target ∈ (l_targets l).*2 →
            is_Some (l_log_measures l !! target).
Proof.
  intros Ht (lms & Hlms & _) target Hin.
  destruct (targets_of_spec (l_costs l)) as (Hnd & _ & Hvals).
  rewrite <- Ht in Hnd, Hvals.
  apply list_elem_of_fmap in Hin as ([key target'] & -> & Hin). simpl.
  destruct (Hvals key target' Hin) as (cost & Hcost & Hkey & _).
  apply list_elem_of_lookup in Hcost as [i Hi].
  destruct (Forall2_lookup_l _ _ _ _ _ Hlms Hi) as (lm & _ & Hp).
  unfold paired_log_measure in Hp.
  destruct (targets_lookup (l_targets l) (input_vars cost))
    as [target''|] eqn:Htl; [|done].
  simpl in Hp. apply targets_lookup_Some in Htl. rewrite Hkey in Htl.
  rewrite (targets_unique _ _ _ _ Hnd Hin Htl). by exists lm.
Qed.

(** *** The claims about [differentiable_loss] *)

(** C1: [differentiable_loss] eliminates exactly the model-only measure
    variables, those in the [measure_vars] of the terms of the replayed
    model's trace but not in those of the guide's trace, by one partial
    sum-product contraction with [logaddexp] as the sum and [add] as the
    product operation, and the plate variables as plates.  A model
    log-factor enters the contraction if and only if its inputs meet the
    model-only measure variables; all other log-factors are left
    uncontracted and are costs as they are; and the loss that is returned
    is computed from these costs. *)
Theorem model_only_measure_vars_are_contracted
    self model guide args w :
  (can_run self model guide args →
   ∃ loss w', differentiable_loss self model guide args w = Ok (loss, w'))
  ∧ ∀ loss w',
      differentiable_loss self model guide args w = Ok (loss, w') →
      ∃ l,
        differentiable_loss_locals self model guide args w = Ok (l, w')
        ∧ traced self model guide args w w' l
        ∧ l_model_measure_vars l
          = measure_vars (l_model_terms l) ∖ measure_vars (l_guide_terms l)
        ∧ l_plate_vars l
          = (plate_vars (l_guide_terms l) ∪ plate_vars (l_model_terms l))
            ∖ {[ "num_particles_vectorized" ]}
        ∧ l_contracted_factors l
          = filter (λ f, l_model_measure_vars l ∩ input_names f ≠ ∅)
              (log_factors (l_model_terms l))
        ∧ l_uncontracted_factors l
          = filter (λ f, ¬ l_model_measure_vars l ∩ input_names f ≠ ∅)
              (log_factors (l_model_terms l))
        ∧ (∀ f, f ∈ l_contracted_factors l ↔
                f ∈ log_factors (l_model_terms l)
                ∧ l_model_measure_vars l ∩ input_names f ≠ ∅)
        ∧ (∀ f, f ∈ l_uncontracted_factors l ↔
                f ∈ log_factors (l_model_terms l)
                ∧ l_model_measure_vars l ∩ input_names f = ∅)
        ∧ l_contracted_costs l
          = (Binary lazy mul (scale (l_model_terms l)) <$>
               partial_sum_product lazy logaddexp add
                 (log_measures (l_model_terms l) ++ l_contracted_factors l)
                 (l_plate_vars l) (l_model_measure_vars l))
        ∧ l_costs l
          = (l_contracted_costs l ++ l_uncontracted_factors l)
            ++ (Unary eager neg <$> log_factors (l_guide_terms l))
        ∧ adjoints_taken l
        ∧ elbo_assembled l
        ∧ loss = tensor_neg (to_data (apply_optimizer (l_elbo l))).
Proof.
  split; [apply differentiable_loss_total|].
  intros loss w' (l & Hl & ->)%differentiable_loss_Ok.
  exists l. split; [done|].
  apply locals_steps in Hl
    as (Htr & (Hpv & Hmmv & Hc & Hu & Hcc & Hcosts) & Hadj & Helbo).
  split_and!; try done.
  - intros f. rewrite Hc, list_elem_of_filter. unfold contracted.
    naive_solver.
  - intros f. rewrite Hu, list_elem_of_filter. unfold contracted.
    split; [|naive_solver]. intros [Hn ?]. split; [done|].
    by apply dec_stable.
Qed.

(** C2: [differentiable_loss] first records an execution trace of the
    guide, then an execution trace of the model replayed against that
    guide trace, and only afterwards extracts the terms of the two
    traces: the model runs in the world the guide has left, on the trace
    the guide has produced. *)
Theorem guide_is_traced_before_model self model guide args w :
  (can_run self model guide args →
   ∃ loss w', differentiable_loss self model guide args w = Ok (loss, w'))
  ∧ ∀ loss w',
      differentiable_loss self model guide args w = Ok (loss, w') →
      ∃ l hs w1 tr1 tr2,
        differentiable_loss_locals self model guide args w = Ok (l, w')
        ∧ installed_handlers self w = Ok (hs, w)
        ∧ get_trace hs guide args w = Ok (l_guide_tr l, w1)
        ∧ get_trace hs (replay model (l_guide_tr l)) args w1
          = Ok (l_model_tr l, w')
        ∧ terms_from_trace (l_model_tr l) = Ok (l_model_terms l, tr1)
        ∧ terms_from_trace (l_guide_tr l) = Ok (l_guide_terms l, tr2).
Proof.
  split; [apply differentiable_loss_total|].
  intros loss w' (l & Hl & _)%differentiable_loss_Ok.
  pose proof Hl as (hs & w1 & tr1 & tr2 & lms & Hhs & Hg & Hm & Hmt & Hgt
                    & _)%locals_Ok.
  by exists l, hs, w1, tr1, tr2.
Qed.

(** C3: the log-measures that weight the costs are adjoints.  The costs
    are those of the terms of the two traces.  There is one placeholder,
    a [Constant] over the inputs of a cost with the zero tensor, for each
    distinct set of input variables of the costs; [logzq] is the
    [sum_product], with [logaddexp] and [add], of the log-measures of
    the guide and the placeholders, recorded on an [AdjointTape];
    [log_measures] is [tape.adjoint] applied to [logzq] and the
    placeholders, and when [differentiable_loss] returns it has a
    log-measure for each placeholder; every cost is paired with the
    log-measure of the placeholder of its set of input variables, so that
    costs with the same set share it, and the ELBO that is returned is
    assembled from these pairs. *)
Theorem log_measures_are_adjoints self model guide args w :
  (can_run self model guide args →
   ∃ loss w', differentiable_loss self model guide args w = Ok (loss, w'))
  ∧ ∀ loss w',
      differentiable_loss self model guide args w = Ok (loss, w') →
      ∃ l,
        differentiable_loss_locals self model guide args w = Ok (l, w')
        ∧ traced self model guide args w w' l
        ∧ costs_assembled l
        ∧ l_targets l = targets_of (l_costs l)
        ∧ NoDup (l_targets l).*1
        ∧ (∀ key, key ∈ (l_targets l).*1 ↔
                  ∃ cost, cost ∈ l_costs l ∧ input_vars cost = key)
        ∧ (∀ key target,
             (key, target) ∈ l_targets l →
             ∃ cost, cost ∈ l_costs l ∧ input_vars cost = key
                     ∧ target
                       = Constant eager (inputs cost)
                           (funsor_Tensor
                              (torch_tensor (PyFloat (S754_zero false)))))
        ∧ (l_logzq l, l_tape l)
          = sum_product_on_tape logaddexp add
              (log_measures (l_guide_terms l) ++ (l_targets l).*2)
              (l_plate_vars l)
              (l_plate_vars l ∪ measure_vars (l_guide_terms l))
        ∧ l_log_measures l
          = adjoint (l_tape l) logaddexp add (l_logzq l) (l_targets l).*2
        ∧ (∀ target, target ∈ (l_targets l).*2 →
                     ∃ lm, l_log_measures l !! target = Some lm)
        ∧ (∀ cost, cost ∈ l_costs l →
                   ∃ target lm,
                     (input_vars cost, target) ∈ l_targets l
                     ∧ targets_lookup (l_targets l) (input_vars cost)
                       = Some target
                     ∧ l_log_measures l !! target = Some lm
                     ∧ paired_log_measure l cost = Some lm)
        ∧ (∀ cost cost',
             input_vars cost = input_vars cost' →
             paired_log_measure l cost = paired_log_measure l cost')
        ∧ elbo_assembled l
        ∧ loss = tensor_neg (to_data (apply_optimizer (l_elbo l))).
Proof.
  split; [apply differentiable_loss_total|].
  intros loss w' (l & Hl & ->)%differentiable_loss_Ok.
  exists l. split; [done|].
  apply locals_steps in Hl as (Htr & Hcosts & (Ht & Hsp & Hlm) & Helbo).
  destruct (targets_of_spec (l_costs l)) as (Hnd & Hkeys & Hvals).
  rewrite <- Ht in Hnd, Hkeys, Hvals.
  pose proof (placeholders_have_log_measures l Ht Helbo) as Hph.
  split_and!; try done.
  - intros cost Hin.
    destruct (targets_lookup_is_Some (l_targets l) (input_vars cost))
      as [target Htl]; [apply Hkeys; eauto|].
    pose proof (targets_lookup_Some _ _ _ Htl) as Hmem.
    destruct (Hph target) as [lm Hlm'].
    { apply list_elem_of_fmap. by exists (input_vars cost, target). }
    exists target, lm. split_and!; [done..|].
    unfold paired_log_measure. by rewrite Htl.
  - intros cost cost' Heq. unfold paired_log_measure. by rewrite Heq.
Qed.

(** C4: [differentiable_loss] returns the negation of the assembled ELBO.
    The costs are the contracted costs and the uncontracted log-factors
    of the replayed model's trace, followed by the negated log-factors
    of the guide's trace; each cost is integrated against the
    log-measure it is paired with, the adjoint of its placeholder, over
    its variables that are no plates, and reduced with [add] over the
    plate variables among its inputs; the terms are summed, the sum is
    reduced with [mean], and the function returns minus this quantity,
    optimized and converted to data. *)
Theorem loss_is_negated_elbo self model guide args w :
  (can_run self model guide args →
   ∃ loss w', differentiable_loss self model guide args w = Ok (loss, w'))
  ∧ ∀ loss w',
      differentiable_loss self model guide args w = Ok (loss, w') →
      ∃ l lms,
        differentiable_loss_locals self model guide args w = Ok (l, w')
        ∧ traced self model guide args w w' l
        ∧ costs_assembled l
        ∧ adjoints_taken l
        ∧ l_costs l
          = (l_contracted_costs l ++ l_uncontracted_factors l)
            ++ (Unary eager neg <$> log_factors (l_guide_terms l))
        ∧ Forall2 (λ cost lm, paired_log_measure l cost = Some lm)
            (l_costs l) lms
        ∧ l_elbo l
          = reduce lazy mean
              (fold_left
                 (λ elbo '(cost, log_measure),
                    Binary lazy add elbo
                      (reduce lazy add
                         (Integrate lazy log_measure cost
                            ((input_names cost ∖ l_plate_vars l)
                             ∖ {[ "num_particles_vectorized" ]}))
                         (Some (l_plate_vars l ∩ input_names cost))))
                 (zip (l_costs l) lms) (to_funsor (PyInt 0) (Some Real)))
              None
        ∧ loss = tensor_neg (to_data (apply_optimizer (l_elbo l))).
Proof.
  split; [apply differentiable_loss_total|].
  intros loss w' (l & Hl & ->)%differentiable_loss_Ok.
  pose proof Hl as (Htr & Hcosts & Hadj & (lms & Hlms & Helbo))%locals_steps.
  exists l, lms. split_and!; try done. by destruct Hcosts as (_&_&_&_&_&?).
Qed.

End differentiable_loss.

Section trace_elbo_examples.
Import TraceElbo TraceElbo.Symbolic.

(** The example traces are well formed. *)
Ltac each_item Hin :=
  repeat (apply elem_of_cons in Hin as [->|Hin]);
  [.. | by apply elem_of_nil in Hin].

Ltac has_entries :=
  eexists; split; [reflexivity|]; split_and!; by eexists.

Lemma guide_trace_well_formed : well_formed guide_trace.
Proof.
  split.
  - intros item step var Hin Hm. each_item Hin. discriminate Hm.
  - intros item Hin Hns. each_item Hin. has_entries.
Qed.

Lemma model_trace_well_formed : well_formed model_trace.
Proof.
  split.
  - intros item step var Hin Hm. each_item Hin; discriminate Hm.
  - intros item Hin Hns. each_item Hin; has_entries.
Qed.

Lemma markov_trace_well_formed : well_formed markov_trace.
Proof.
  split.
  - intros item step var Hin Hm Hstep Hvar.
    each_item Hin; try discriminate Hm.
    apply list_elem_of_singleton in Hstep as ->.
    apply list_elem_of_singleton in Hvar as ->.
    eexists. split; [reflexivity|]. by eexists.
  - intros item Hin Hns. each_item Hin; try discriminate Hns; has_entries.
Qed.

Lemma plate_to_step_keys_and_markov_measure_vars_witness :
  ∃ t tr',
    terms_from_trace markov_trace = Ok (t, tr')
    ∧ "time" ∈ dom (plate_to_step t)
    ∧ "x_prev" ∈ measure_vars t.
Proof.
  destruct (plate_to_step_keys_and_markov_measure_vars markov_trace)
    as [Hret Hafter].
  destruct (Hret markov_trace_well_formed) as (t & tr' & Hrun).
  exists t, tr'. split; [exact Hrun|].
  destruct (Hafter t tr' Hrun) as (Hkeys & _ & _ & Hmv).
  assert (Hin : markov_node "time" [["x_0"; "x_prev"; "x_curr"]]
                ∈ markov_trace).
  { unfold markov_trace. rewrite !elem_of_cons. auto 10. }
  split.
  - by apply (Hkeys _ Hin).
  - apply (Hmv _ ["x_0"; "x_prev"; "x_curr"] "x_prev" Hin); [done | | |].
    + by left.
    + by left.
    + eexists. split; [reflexivity|]. by eexists.
Defined.

Lemma terms_from_trace_classifies_sites_witness :
  ∃ t tr',
    terms_from_trace model_trace = Ok (t, tr')
    ∧ log_measures t = [leaf "p_measure(x)" [("x", Bint 2)]]
    ∧ length (log_factors t) = 2%nat.
Proof.
  destruct (terms_from_trace_classifies_sites model_trace)
    as [Hret Hclasses].
  destruct (Hret model_trace_well_formed) as (t & tr' & Hrun).
  exists t, tr'. split; [exact Hrun|].
  destruct (Hclasses t tr' Hrun) as (Hlms & Hlfs & _).
  split; [exact Hlms|].
  by apply Forall2_length in Hlfs.
Defined.

(** C5, as it is stated, fails: a site whose type is not ["sample"] can
    contribute.  No site of [skipped_trace] is scored, and yet
    [terms_from_trace] does not return the terms of the empty trace: the
    markov chain [time] has left its steps in [plate_to_step] and its
    previous-step variable [x_prev] in [measure_vars]. *)
Lemma markov_chain_site_contributes :
  Forall (λ item, not_scored item.2 = true) skipped_trace
  ∧ summary (terms_from_trace [])
    = Some ([], [], ("1.0", []), [], [], [])
  ∧ summary (terms_from_trace skipped_trace)
    = Some ([], [], ("1.0", []), [], ["x_prev"],
            [("time", [["x_0"; "x_prev"; "x_curr"]])])
  ∧ ¬ (∀ tr : Trace,
         Forall (λ item, not_scored item.2 = true) tr →
         summary (terms_from_trace tr) = summary (terms_from_trace [])).
Proof.
  assert (H1 : Forall (λ item : string * node, not_scored item.2 = true)
                 skipped_trace) by (by repeat constructor).
  assert (H2 : summary (terms_from_trace [])
               = Some ([], [], ("1.0", []), [], [], []))
    by (vm_compute; reflexivity).
  assert (H3 : summary (terms_from_trace skipped_trace)
               = Some ([], [], ("1.0", []), [], ["x_prev"],
                       [("time", [["x_0"; "x_prev"; "x_curr"]])]))
    by (vm_compute; reflexivity).
  split_and!; [done..|].
  intros Hall. specialize (Hall skipped_trace H1).
  rewrite H2, H3 in Hall. discriminate Hall.
Qed.

Lemma symbolic_adjoint_has_targets : adjoint_has_targets.
Proof.
  intros tape sum_op prod_op root targets. simpl. unfold sym_adjoint.
  rewrite dom_list_to_map_L. f_equal.
  rewrite <- list_fmap_compose. apply list_fmap_id.
Qed.

(** The loss of the example: the model-only variable [x] is contracted
    with the factor [logp(y)] that depends on it, the factor [logp(z)]
    is left as it is, and the guide enters with [-logq(z)]. *)
Lemma example_loss_value :
  differentiable_loss elbo model guide tt 0%nat = Ok (example_loss, 2%nat).
Proof. vm_compute. reflexivity. Qed.

Lemma symbolic_can_run : can_run elbo model guide tt.
Proof.
  split_and!.
  - apply symbolic_adjoint_has_targets.
  - intros [Hn _]. vm_compute in Hn. discriminate Hn.
  - intros hs w. exists guide_trace, (S w).
    split; [reflexivity | apply guide_trace_well_formed].
  - intros tr hs w. exists model_trace, (S w).
    split; [reflexivity | apply model_trace_well_formed].
Qed.

Lemma model_only_measure_vars_are_contracted_witness :
  ∃ loss w' l,
    differentiable_loss elbo model guide tt 0%nat = Ok (loss, w')
    ∧ differentiable_loss_locals elbo model guide tt 0%nat = Ok (l, w')
    ∧ traced elbo model guide tt 0%nat w' l
    ∧ l_contracted_factors l
      = filter (λ f, l_model_measure_vars l ∩ input_names f ≠ ∅)
          (log_factors (l_model_terms l))
    ∧ loss = tensor_neg (to_data (apply_optimizer (l_elbo l))).
Proof.
  destruct (model_only_measure_vars_are_contracted elbo model guide tt
              0%nat) as [Hret Hafter].
  destruct (Hret symbolic_can_run) as (loss & w' & Hrun).
  destruct (Hafter loss w' Hrun)
    as (l & Hl & Htr & _ & _ & Hc & _ & _ & _ & _ & _ & _ & _ & Hloss).
  exists loss, w', l.
  exact (conj Hrun (conj Hl (conj Htr (conj Hc Hloss)))).
Defined.

Lemma guide_is_traced_before_model_witness :
  ∃ loss w' l hs w1,
    differentiable_loss elbo model guide tt 0%nat = Ok (loss, w')
    ∧ get_trace hs guide tt 0%nat = Ok (l_guide_tr l, w1)
    ∧ get_trace hs (replay model (l_guide_tr l)) tt w1
      = Ok (l_model_tr l, w').
Proof.
  destruct (guide_is_traced_before_model elbo model guide tt 0%nat)
    as [Hret Hafter].
  destruct (Hret symbolic_can_run) as (loss & w' & Hrun).
  destruct (Hafter loss w' Hrun)
    as (l & hs & w1 & tr1 & tr2 & _ & _ & Hg & Hm & _).
  exists loss, w', l, hs, w1.
  exact (conj Hrun (conj Hg Hm)).
Defined.

Lemma log_measures_are_adjoints_witness :
  ∃ loss w' l,
    differentiable_loss elbo model guide tt 0%nat = Ok (loss, w')
    ∧ traced elbo model guide tt 0%nat w' l
    ∧ NoDup (l_targets l).*1
    ∧ (∀ target, target ∈ (l_targets l).*2 →
                 ∃ lm, l_log_measures l !! target = Some lm).
Proof.
  destruct (log_measures_are_adjoints elbo model guide tt 0%nat)
    as [Hret Hafter].
  destruct (Hret symbolic_can_run) as (loss & w' & Hrun).
  destruct (Hafter loss w' Hrun)
    as (l & _ & Htr & _ & _ & Hnd & _ & _ & _ & _ & Hph & _).
  exists loss, w', l.
  exact (conj Hrun (conj Htr (conj Hnd Hph))).
Defined.

Lemma loss_is_negated_elbo_witness :
  ∃ loss w' l,
    differentiable_loss elbo model guide tt 0%nat = Ok (loss, w')
    ∧ traced elbo model guide tt 0%nat w' l
    ∧ loss = tensor_neg (to_data (apply_optimizer (l_elbo l))).
Proof.
  destruct (loss_is_negated_elbo elbo model guide tt 0%nat)
    as [Hret Hafter].
  destruct (Hret symbolic_can_run) as (loss & w' & Hrun).
  destruct (Hafter loss w' Hrun)
    as (l & lms & _ & Htr & _ & _ & _ & _ & _ & Hloss).
  exists loss, w', l.
  exact (conj Hrun (conj Htr Hloss)).
Defined.

End trace_elbo_examples.
(** ** More about [terms_from_trace] *)

Section terms_from_trace_more.
Import TraceElbo.
Context `{Library}.

Implicit Types (tr store : Trace) (t : terms) (n : node).

(** *** What a visit that returns has read *)

Lemma has_log_measure_read var store b store' :
  has_log_measure var store = Ok (b, store') →
  ∃ n, nodes_getitem store var = Ok n ∧ is_Some (node_funsor n).
Proof.
  unfold has_log_measure.
  intros (tr1 & s1 & [= <- <-] & Hrun)%bind_Ok.
  destruct (nodes_getitem store var) as [n|e]; [|done].
  destruct (node_funsor n) as [fd|] eqn:Hfd; [|done].
  exists n. by rewrite Hfd.
Qed.

Lemma vars_with_log_measure_read vars store vs store' :
  vars_with_log_measure vars store = Ok (vs, store') →
  ∀ var, var ∈ vars →
         ∃ n, nodes_getitem store var = Ok n ∧ is_Some (node_funsor n).
Proof.
  revert vs store'. induction vars as [|v vars IH]; intros vs store' Hrun var.
  - by intros ?%elem_of_nil.
  - simpl in Hrun.
    apply bind_Ok in Hrun as (b & s1 & Hb & Hrun).
    pose proof Hb as [-> _]%has_log_measure_Ok.
    apply bind_Ok in Hrun as (rest & s2 & Hrest & _).
    intros [->|Hin]%elem_of_cons.
    + by eapply has_log_measure_read.
    + by eapply IH.
Qed.

Lemma markov_loop_read steps t store t' store' :
  for_each steps markov_step t store = Ok (t', store') →
  ∀ step var, step ∈ steps → var ∈ slice_1_m1 step →
              ∃ n, nodes_getitem store var = Ok n
                   ∧ is_Some (node_funsor n).
Proof.
  revert t. induction steps as [|s steps IH]; intros t Hrun step var.
  - by intros ?%elem_of_nil.
  - simpl in Hrun. apply bind_Ok in Hrun as (t1 & s1 & Hs & Hrun).
    pose proof Hs as (-> & _)%markov_step_Ok.
    intros [->|Hin]%elem_of_cons Hvar.
    + unfold markov_step in Hs.
      apply bind_Ok in Hs as (vs & s2 & Hvs & _).
      by eapply vars_with_log_measure_read.
    + by eapply IH.
Qed.

(** The two branches of lines 73 to 83, for a scored site. *)
Lemma visit_scored_cases t i name n store t' store' :
  not_scored n = false →
  visit t (i, (name, n)) store = Ok (t', store') →
  ∃ fd log_prob sc,
    node_funsor n = Some fd ∧ fd !! "log_prob" = Some log_prob
    ∧ fd !! "scale" = Some sc
    ∧ ((default false (replay_active n) = true
        ∧ scale t' = sc ∧ store' = store
        ∧ log_factors t'
          = log_factors t
            ++ (if observed_or_replayed n then [log_prob] else []))
       ∨ (scale t' = scale t
          ∧ store'
            = <[i := (name,
                      set_node_funsor
                        (<["log_prob" := Binary eager mul log_prob sc]> fd)
                        n)]> store
          ∧ log_factors t'
            = log_factors t
              ++ (if observed_or_replayed n
                  then [Binary eager mul log_prob sc] else []))).
Proof.
  intros Hns. destruct (scored_is_sample n Hns) as [Hsample Hnm].
  unfold visit. rewrite Hns, Hnm.
  intros (t0 & s0 & [-> ->]%ret_Ok & Hrun)%bind_Ok.
  apply bind_Ok in Hrun as (fd & s1 & Hfd & Hrun).
  destruct (node_funsor n) as [fd0|] eqn:Hnf; [|done].
  apply ret_Ok in Hfd as [-> ->].
  apply bind_Ok in Hrun as (t1 & s1 & Hlm & Hrun).
  assert (log_factors t1 = log_factors t ∧ scale t1 = scale t
          ∧ s1 = store) as (Hlf1 & Hsc1 & ->).
  { unfold grab_log_measure in Hlm. destruct (fd0 !! "log_measure").
    - apply bind_Ok in Hlm as (value & s2 & [Hv ->]%getitem_Ok & Hlm).
      by apply ret_Ok in Hlm as [-> ->].
    - by apply ret_Ok in Hlm as [-> ->]. }
  apply bind_Ok in Hrun as ([t2 fd2] & s3 & Hbr & Hrun).
  unfold grab_scale in Hbr.
  apply bind_Ok in Hbr as (c & s2 & Hc & Hbr).
  pose proof Hc as ->%common_scale_cond_Ok.
  unfold observed_or_replayed. unfold grab_log_density in Hrun.
  destruct c.
  - unfold common_scale_cond in Hc.
    destruct (default false (replay_active n)) eqn:Hra;
      [|by apply ret_Ok in Hc as [[=] _]].
    apply bind_Ok in Hc as (lp & s4 & [Hlp ->]%getitem_Ok & _).
    apply bind_Ok in Hbr as (sc & s4 & [Hsc' ->]%getitem_Ok & Hbr).
    apply ret_Ok in Hbr as [[= -> ->] ->].
    exists fd0, lp, sc. split_and!; [done..|]. left.
    destruct (is_observed n || negb (default false (replay_skipped n))).
    + apply bind_Ok in Hrun as (lp' & s4 & [Hlp' ->]%getitem_Ok & Hrun).
      apply ret_Ok in Hrun as [-> ->]. simpl.
      rewrite Hlp in Hlp'. injection Hlp' as <-.
      split_and!; [done..|]. by rewrite Hlf1.
    + apply ret_Ok in Hrun as [-> ->]. simpl.
      split_and!; [done..|]. by rewrite Hlf1, app_nil_r.
  - apply bind_Ok in Hbr as (lp & s4 & [Hlp ->]%getitem_Ok & Hbr).
    apply bind_Ok in Hbr as (sc & s5 & [Hsc' ->]%getitem_Ok & Hbr).
    apply bind_Ok in Hbr as ([] & s6 & [= <-] & Hbr).
    apply ret_Ok in Hbr as [[= -> ->] ->].
    exists fd0, lp, sc. split_and!; [done..|]. right.
    destruct (is_observed n || negb (default false (replay_skipped n))).
    + apply bind_Ok in Hrun as (lp' & s4 & [Hlp' ->]%getitem_Ok & Hrun).
      apply ret_Ok in Hrun as [-> ->]. simpl.
      rewrite lookup_insert_eq in Hlp'. injection Hlp' as <-.
      split_and!; [done..|]. by rewrite Hlf1.
    + apply ret_Ok in Hrun as [-> ->]. simpl.
      split_and!; [done..|]. by rewrite Hlf1, app_nil_r.
Qed.

Lemma visit_read t i name n store t' store' :
  visit t (i, (name, n)) store = Ok (t', store') →
  (not_scored n = false →
   ∃ fd, node_funsor n = Some fd
         ∧ is_Some (fd !! "log_prob") ∧ is_Some (fd !! "scale")
         ∧ (is_Some (fd !! "log_measure") → is_Some (fd !! "value")))
  ∧ (node_type n = "markov_chain" →
     ∀ step var, step ∈ node_value n → var ∈ slice_1_m1 step →
                 ∃ n', nodes_getitem store var = Ok n'
                       ∧ is_Some (node_funsor n')).
Proof.
  intros Hv. split.
  - intros Hns.
    destruct (visit_scored_cases _ _ _ _ _ _ _ Hns Hv)
      as (fd & lp & sc & Hfd & Hlp & Hsc & _).
    destruct (visit_scored _ _ _ _ _ _ _ Hns Hv)
      as (fd' & Hfd' & _ & _ & _ & Hval & _).
    rewrite Hfd in Hfd'. injection Hfd' as <-.
    exists fd. by split_and!.
  - intros Hm. unfold visit in Hv. rewrite Hm in Hv. simpl in Hv.
    apply bind_Ok in Hv as (t1 & s1 & Hloop & _).
    by eapply markov_loop_read.
Qed.

Lemma agree_read tr store var :
  agree tr store →
  (∃ n, nodes_getitem store var = Ok n ∧ is_Some (node_funsor n)) →
  ∃ n, nodes_getitem tr var = Ok n ∧ is_Some (node_funsor n).
Proof.
  intros Hag (n' & Hn' & Hfd).
  pose proof (agree_getitem tr store var Hag) as Hg. rewrite Hn' in Hg.
  destruct (nodes_getitem tr var) as [n|]; [|done].
  exists n. split; [done|]. by apply Hg.
Qed.

Lemma terms_from_trace_Ok_well_formed tr t tr' :
  terms_from_trace tr = Ok (t, tr') → well_formed tr.
Proof.
  unfold terms_from_trace.
  intros (tr0 & s0 & [= <- <-] & Hrun)%bind_Ok.
  apply bind_Ok in Hrun as (t1 & s1 & Hloop & _).
  apply (for_each_inv visit
           (λ pre b st,
              agree tr st
              ∧ ∀ item, item ∈ pre.*2 →
                  (not_scored item.2 = false →
                   ∃ fd, node_funsor item.2 = Some fd
                         ∧ is_Some (fd !! "log_prob")
                         ∧ is_Some (fd !! "scale")
                         ∧ (is_Some (fd !! "log_measure") →
                            is_Some (fd !! "value")))
                  ∧ (is_markov_chain item →
                     ∀ step var,
                       step ∈ node_value item.2 → var ∈ slice_1_m1 step →
                       ∃ n, nodes_getitem tr var = Ok n
                            ∧ is_Some (node_funsor n)))) in Hloop.
  - destruct Hloop as [_ Hall].
    pose proof (imap_pair_snd tr id) as Hsnd. simpl in Hsnd.
    rewrite Hsnd in Hall. split.
    + intros item step var Hin Hm Hstep Hvar.
      by apply (proj2 (Hall item Hin) Hm step var).
    + intros item Hin Hns. by apply (proj1 (Hall item Hin)).
  - split; [apply agree_refl|]. by intros item ?%elem_of_nil.
  - intros pre [i [name n]] post b st b' st' Hl [Hag Hall] Hvisit.
    apply imap_split in Hl as [Htr Hi]. simpl in *.
    split; [by eapply visit_agree|].
    intros item. rewrite fmap_app. simpl.
    intros [Hin| ->%list_elem_of_singleton]%elem_of_app; [by apply Hall|].
    destruct (visit_read _ _ _ _ _ _ _ Hvisit) as [Hscored Hmarkov].
    split; [done|]. intros Hm step var Hstep Hvar.
    apply (agree_read tr st var Hag). by apply (Hmarkov Hm step var).
Qed.

(** *** What [terms_from_trace] raises *)

Lemma only_KeyError_ret {St A} (a : A) : only_KeyError (St := St) (ret a).
Proof. by intros s e. Qed.

Lemma only_KeyError_bind {St A B} (c : M St A) (k : A → M St B) :
  only_KeyError c → (∀ a, only_KeyError (k a)) → only_KeyError (bind c k).
Proof.
  intros Hc Hk s e. unfold bind.
  destruct (c s) as [[a s1]|e1] eqn:Hcs.
  - apply Hk.
  - intros [= <-]. by eapply Hc.
Qed.

Lemma only_KeyError_getitem {St V} (d : gmap string V) k :
  only_KeyError (St := St) (getitem d k).
Proof.
  intros s e. unfold getitem. destruct (d !! k); [done|].
  intros [= <-]. by eexists.
Qed.

Lemma only_KeyError_for_each {St A B} (l : list A) (body : B → A → M St B)
    acc :
  (∀ b x, only_KeyError (body b x)) → only_KeyError (for_each l body acc).
Proof.
  intros Hbody. revert acc. induction l as [|x l IH]; intros acc; simpl.
  - apply only_KeyError_ret.
  - by apply only_KeyError_bind.
Qed.

Lemma nodes_getitem_Raise tr var e :
  nodes_getitem tr var = Raise e → e = KeyError var.
Proof.
  induction tr as [|[k n] tr IH]; simpl; [by intros [= <-]|].
  by case_decide.
Qed.

Lemma only_KeyError_has_log_measure var :
  only_KeyError (has_log_measure var).
Proof.
  intros store e. unfold has_log_measure, bind, get.
  destruct (nodes_getitem store var) as [n|e'] eqn:Hn.
  - destruct (node_funsor n); [done|]. intros [= <-]. by eexists.
  - intros [= <-]. apply nodes_getitem_Raise in Hn as ->. by eexists.
Qed.

Lemma only_KeyError_vars_with_log_measure vars :
  only_KeyError (vars_with_log_measure vars).
Proof.
  induction vars as [|v vars IH]; simpl; [apply only_KeyError_ret|].
  apply only_KeyError_bind; [apply only_KeyError_has_log_measure|].
  intros b. apply only_KeyError_bind; [done|].
  intros rest. apply only_KeyError_ret.
Qed.

Lemma only_KeyError_visit t item : only_KeyError (visit t item).
Proof.
  destruct item as [i [name n]]. unfold visit.
  apply only_KeyError_bind.
  { destruct (String.eqb (node_type n) "markov_chain");
      [|apply only_KeyError_ret].
    apply only_KeyError_for_each. intros b step. unfold markov_step.
    apply only_KeyError_bind; [apply only_KeyError_vars_with_log_measure|].
    intros vs. apply only_KeyError_ret. }
  intros t1. destruct (not_scored n); [apply only_KeyError_ret|].
  apply only_KeyError_bind.
  { destruct (node_funsor n); [apply only_KeyError_ret|].
    intros s e [= <-]. by eexists. }
  intros fd. apply only_KeyError_bind.
  { unfold grab_log_measure. destruct (fd !! "log_measure");
      [|apply only_KeyError_ret].
    apply only_KeyError_bind; [apply only_KeyError_getitem|].
    intros v. apply only_KeyError_ret. }
  intros t2. apply only_KeyError_bind.
  { unfold grab_scale. apply only_KeyError_bind.
    - unfold common_scale_cond.
      destruct (default false (replay_active n)); [|apply only_KeyError_ret].
      apply only_KeyError_bind; [apply only_KeyError_getitem|].
      intros lp. case_bool_decide; [|apply only_KeyError_ret].
      apply only_KeyError_bind; [apply only_KeyError_getitem|].
      intros sc. apply only_KeyError_ret.
    - intros [].
      + apply only_KeyError_bind; [apply only_KeyError_getitem|].
        intros sc. apply only_KeyError_ret.
      + apply only_KeyError_bind; [apply only_KeyError_getitem|].
        intros lp. apply only_KeyError_bind; [apply only_KeyError_getitem|].
        intros sc. apply only_KeyError_bind; [by intros s e|].
        intros _. apply only_KeyError_ret. }
  intros [t3 fd3]. unfold grab_log_density.
  destruct (is_observed n || negb (default false (replay_skipped n)));
    [|apply only_KeyError_ret].
  apply only_KeyError_bind; [apply only_KeyError_getitem|].
  intros lp. apply only_KeyError_ret.
Qed.

Lemma only_KeyError_terms_from_trace : only_KeyError terms_from_trace.
Proof.
  unfold terms_from_trace.
  apply only_KeyError_bind; [by intros s e|].
  intros tr. apply only_KeyError_bind.
  - apply only_KeyError_for_each. intros b x. apply only_KeyError_visit.
  - intros t. apply only_KeyError_ret.
Qed.


(** *** The trace after [terms_from_trace] *)

Lemma imap_split_index tr (pre : list (nat * (string * node))) x post :
  imap (λ i item, (i, item)) tr = pre ++ x :: post → x.1 = length pre.
Proof.
  intros Hl.
  assert (Hx : imap (λ i item, (i, item)) tr !! length pre = Some x).
  { rewrite Hl. by apply list_lookup_middle. }
  rewrite list_lookup_imap in Hx.
  by apply fmap_Some in Hx as (item & _ & ->).
Qed.

Lemma has_log_factor_set_node_funsor name n fd :
  has_log_factor (name, set_node_funsor fd n) = has_log_factor (name, n).
Proof. done. Qed.

Lemma has_log_factor_not_scored (item : string * node) :
  not_scored item.2 = true → has_log_factor item = false.
Proof. unfold has_log_factor. by intros ->. Qed.

Lemma has_log_factor_scored (item : string * node) :
  not_scored item.2 = false →
  has_log_factor item = observed_or_replayed item.2.
Proof. unfold has_log_factor. by intros ->. Qed.

Lemma filter_has_log_factor_snoc (items : Trace) (item : string * node) :
  filter (λ item, has_log_factor item = true) (items ++ [item])
  = filter (λ item, has_log_factor item = true) items
    ++ (if has_log_factor item then [item] else []).
Proof. by rewrite filter_app, has_log_factor_singleton. Qed.

Lemma terms_from_trace_store tr t tr' :
  terms_from_trace tr = Ok (t, tr') →
  Forall2 (λ a b : string * node,
             a.1 = b.1 ∧ rescaled a.2 b.2
             ∧ (not_scored a.2 = true → b = a)) tr tr'
  ∧ Forall2 (λ f item, holds_log_prob item f) (log_factors t)
      (filter (λ item, has_log_factor item = true) tr').
Proof.
  unfold terms_from_trace.
  intros (tr0 & s0 & [= <- <-] & Hrun)%bind_Ok.
  apply bind_Ok in Hrun as (t1 & s1 & Hloop & Hrun).
  apply ret_Ok in Hrun as [-> ->]. simpl.
  apply (for_each_inv visit
           (λ pre b st,
              ∃ pre',
                st = pre' ++ drop (length pre) tr
                ∧ Forall2 (λ a b : string * node,
                             a.1 = b.1 ∧ rescaled a.2 b.2
                             ∧ (not_scored a.2 = true → b = a)) pre.*2 pre'
                ∧ Forall2 (λ f item, holds_log_prob item f) (log_factors b)
                    (filter (λ item, has_log_factor item = true) pre')))
    in Hloop.
  - destruct Hloop as (pre' & -> & Hrel & Hlf).
    pose proof (imap_pair_snd tr id) as Hsnd. simpl in Hsnd.
    rewrite Hsnd in Hrel.
    rewrite length_imap, drop_all, app_nil_r. done.
  - exists []. simpl. rewrite drop_0. split_and!; [done|constructor..].
  - intros pre [i [name n]] post b st b' st' Hl (pre' & -> & Hrel & Hlf)
      Hvisit.
    pose proof (imap_split_index _ _ _ _ Hl) as Hi. simpl in Hi. subst i.
    apply imap_split in Hl as [Htr _]. simpl in Htr.
    assert (Hlen : length pre' = length pre).
    { apply Forall2_length in Hrel. by rewrite length_fmap in Hrel. }
    assert (Hdrop : drop (length pre) tr = (name, n) :: post.*2).
    { rewrite Htr, drop_app_length'; [done|]. by rewrite length_fmap. }
    assert (Hdrop' : drop (length (pre ++ [(length pre, (name, n))])) tr
                     = post.*2).
    { rewrite length_app. simpl. rewrite Nat.add_1_r.
      rewrite Htr. rewrite <- (length_fmap snd pre).
      rewrite drop_app_ge by lia.
      by replace (S (length pre.*2) - length pre.*2)%nat with 1%nat
        by lia. }
    rewrite Hdrop in Hvisit. rewrite Hdrop'. rewrite fmap_app. simpl.
    destruct (not_scored n) eqn:Hns.
    + apply visit_not_scored in Hvisit as (-> & Hlf' & _); [|done].
      exists (pre' ++ [(name, n)]). rewrite <- app_assoc. simpl.
      split_and!; [done | |].
      * apply Forall2_app; [done|]. constructor; [|constructor].
        split_and!; [done | by left | done].
      * rewrite Hlf', filter_has_log_factor_snoc.
        rewrite (has_log_factor_not_scored (name, n)) by done.
        by rewrite app_nil_r.
    + destruct (visit_scored_cases _ _ _ _ _ _ _ Hns Hvisit)
        as (fd & lp & sc & Hfd & Hlp & Hsc
            & [(Hra & Hscale & -> & Hlf') | (Hscale & -> & Hlf')]).
      * exists (pre' ++ [(name, n)]). rewrite <- app_assoc. simpl.
        split_and!; [done | |].
        -- apply Forall2_app; [done|]. constructor; [|constructor].
           split_and!; [done | by left | done].
        -- rewrite Hlf', filter_has_log_factor_snoc.
           rewrite (has_log_factor_scored (name, n)) by done. simpl.
           apply Forall2_app; [done|].
           destruct (observed_or_replayed n); [|constructor].
           constructor; [|constructor]. by exists fd.
      * set (n' := set_node_funsor
                     (<["log_prob" := Binary eager mul lp sc]> fd) n).
        exists (pre' ++ [(name, n')]). rewrite <- app_assoc. simpl.
        split_and!.
        -- rewrite <- Hlen, insert_app_r_alt by done.
           by rewrite Nat.sub_diag.
        -- apply Forall2_app; [done|]. constructor; [|constructor].
           split_and!; [done | | simpl; by rewrite Hns].
           right. by exists fd, lp, sc.
        -- rewrite Hlf', filter_has_log_factor_snoc.
           unfold n'. rewrite has_log_factor_set_node_funsor.
           rewrite (has_log_factor_scored (name, n)) by done. simpl.
           apply Forall2_app; [done|].
           destruct (observed_or_replayed n); [|constructor].
           constructor; [|constructor].
           eexists. split; [reflexivity|]. apply lookup_insert_eq.
Qed.


(** *** Traces without replay, and traces without scored sites *)

Lemma terms_from_trace_no_replay tr t tr' :
  (∀ item, item ∈ tr → default false (replay_active item.2) = false) →
  terms_from_trace tr = Ok (t, tr') →
  scale t = to_funsor (PyFloat float_one) None
  ∧ Forall2 (λ f item, scaled_log_prob item f) (log_factors t)
      (filter (λ item, has_log_factor item = true) tr).
Proof.
  intros Hreplay. unfold terms_from_trace.
  intros (tr0 & s0 & [= <- <-] & Hrun)%bind_Ok.
  apply bind_Ok in Hrun as (t1 & s1 & Hloop & Hrun).
  apply ret_Ok in Hrun as [-> ->]. simpl.
  apply (for_each_inv visit
           (λ pre b st,
              scale b = to_funsor (PyFloat float_one) None
              ∧ Forall2 (λ f item, scaled_log_prob item f) (log_factors b)
                  (filter (λ item, has_log_factor item = true) pre.*2)))
    in Hloop.
  - pose proof (imap_pair_snd tr id) as Hsnd. simpl in Hsnd.
    by rewrite Hsnd in Hloop.
  - split; [done|constructor].
  - intros pre [i [name n]] post b st b' st' Hl [Hsc Hlf] Hvisit.
    apply imap_split in Hl as [Htr _]. simpl in Htr.
    assert (Hin : (name, n) ∈ tr).
    { rewrite Htr. apply elem_of_app. right. by left. }
    rewrite fmap_app. simpl. rewrite filter_has_log_factor_snoc.
    destruct (not_scored n) eqn:Hns.
    + apply visit_not_scored in Hvisit as (_ & Hlf' & _ & Hsc' & _);
        [|done].
      rewrite Hlf', Hsc'.
      rewrite (has_log_factor_not_scored (name, n)) by done.
      by rewrite app_nil_r.
    + destruct (visit_scored_cases _ _ _ _ _ _ _ Hns Hvisit)
        as (fd & lp & sc & Hfd & Hlp & Hscale
            & [(Hra & _) | (Hsc' & _ & Hlf')]).
      { pose proof (Hreplay _ Hin) as Hno. simpl in Hno. congruence. }
      rewrite Hsc', Hlf'. split; [done|].
      rewrite (has_log_factor_scored (name, n)) by done. simpl.
      apply Forall2_app; [done|].
      destruct (observed_or_replayed n); [|constructor].
      constructor; [|constructor]. by exists fd, lp, sc.
Qed.


Lemma visit_skips t i name n store :
  not_scored n = true → node_type n ≠ "markov_chain" →
  visit t (i, (name, n)) store = Ok (t, store).
Proof.
  intros Hns Hm%String.eqb_neq. unfold visit. rewrite Hm.
  unfold bind, ret. by rewrite Hns.
Qed.

Lemma for_each_unchanged {St A B} (l : list A) (body : B → A → M St B)
    (acc : B) (st : St) :
  (∀ x, x ∈ l → body acc x st = Ok (acc, st)) →
  for_each l body acc st = Ok (acc, st).
Proof.
  induction l as [|x l IH]; intros Hbody; [done|].
  simpl. unfold bind. rewrite Hbody by (by left).
  apply IH. intros y Hy. apply Hbody. by right.
Qed.


End terms_from_trace_more.

(** ** More about [differentiable_loss] *)

Section differentiable_loss_more.
Import TraceElbo.
Context `{Library} `{!Handlers}.

Implicit Types (l : locals) (w : World).

Lemma bind_Raise {St A B} (c : M St A) (k : A → M St B) s e :
  bind c k s = Raise e ↔
  c s = Raise e ∨ ∃ a s1, c s = Ok (a, s1) ∧ k a s1 = Raise e.
Proof.
  unfold bind. destruct (c s) as [[a s1]|e1]; split.
  - intros Hk. right. by exists a, s1.
  - intros [Hc|(a' & s' & Hc & Hk)]; [discriminate Hc|].
    by injection Hc as <- <-.
  - intros [= <-]. by left.
  - intros [Hc|(a' & s' & Hc & _)]; [by injection Hc as -> | discriminate Hc].
Qed.

(** *** The placeholders *)

Lemma targets_of_snoc costs cost :
  targets_of (costs ++ [cost]) = add_target (targets_of costs) cost.
Proof. unfold targets_of. by rewrite fold_left_app. Qed.

Lemma targets_lookup_app targets more key target :
  targets_lookup targets key = Some target →
  targets_lookup (targets ++ more) key = Some target.
Proof.
  induction targets as [|[k v] targets IH]; [done|]. simpl.
  by case_decide.
Qed.

Lemma targets_lookup_snoc targets key target :
  key ∉ targets.*1 →
  targets_lookup (targets ++ [(key, target)]) key = Some target.
Proof.
  induction targets as [|[k v] targets IH]; simpl.
  - intros _. by rewrite decide_True.
  - intros Hnot. rewrite decide_False.
    + apply IH. intros Hin. apply Hnot. by right.
    + intros ->. apply Hnot. by left.
Qed.

Lemma targets_of_keeps costs more key target :
  targets_lookup (targets_of costs) key = Some target →
  targets_lookup (targets_of (costs ++ more)) key = Some target.
Proof.
  induction more as [|c more IH] using rev_ind.
  - by rewrite app_nil_r.
  - intros Hl. rewrite app_assoc, targets_of_snoc. unfold add_target.
    case_decide; [by apply IH|]. by apply targets_lookup_app, IH.
Qed.


(** *** What [differentiable_loss] raises, and when it returns *)

Lemma installed_handlers_Raise self w e :
  installed_handlers self w = Raise e →
  e = TypeError ∧ 1 < num_particles self
  ∧ max_plate_nesting self = NestingNone.
Proof.
  unfold installed_handlers.
  intros [Hlast|(a & s1 & _ & Hret)]%bind_Raise; [|done].
  case_bool_decide as Hn; [|done].
  apply bind_Raise in Hlast as [Hdim|(a & s1 & _ & Hret)]; [|done].
  destruct (max_plate_nesting self); [|done..].
  by injection Hdim as <-.
Qed.

Lemma installed_handlers_TypeError self w :
  1 < num_particles self → max_plate_nesting self = NestingNone →
  installed_handlers self w = Raise TypeError.
Proof.
  intros Hn Hnone. unfold installed_handlers.
  by rewrite bool_decide_true, Hnone by done.
Qed.

Lemma on_trace_Raise {A} tr (c : M Trace A) w e :
  on_trace tr c w = Raise e → c tr = Raise e.
Proof.
  unfold on_trace. destruct (c tr) as [[a tr']|e']; [done|].
  unfold raise. by intros [= ->].
Qed.

Lemma only_KeyError_add_elbo_term targets log_measures plate_vars elbo cost :
  only_KeyError (add_elbo_term targets log_measures plate_vars elbo cost).
Proof.
  unfold add_elbo_term. apply only_KeyError_bind.
  { destruct (targets_lookup targets (input_vars cost));
      [apply only_KeyError_ret|]. intros s e [= <-]. by eexists. }
  intros target. apply only_KeyError_bind.
  { destruct (log_measures !! target); [apply only_KeyError_ret|].
    intros s e [= <-]. by eexists. }
  intros lm. apply only_KeyError_ret.
Qed.

Lemma differentiable_loss_Raise self model guide args w e :
  differentiable_loss self model guide args w = Raise e →
  (e = TypeError ∧ 1 < num_particles self
   ∧ max_plate_nesting self = NestingNone)
  ∨ (∃ hs, installed_handlers self w = Ok (hs, w)
           ∧ get_trace hs guide args w = Raise e)
  ∨ (∃ hs guide_tr w1,
        installed_handlers self w = Ok (hs, w)
        ∧ get_trace hs guide args w = Ok (guide_tr, w1)
        ∧ get_trace hs (replay model guide_tr) args w1 = Raise e)
  ∨ ∃ k, e = KeyError k.
Proof.
  unfold differentiable_loss.
  intros [Hl|(l & w1 & _ & Hret)]%bind_Raise; [|done].
  unfold differentiable_loss_locals in Hl.
  apply bind_Raise in Hl as [Hhs|(hs & w0 & Hhs & Hl)].
  { left. by apply (installed_handlers_Raise self w). }
  pose proof Hhs as [-> _]%installed_handlers_Ok.
  apply bind_Raise in Hl as [Hg|(guide_tr & w1 & Hg & Hl)].
  { right; left. by exists hs. }
  apply bind_Raise in Hl as [Hm|(model_tr & w2 & Hm & Hl)].
  { right; right; left. by exists hs, guide_tr, w1. }
  right; right; right.
  apply bind_Raise in Hl as [Hmt|(mt & w3 & Hmt & Hl)].
  { apply on_trace_Raise in Hmt.
    by eapply only_KeyError_terms_from_trace. }
  apply bind_Raise in Hl as [Hgt|(gt & w4 & Hgt & Hl)].
  { apply on_trace_Raise in Hgt.
    by eapply only_KeyError_terms_from_trace. }
  rewrite partition_factors in Hl.
  destruct (sum_product_on_tape _ _ _ _ _) as [logzq tape] in Hl.
  apply bind_Raise in Hl as [Hloop|(elbo & w5 & _ & Hret)]; [|done].
  eapply only_KeyError_for_each; [|exact Hloop].
  intros b x. apply only_KeyError_add_elbo_term.
Qed.


Lemma differentiable_loss_returns
    self model guide args w hs guide_tr w1 model_tr w2 :
  adjoint_has_targets →
  installed_handlers self w = Ok (hs, w) →
  get_trace hs guide args w = Ok (guide_tr, w1) →
  get_trace hs (replay model guide_tr) args w1 = Ok (model_tr, w2) →
  well_formed guide_tr → well_formed model_tr →
  ∃ loss w', differentiable_loss self model guide args w = Ok (loss, w').
Proof.
  intros Hadj Hhs Hg Hm Hgwf Hmwf.
  enough (∃ l w', differentiable_loss_locals self model guide args w
                  = Ok (l, w')) as (l & w' & Hl).
  { unfold differentiable_loss, bind. rewrite Hl. by eexists _, _. }
  unfold differentiable_loss_locals.
  apply bind_returns. exists hs, w. split; [done|].
  apply bind_returns. exists guide_tr, w1. split; [done|].
  apply bind_returns. exists model_tr, w2. split; [done|].
  destruct (terms_from_trace_total model_tr Hmwf) as (mt & tr1 & Hmt).
  destruct (terms_from_trace_total guide_tr Hgwf) as (gt & tr2 & Hgt).
  apply bind_returns. exists mt, w2. split.
  { unfold on_trace. by rewrite Hmt. }
  apply bind_returns. exists gt, w2. split.
  { unfold on_trace. by rewrite Hgt. }
  rewrite partition_factors.
  destruct (sum_product_on_tape _ _ _ _ _) as [logzq tape].
  apply bind_returns.
  edestruct elbo_loop_total as [e He];
    [|eexists _, _; split; [exact He | by eexists _, _]].
  intros cost Hin. by apply paired_log_measure_total.
Qed.


(** *** A model without variables of its own *)

Lemma filter_contracted_empty (fs : list Funsor) :
  filter (contracted ∅) fs = []
  ∧ filter (λ f, ¬ contracted ∅ f) fs = fs.
Proof.
  assert (Hno : ∀ f, ¬ contracted ∅ f).
  { intros f. unfold contracted. intros Hne. apply Hne. set_solver. }
  induction fs as [|f fs [IH1 IH2]]; [done|].
  rewrite filter_cons_False by apply Hno.
  rewrite filter_cons_True by apply Hno. by rewrite IH1, IH2.
Qed.


End differentiable_loss_more.

Section trace_elbo_more_examples.
Import TraceElbo TraceElbo.Symbolic.

Ltac each_site Hin :=
  repeat (apply elem_of_cons in Hin as [->|Hin]);
  [.. | by apply elem_of_nil in Hin].







Lemma plain_model_trace_well_formed : well_formed plain_model_trace.
Proof.
  split.
  - intros item step var Hin Hm. each_site Hin; discriminate Hm.
  - intros item Hin Hns.
    each_site Hin; (eexists; split; [reflexivity|]; split_and!; by eexists).
Qed.

Lemma plain_model_measure_vars t tr' :
  terms_from_trace plain_model_trace = Ok (t, tr') → measure_vars t = ∅.
Proof.
  intros Hrun.
  assert (Hs : summary (terms_from_trace plain_model_trace)
               = Some ([leaf "mul(logp(z), 1.0)" [];
                        leaf "mul(logp(y), 1.0)" [("data", Bint 3)]],
                       [], leaf "1.0" [], ["data"], [], [("data", [])]))
    by (vm_compute; reflexivity).
  rewrite Hrun in Hs. simpl in Hs.
  injection Hs as _ _ _ _ Hmv _.
  by apply elements_empty_inv, leibniz_equiv in Hmv.
Qed.



End trace_elbo_more_examples.

(** ** The HMM examples *)

Section hmm.
Import Hmm.

(** A loop whose body, at step [t] with the accumulator [acc_at t],
    appends the sites [step t] and leaves the handlers as they are. *)
Lemma loop_trace {A} (body : nat → A → M pstate A) (acc_at : nat → A)
    (step : nat → list site) masks plates markov :
  (∀ t tr,
      body t (acc_at t) (PState tr masks plates markov)
      = Ok (acc_at (S t), PState (tr ++ step t) masks plates markov)) →
  ∀ n s tr,
    for_each (seq s n) (λ x t, body t x) (acc_at s)
      (PState tr masks plates markov)
    = Ok (acc_at (s + n)%nat,
          PState (tr ++ flat_map step (seq s n)) masks plates markov).
Proof.
  intros Hbody. induction n as [|n IH]; intros s tr.
  - simpl. by rewrite Nat.add_0_r, app_nil_r.
  - simpl. unfold bind. rewrite Hbody, IH.
    by rewrite Nat.add_succ_r, <- app_assoc.
Qed.

Lemma for_markov_trace {A} (body : nat → A → M pstate A) (acc_at : nat → A)
    (step : nat → list site) history masks plates markov n tr :
  (∀ t tr,
      body t (acc_at t) (PState tr masks plates (Some history))
      = Ok (acc_at (S t),
            PState (tr ++ step t) masks plates (Some history))) →
  for_markov n history body (acc_at 0%nat) (PState tr masks plates markov)
  = Ok (acc_at n,
        PState (tr ++ flat_map step (seq 0 n)) masks plates markov).
Proof.
  intros Hbody. unfold for_markov, bind, get, put, modify, ret. simpl.
  by rewrite (loop_trace body acc_at step masks plates (Some history)).
Qed.

(** Every step of a trace that is made of steps is in the trace. *)
Lemma elem_of_steps (step : nat → list site) pre n t s :
  (t < n)%nat → s ∈ step t → s ∈ pre ++ flat_map step (seq 0 n).
Proof.
  intros Ht Hs. apply elem_of_app. right.
  apply list_elem_of_In, in_flat_map. exists t. split.
  - apply in_seq. lia.
  - by apply list_elem_of_In.
Qed.

Lemma check_lengths_valid a st :
  valid a → check_lengths a st = Ok (tt, st).
Proof.
  intros (Hlen & Hne & Hmax). unfold check_lengths, bind, assert.
  rewrite bool_decide_true by done. unfold ret at 1.
  unfold tensor_max. destruct (lengths a) as [|k l] eqn:Hl; [done|].
  unfold ret at 1. by rewrite bool_decide_true.
Qed.

Lemma num_steps_Ok a n st :
  steps_of a = Some n → num_steps a st = Ok (n, st).
Proof.
  unfold steps_of, num_steps, take_batch, bind.
  destruct (mapM _ (batch a)) as [ls|]; [|done]. simpl.
  destruct (jit a); [by intros [= ->]|].
  destruct ls; [done|]. by intros [= <-].
Qed.

(** Running the handlers of a step. *)
Ltac run_step :=
  cbv [with_mask with_plate sample param bind get put modify ret
       p_trace p_masks p_plates p_markov];
  rewrite <- ?app_assoc; simpl.

Lemma model_1_sites a n :
  valid a → steps_of a = Some n →
  sites (model_1 a)
  = Some (model_0_priors a
          ++ flat_map (λ t, model_1_step
                              (previous (format "x_") (VInt 0) t) t)
               (seq 0 n)).
Proof.
  intros Hvalid Hn. unfold sites, model_1.
  unfold bind at 1. rewrite check_lengths_valid by done.
  unfold bind at 1. simpl.
  unfold with_plate, bind at 1, get.
  unfold bind at 1, put. unfold bind at 1. unfold bind at 1.
  erewrite num_steps_Ok by done.
  unfold bind at 1.
  erewrite (for_markov_trace _ (previous (format "x_") (VInt 0))
              (λ t, model_1_step (previous (format "x_") (VInt 0) t) t)).
  - reflexivity.
  - intros t tr. by run_step.
Qed.

Lemma model_2_sites a n :
  valid a → steps_of a = Some n →
  sites (model_2 a)
  = Some (model_2_priors a
          ++ flat_map (λ t, model_2_step
                              (previous (format "x_") (VInt 0) t)
                              (previous_y (VInt 0) (λ y, VApp "long" [y]) t)
                              t)
               (seq 0 n)).
Proof.
  intros Hvalid Hn. unfold sites, model_2.
  cbv [with_mask with_plate sample bind get put modify ret
       p_trace p_masks p_plates p_markov].
  rewrite check_lengths_valid by done. cbv beta iota.
  erewrite num_steps_Ok by done. cbv beta iota.
  erewrite (for_markov_trace _
              (λ t, (previous (format "x_") (VInt 0) t,
                     previous_y (VInt 0) (λ y, VApp "long" [y]) t))
              (λ t, model_2_step
                      (previous (format "x_") (VInt 0) t)
                      (previous_y (VInt 0) (λ y, VApp "long" [y]) t) t)).
  - reflexivity.
  - intros t tr. by run_step.
Qed.

Ltac run_prelude :=
  cbv [with_mask with_plate sample param bind get put modify ret
       p_trace p_masks p_plates p_markov];
  rewrite check_lengths_valid by done; cbv beta iota.

Lemma model_3_sites a n :
  valid a → steps_of a = Some n →
  sites (model_3 a)
  = Some (model_3_priors a
          ++ flat_map (λ t, model_3_step
                              (previous (format "w_") (VInt 0) t)
                              (previous (format "x_") (VInt 0) t) t)
               (seq 0 n)).
Proof.
  intros Hvalid Hn. unfold sites, model_3. run_prelude.
  erewrite num_steps_Ok by done. cbv beta iota.
  erewrite (for_markov_trace _
              (λ t, (previous (format "w_") (VInt 0) t,
                     previous (format "x_") (VInt 0) t))
              (λ t, model_3_step
                      (previous (format "w_") (VInt 0) t)
                      (previous (format "x_") (VInt 0) t) t)).
  - reflexivity.
  - intros t tr. by run_step.
Qed.

Lemma model_4_sites a n :
  valid a → steps_of a = Some n →
  sites (model_4 a)
  = Some (model_4_priors a
          ++ flat_map (λ t, model_4_step
                              (previous (format "w_") tensor_zero t)
                              (previous (format "x_") tensor_zero t) t)
               (seq 0 n)).
Proof.
  intros Hvalid Hn. unfold sites, model_4. run_prelude.
  erewrite num_steps_Ok by done. cbv beta iota.
  erewrite (for_markov_trace _
              (λ t, (previous (format "w_") tensor_zero t,
                     previous (format "x_") tensor_zero t))
              (λ t, model_4_step
                      (previous (format "w_") tensor_zero t)
                      (previous (format "x_") tensor_zero t) t)).
  - reflexivity.
  - intros t tr. by run_step.
Qed.

Lemma model_5_sites a n :
  valid a → steps_of a = Some n →
  sites (model_5 a)
  = Some (model_5_priors a
          ++ flat_map (λ t, model_5_step
                              (previous (format "x_") (VInt 0) t)
                              (previous_y
                                 (VApp "torch.zeros"
                                    [VInt (Z.of_nat (data_dim a))])
                                 id t) t)
               (seq 0 n)).
Proof.
  intros Hvalid Hn. unfold sites, model_5. run_prelude.
  erewrite num_steps_Ok by done. cbv beta iota.
  erewrite (for_markov_trace _
              (λ t, (previous (format "x_") (VInt 0) t,
                     previous_y
                       (VApp "torch.zeros" [VInt (Z.of_nat (data_dim a))])
                       id t))
              (λ t, model_5_step
                      (previous (format "x_") (VInt 0) t)
                      (previous_y
                         (VApp "torch.zeros"
                            [VInt (Z.of_nat (data_dim a))]) id t) t)).
  - reflexivity.
  - intros t tr. by run_step.
Qed.

Lemma num_steps_6_Ok a n st :
  steps_of_6 a = Some n → num_steps_6 a st = Ok (n, st).
Proof.
  unfold steps_of_6, num_steps_6, take_batch, bind.
  destruct (mapM _ (batch a)) as [ls|]; [|done]. simpl.
  destruct ls; [done|]. by intros [= <-].
Qed.

Lemma model_6_sites a n :
  valid a → steps_of_6 a = Some n →
  sites (model_6 a)
  = Some (flat_map (λ t, model_6_step a
                           (previous2 (format "x_") tensor_zero t)
                           (previous (format "x_") tensor_zero t) t)
            (seq 0 n)).
Proof.
  intros Hvalid Hn. unfold sites, model_6, model_6_step, model_6_probs_x.
  destruct (raftery_parameterization a); simpl negb; cbv iota.
  - run_prelude. erewrite num_steps_6_Ok by done. cbv beta iota.
    erewrite (for_markov_trace _
                (λ t, (previous (format "x_") tensor_zero t,
                       previous2 (format "x_") tensor_zero t))).
    + reflexivity.
    + intros t tr. run_step. reflexivity.
  - run_prelude. erewrite num_steps_6_Ok by done. cbv beta iota.
    erewrite (for_markov_trace _
                (λ t, (previous (format "x_") tensor_zero t,
                       previous2 (format "x_") tensor_zero t))).
    + reflexivity.
    + intros t tr. run_step. reflexivity.
Qed.

Lemma for_plate_trace name indices (body : nat → M pstate unit)
    (step : nat → list site) masks plates markov tr :
  (∀ i tr, i ∈ indices →
           body i (PState tr masks (name :: plates) markov)
           = Ok (tt, PState (tr ++ step i) masks (name :: plates) markov)) →
  for_plate name indices body (PState tr masks plates markov)
  = Ok (tt, PState (tr ++ flat_map step indices) masks plates markov).
Proof.
  unfold for_plate. revert tr.
  induction indices as [|i indices IH]; intros tr Hbody.
  - simpl. by rewrite app_nil_r.
  - simpl. unfold bind at 1, with_plate at 1, bind, get, put, modify, ret.
    simpl. rewrite Hbody by (by left).
    rewrite IH by (intros ???; apply Hbody; by right).
    simpl. by rewrite <- app_assoc.
Qed.

Lemma model_0_sites a :
  tracing a = false →
  (∀ i, i ∈ batch a → is_Some (lengths a !! i)) →
  sites (model_0 a)
  = Some (model_0_priors a ++ flat_map (model_0_sequence a) (batch a)).
Proof.
  intros Htracing Hbatch. unfold sites, model_0. rewrite Htracing.
  unfold assert. simpl negb. cbv iota.
  cbv [with_mask sample bind get put modify ret
       p_trace p_masks p_plates p_markov].
  cbv beta iota. simpl p_trace.
  erewrite (for_plate_trace _ _ _ (model_0_sequence a)).
  - reflexivity.
  - intros i tr Hi. destruct (Hbatch i Hi) as [len Hlen].
    unfold model_0_sequence, length_of. rewrite Hlen. simpl.
    erewrite (for_markov_trace _ (previous (format2 "x_" i) (VInt 0))
                (λ t, model_0_step i len
                        (previous (format2 "x_" i) (VInt 0) t) t)).
    + reflexivity.
    + intros t tr'. by run_step.
Qed.

(** *** The steps of the models *)

Lemma indexed_by_previous_single probs prev t :
  indexed_by_previous (Categorical (VIndex probs [prev])) prev t.
Proof.
  exists probs, [prev]. split_and!; [done | by left |].
  intros v ->%list_elem_of_singleton. by left.
Qed.

(** A step whose sites are a hidden site and an emission of the expected
    form, found in a trace that is made of such steps. *)
Lemma hmm_step_intro tr (x y : nat → string) init t sx sy :
  sx ∈ tr → sy ∈ tr →
  s_name sx = x t →
  indexed_by_previous (s_fn sx) (previous x init t) t →
  is_Some (s_markov sx) → s_infer sx = enumerate_parallel →
  s_obs sx = None → s_name sy = y t →
  (∃ obs, s_obs sy = Some obs ∧ root obs = sequences) →
  hmm_step tr x y init t.
Proof. intros. by exists sx, sy. Qed.

Ltac in_step := simpl; rewrite !elem_of_cons; auto.

Lemma model_0_steps a i t :
  i ∈ batch a → (t < length_of a i)%nat →
  hmm_step (model_0_priors a ++ flat_map (model_0_sequence a) (batch a))
    (format2 "x_" i) (format2 "y_" i) (VInt 0) t.
Proof.
  intros Hi Ht.
  set (step := model_0_step i (length_of a i)
                 (previous (format2 "x_" i) (VInt 0) t) t).
  assert (Hin : ∀ s, s ∈ step →
                     s ∈ model_0_priors a
                         ++ flat_map (model_0_sequence a) (batch a)).
  { intros s Hs. apply elem_of_app. right.
    apply list_elem_of_In, in_flat_map. exists i.
    split; [by apply list_elem_of_In|].
    apply list_elem_of_In, (elem_of_steps _ [] _ t); done. }
  eapply hmm_step_intro;
    [ apply Hin; by left | apply Hin; right; by left | .. ];
    simpl; eauto using indexed_by_previous_single.
Qed.

Lemma steps_intro (step : nat → list site) pre n t
    (x y : nat → string) init sx sy :
  (t < n)%nat → sx ∈ step t → sy ∈ step t →
  s_name sx = x t →
  indexed_by_previous (s_fn sx) (previous x init t) t →
  is_Some (s_markov sx) → s_infer sx = enumerate_parallel →
  s_obs sx = None → s_name sy = y t →
  (∃ obs, s_obs sy = Some obs ∧ root obs = sequences) →
  hmm_step (pre ++ flat_map step (seq 0 n)) x y init t.
Proof.
  intros Ht Hx Hy. apply hmm_step_intro; by eapply elem_of_steps.
Qed.

(** C7, as the code has it: [model_0] to [model_5] are generative
    programs with discrete latent state.  At every time step [t] the
    hidden state [x] is sampled, inside a [pyro.markov] loop, from a
    [Categorical] whose probabilities are indexed by the hidden state of
    the previous step (and, in [model_4], by the state [w] of the current
    step); the site is annotated for parallel enumeration; and the
    emission [y] is a sample site observed on the sequence data.  In
    [model_3] and [model_4] the second hidden chain [w] is of the same
    form.  [model_6] is second-order: its [Categorical] is indexed by the
    hidden states of the two previous steps, inside a [pyro.markov] loop
    of history 2. *)
Theorem hmm_models_are_markov_chains (a : inputs) :
  (tracing a = false →
   (∀ i, i ∈ batch a → is_Some (lengths a !! i)) →
   ∃ tr, sites (model_0 a) = Some tr
         ∧ ∀ i t, i ∈ batch a → (t < length_of a i)%nat →
                  hmm_step tr (format2 "x_" i) (format2 "y_" i)
                    (VInt 0) t)
  ∧ (∀ n, valid a → steps_of a = Some n →
          (∃ tr, sites (model_1 a) = Some tr
                 ∧ ∀ t, (t < n)%nat →
                        hmm_step tr (format "x_") (format "y_") (VInt 0) t)
          ∧ (∃ tr, sites (model_2 a) = Some tr
                   ∧ ∀ t, (t < n)%nat →
                          hmm_step tr (format "x_") (format "y_")
                            (VInt 0) t)
          ∧ (∃ tr, sites (model_3 a) = Some tr
                   ∧ ∀ t, (t < n)%nat →
                          hmm_step tr (format "x_") (format "y_")
                            (VInt 0) t
                          ∧ hmm_step tr (format "w_") (format "y_")
                              (VInt 0) t)
          ∧ (∃ tr, sites (model_4 a) = Some tr
                   ∧ ∀ t, (t < n)%nat →
                          hmm_step tr (format "x_") (format "y_")
                            tensor_zero t
                          ∧ hmm_step tr (format "w_") (format "y_")
                              tensor_zero t)
          ∧ (∃ tr, sites (model_5 a) = Some tr
                   ∧ ∀ t, (t < n)%nat →
                          hmm_step tr (format "x_") (format "y_")
                            (VInt 0) t))
  ∧ (∀ n, valid a → steps_of_6 a = Some n →
          ∃ tr, sites (model_6 a) = Some tr
                ∧ ∀ t, (t < n)%nat →
                       second_order_step tr (format "x_") (format "y_")
                         tensor_zero t).
Proof.
  split_and!.
  - intros Htracing Hbatch. eexists. split; [by apply model_0_sites|].
    intros i t Hi Ht. by apply model_0_steps.
  - intros n Hvalid Hn. split_and!.
    + eexists. split; [by apply model_1_sites|]. intros t Ht.
      eapply (steps_intro _ _ _ _ _ _ _ _ _ Ht);
        [by left | right; by left | ..];
        simpl; eauto using indexed_by_previous_single.
    + eexists. split; [by apply model_2_sites|]. intros t Ht.
      eapply (steps_intro _ _ _ _ _ _ _ _ _ Ht);
        [by left | right; by left | ..];
        simpl; eauto using indexed_by_previous_single.
    + eexists. split; [by apply model_3_sites|]. intros t Ht. split.
      * eapply (steps_intro _ _ _ _ _ _ _ _ _ Ht);
          [right; by left | right; right; by left | ..];
          simpl; eauto using indexed_by_previous_single.
      * eapply (steps_intro _ _ _ _ _ _ _ _ _ Ht);
          [by left | right; right; by left | ..];
          simpl; eauto using indexed_by_previous_single.
    + eexists. split; [by apply model_4_sites|]. intros t Ht. split.
      * eapply (steps_intro _ _ _ _ _ _ _ _ _ Ht);
          [right; by left | right; right; by left | ..];
          simpl; eauto.
        eexists _, _. split_and!; [done | in_step |].
        intros v. unfold current_states. in_step.
        rewrite elem_of_nil. naive_solver.
      * eapply (steps_intro _ _ _ _ _ _ _ _ _ Ht);
          [by left | right; right; by left | ..];
          simpl; eauto using indexed_by_previous_single.
    + eexists. split; [by apply model_5_sites|]. intros t Ht.
      eapply (steps_intro _ _ _ _ _ _ _ _ _ Ht);
        [by left | right; by left | ..];
        simpl; eauto using indexed_by_previous_single.
  - intros n Hvalid Hn. eexists. split; [by apply model_6_sites|].
    intros t Ht.
    exists (hidden (format "x_" t)
              (Categorical
                 (VIndex (model_6_probs_x a)
                    [previous2 (format "x_") tensor_zero t;
                     previous (format "x_") tensor_zero t])) t 2),
           (emission (format "y_" t)
              (Bernoulli
                 (VIndex (VParam "probs_y")
                    [VApp "squeeze" [VSite (format "x_" t); VInt (-1)]]))
              "tones" t 2),
           (model_6_probs_x a).
    split_and!; try done.
    + apply (elem_of_steps _ [] n t); [done | by left].
    + apply (elem_of_steps _ [] n t); [done | right; by left].
    + by eexists.
Qed.

(** [model_7] does not fit either form.  Its loop never assigns
    [x_prev], so that the hidden state of every step is drawn from
    [Categorical(probs_x[0])], whatever the handler yields: no hidden
    state is indexed by the one before it. *)
Lemma for_vectorized_markov_trace indices
    (body : string * value → M pstate unit)
    (step : string * value → list site) masks plates markov tr :
  (∀ t tr,
      body t (PState tr masks plates markov)
      = Ok (tt, PState (tr ++ step t) masks plates markov)) →
  for_vectorized_markov indices body (PState tr masks plates markov)
  = Ok (tt, PState (tr ++ flat_map step indices) masks plates markov).
Proof.
  intros Hbody. unfold for_vectorized_markov. revert tr.
  induction indices as [|t indices IH]; intros tr.
  - simpl. by rewrite app_nil_r.
  - simpl. unfold bind. rewrite Hbody, IH. by rewrite <- app_assoc.
Qed.

Lemma model_7_sites vectorized_markov a n :
  valid a → steps_of a = Some n →
  sites (model_7 vectorized_markov a)
  = Some (model_0_priors a ++ flat_map model_7_step (vectorized_markov n)).
Proof.
  intros Hvalid Hn. unfold sites, model_7. run_prelude.
  erewrite num_steps_Ok by done. cbv beta iota.
  erewrite (for_vectorized_markov_trace _ _ model_7_step).
  - reflexivity.
  - intros [name t] tr. by run_step.
Qed.

Lemma model_7_ignores_previous_state vectorized_markov a n :
  valid a → steps_of a = Some n →
  ∃ tr, sites (model_7 vectorized_markov a) = Some tr
        ∧ ∀ s, s ∈ tr → s_infer s = enumerate_parallel →
               s_fn s = Categorical (VIndex (VSite "probs_x") [VInt 0]).
Proof.
  intros Hvalid Hn. eexists. split; [by apply model_7_sites|].
  intros s [Hs|Hs]%elem_of_app Hinfer.
  - repeat (apply elem_of_cons in Hs as [->|Hs]); try discriminate Hinfer.
    by apply elem_of_nil in Hs.
  - apply list_elem_of_In, in_flat_map in Hs as (t & _ & Hs).
    apply list_elem_of_In in Hs.
    repeat (apply elem_of_cons in Hs as [->|Hs]); try discriminate Hinfer;
      [done | by apply elem_of_nil in Hs].
Qed.

Lemma example_inputs_valid : valid example_inputs.
Proof. repeat split; [done | simpl; lia]. Qed.

Lemma hmm_models_are_markov_chains_witness :
  (∃ tr, sites (model_0 example_inputs) = Some tr
         ∧ hmm_step tr (format2 "x_" 1) (format2 "y_" 1) (VInt 0) 1)
  ∧ (∃ tr, sites (model_1 example_inputs) = Some tr
           ∧ hmm_step tr (format "x_") (format "y_") (VInt 0) 2)
  ∧ (∃ tr, sites (model_6 example_inputs) = Some tr
           ∧ second_order_step tr (format "x_") (format "y_")
               tensor_zero 2).
Proof.
  destruct (hmm_models_are_markov_chains example_inputs)
    as (H0 & H15 & H6).
  destruct H0 as (tr0 & Htr0 & Hsteps0); [reflexivity | |].
  { intros i Hi.
    repeat (apply elem_of_cons in Hi as [->|Hi]);
      [by eexists.. | by apply elem_of_nil in Hi]. }
  destruct (H15 3%nat example_inputs_valid eq_refl)
    as ((tr1 & Htr1 & Hsteps1) & _).
  destruct (H6 3%nat example_inputs_valid eq_refl)
    as (tr6 & Htr6 & Hsteps6).
  split_and!.
  - exists tr0. split; [exact Htr0|].
    apply Hsteps0; [right; by left | unfold length_of; simpl; lia].
  - exists tr1. split; [exact Htr1 | apply Hsteps1; lia].
  - exists tr6. split; [exact Htr6 | apply Hsteps6; lia].
Defined.

(** C7, as it is stated, fails for [model_6]: at step 2 the
    probabilities of [x_2] are indexed by [x_0] as well, the hidden state
    two steps before, so that the dependence is not first-order. *)
Lemma model_6_is_not_first_order :
  ∃ tr, sites (model_6 example_inputs) = Some tr
        ∧ ¬ hmm_step tr (format "x_") (format "y_") tensor_zero 2.
Proof.
  eexists. split; [vm_compute; reflexivity|].
  intros (sx & sy & Hin & Hname & (probs & idx & Hfn & Hprev & Hall) & _).
  assert (Hx0 : VSite "x_0" ∈ idx ∧ idx = [VSite "x_0"; VSite "x_1"]).
  { repeat (apply elem_of_cons in Hin as [-> | Hin]);
      try (vm_compute in Hname; discriminate Hname);
      [|by apply elem_of_nil in Hin].
    simpl in Hfn. injection Hfn as <- <-. split; [by left | done]. }
  destruct Hx0 as [Hx0 ->].
  destruct (Hall _ Hx0) as [Heq | Hcur].
  - vm_compute in Heq. discriminate Heq.
  - vm_compute in Hcur.
    repeat (apply elem_of_cons in Hcur as [Hcur | Hcur];
            [discriminate Hcur|]).
    by apply elem_of_nil in Hcur.
Qed.

(** *** The assertions of the models *)

Lemma check_lengths_rejected a st :
  rejected a → check_lengths a st = Raise AssertionError.
Proof.
  unfold check_lengths, bind, assert.
  intros [Hlen|[Hne Hmax]].
  - by rewrite bool_decide_false.
  - case_bool_decide; [|done]. unfold ret at 1. unfold tensor_max.
    destruct (lengths a) as [|k l] eqn:Hl; [done|].
    unfold ret at 1. rewrite bool_decide_false by lia. done.
Qed.



Lemma for_plate_raises name indices (body : nat → M pstate unit)
    (step : nat → list site) masks plates markov tr e :
  (∀ i tr,
      body i (PState tr masks (name :: plates) markov)
      = Ok (tt, PState (tr ++ step i) masks (name :: plates) markov)
      ∨ body i (PState tr masks (name :: plates) markov) = Raise e) →
  (∃ i, i ∈ indices
        ∧ ∀ tr, body i (PState tr masks (name :: plates) markov)
                = Raise e) →
  for_plate name indices body (PState tr masks plates markov) = Raise e.
Proof.
  intros Hbody. unfold for_plate. revert tr.
  induction indices as [|i0 indices IH]; intros tr (i & Hin & Hi).
  - by apply elem_of_nil in Hin.
  - simpl. unfold bind at 1, with_plate at 1, bind, get, put, modify, ret.
    simpl. destruct (Hbody i0 tr) as [Hok|Hraise].
    + rewrite Hok. simpl. apply IH.
      apply elem_of_cons in Hin as [->|Hin]; [|by exists i].
      rewrite Hi in Hok. discriminate Hok.
    + by rewrite Hraise.
Qed.



(** *** The program structure under the JIT *)

Lemma steps_of_jit a :
  jit a = true → batch_in_range a → steps_of a = Some (max_length a).
Proof.
  intros Hjit Hbatch. unfold steps_of.
  destruct (mapM_is_Some_2 (λ i, lengths a !! i) (batch a)) as [ls ->].
  { apply Forall_forall. intros i Hi. by apply Hbatch. }
  simpl. by rewrite Hjit.
Qed.


Lemma jit_inputs_valid : valid jit_inputs ∧ valid jit_inputs_short.
Proof. split; (repeat split; [done | simpl; lia]). Qed.


End hmm.
